(** * Confident learning, the bare-bones tutorial: confident joint and label errors

    A shallow embedding of [examples/simplifying_confident_learning_tutorial.ipynb]
    (STEP 1, the confident joint, and STEP 2, the label errors) and the
    properties its description states about it.

    Conventions of the embedding.
    - A numpy array of floats is a [list num]; a 2-d array is the list of its
      rows, all of one length.  [num] idealises float64: a finite value is an
      exact rational, and [NaN] is kept, because the code produces it (the
      mean of an empty slice) and numpy's comparisons, arg-max and sorts
      treat it specially.  Rounding error and the infinities of float64 are
      not modelled.
    - The labels [s] are Python integers, [Z]: nothing in the notebook keeps
      a label non-negative, and numpy reads a negative index from the end of
      an array.  Class ids taken from [range(K)] and example indices are
      [nat]; counts are [Z] (numpy [int]).
    - A Python exception is a value of [exn]; code that can raise returns a
      [result].
    - The two functions of cleanlab the notebook calls between its steps,
      [calibrate_confident_joint] and [keep_at_least_n_per_class], are not
      part of the notebook; STEP 2 takes the prune count matrix as an
      argument, and the two are modelled from the description where a
      property needs them. *)

From stdpp Require Import base list sorting.
From Stdlib Require Import ZArith QArith Qround Lqa Lia.

Local Open Scope nat_scope.

(** ** Exceptions *)

Inductive exn : Type :=
| IndexError
| ValueError.

Inductive result (A : Type) : Type :=
| Ok (a : A)
| Raise (e : exn).
Arguments Ok {A} a.
Arguments Raise {A} e.

Definition bind {A B} (m : result A) (k : A -> result B) : result B :=
  match m with
  | Ok a => k a
  | Raise e => Raise e
  end.

Notation "'do' x <- m ; k" := (bind m (fun x => k))
  (at level 10, x name, m at level 100, k at level 200).

(** [a[i]] on a sequence, for a non-negative index. *)
Definition index {A} (l : list A) (i : nat) : result A :=
  match l !! i with
  | Some a => Ok a
  | None => Raise IndexError
  end.

(** The position an integer index [i] reads in a sequence of length [n]:
    [i] itself from [0] to [n - 1], [n + i] from [-n] to [-1], and an
    IndexError outside. *)
Definition wrap (n : nat) (i : Z) : result nat :=
  if (0 <=? i)%Z && (i <? Z.of_nat n)%Z then Ok (Z.to_nat i)
  else if (- Z.of_nat n <=? i)%Z && (i <? 0)%Z then Ok (Z.to_nat (Z.of_nat n + i))
  else Raise IndexError.

(** [a[i]] for an integer index. *)
Definition py_index {A} (l : list A) (i : Z) : result A :=
  do p <- wrap (length l) i ;
  index l p.

(** A comprehension or a [for] loop whose body can raise. *)
Fixpoint mapM {A B} (f : A -> result B) (l : list A) : result (list B) :=
  match l with
  | [] => Ok []
  | a :: l' => do b <- f a ; do bs <- mapM f l' ; Ok (b :: bs)
  end.

Fixpoint foldM {A S} (f : S -> A -> result S) (st : S) (l : list A) : result S :=
  match l with
  | [] => Ok st
  | a :: l' => do st' <- f st a ; foldM f st' l'
  end.

(** [enumerate(l)]. *)
Definition enumerate {A} (l : list A) : list (nat * A) :=
  zip (seq 0 (length l)) l.

(** ** Numbers *)

Inductive num : Type :=
| Fin (q : Q)
| NaN.

(** The tolerance [1e-6] of the confident-bin test. *)
Definition eps : num := Fin (1 # 1000000).

Definition sub (a b : num) : num :=
  match a, b with
  | Fin x, Fin y => Fin (x - y)
  | _, _ => NaN
  end.

Definition add (a b : num) : num :=
  match a, b with
  | Fin x, Fin y => Fin (x + y)
  | _, _ => NaN
  end.

Definition neg (a : num) : num :=
  match a with
  | Fin x => Fin (- x)
  | NaN => NaN
  end.

(** [a >= b]: false as soon as one side is NaN. *)
Definition ge (a b : num) : bool :=
  match a, b with
  | Fin x, Fin y => Qle_bool y x
  | _, _ => false
  end.

(** [a > b]. *)
Definition gt (a b : num) : bool :=
  match a, b with
  | Fin x, Fin y => negb (Qle_bool x y)
  | _, _ => false
  end.

Definition is_nan (a : num) : bool :=
  match a with
  | NaN => true
  | Fin _ => false
  end.

Definition finite (a : num) : Prop :=
  match a with
  | Fin _ => True
  | NaN => False
  end.

(** [np.mean] of a 1-d array: NaN on an empty slice (0/0). *)
Definition np_sum (l : list num) : num := foldl add (Fin 0) l.

Definition np_mean (l : list num) : num :=
  match l with
  | [] => NaN
  | _ => match np_sum l with
         | Fin t => Fin (t / inject_Z (Z.of_nat (length l)))
         | NaN => NaN
         end
  end.

(** [np.argmax] of a 1-d float array: the first index of the maximum, the
    first NaN when there is one; an empty array raises. *)
Fixpoint argmax_from (best : num) (bi : nat) (i : nat) (l : list num) : nat :=
  match l with
  | [] => bi
  | x :: l' =>
      if is_nan best then bi
      else if is_nan x || gt x best then argmax_from x i (S i) l'
      else argmax_from best bi (S i) l'
  end.

Definition np_argmax (l : list num) : result nat :=
  match l with
  | [] => Raise ValueError
  | x :: l' => Ok (argmax_from x 0 1 l')
  end.

(** [np.argmax] of a boolean array: the first [True], index 0 if none. *)
Fixpoint first_true (i : nat) (l : list bool) : option nat :=
  match l with
  | [] => None
  | b :: l' => if b then Some i else first_true (S i) l'
  end.

Definition np_argmax_bool (l : list bool) : result nat :=
  match l with
  | [] => Raise ValueError
  | _ => Ok (default 0 (first_true 0 l))
  end.

(** [sum] of a boolean array. *)
Definition count_true (l : list bool) : nat := length (List.filter id l).

(** ** Array primitives *)

(** [psx[:, k]] for a 2-d array given by its rows. *)
Definition column (psx : list (list num)) (k : nat) : result (list num) :=
  mapM (fun row => index row k) psx.

(** [a[mask]]: the mask must be as long as the array. *)
Definition mask_select {A} (a : list A) (mask : list bool) : result (list A) :=
  if length a =? length mask
  then Ok (map fst (List.filter snd (zip a mask)))
  else Raise IndexError.

(** An elementwise binary operation on two 1-d arrays under numpy's
    broadcasting: equal lengths, or one of them of length 1. *)
Definition broadcast2 {A B C} (f : A -> B -> C) (a : list A) (b : list B)
  : result (list C) :=
  if length a =? length b then Ok (zip_with f a b)
  else match a, b with
       | [x], _ => Ok (map (f x) b)
       | _, [y] => Ok (map (fun x => f x y) a)
       | _, _ => Raise ValueError
       end.

(** [s == k]. *)
Definition eq_mask (s : list Z) (k : nat) : list bool :=
  map (fun l => (l =? Z.of_nat k)%Z) s.

(** [np.unique(s)]: the distinct labels in ascending order. *)
Definition np_unique (s : list Z) : list Z := merge_sort Z.le (remove_dups s).

(** ** STEP 1: the confident joint *)

Abbreviation matrix := (list (list Z)).

Definition zeros (K : nat) : matrix := replicate K (replicate K 0%Z).

(** [thresholds = [np.mean(psx[:,k][s == k]) for k in range(K)]]. *)
Definition threshold (s : list Z) (psx : list (list num)) (k : nat) : result num :=
  do psx_k <- column psx k ;
  do sel <- mask_select psx_k (eq_mask s k) ;
  Ok (np_mean sel).

Definition thresholds (s : list Z) (psx : list (list num)) (K : nat)
  : result (list num) :=
  mapM (threshold s psx) (seq 0 K).

(** [confident_joint[a][b] += 1]. *)
Definition incr (J : matrix) (a b : nat) : result matrix :=
  do r <- index J a ;
  do v <- index r b ;
  Ok (<[a := <[b := (v + 1)%Z]> r]> J).

(** [row >= thresholds - 1e-6]. *)
Definition confident_bins (thr : list num) (row : list num) : result (list bool) :=
  broadcast2 ge row (map (fun t => sub t eps) thr).

(** The body of the loop over [enumerate(psx)].  [confident_joint[s_label]]
    is read with the label as it is, so a label from [-K] to [-1] reaches a
    row from the end. *)
Definition joint_step (s : list Z) (thr : list num) (J : matrix)
  (ir : nat * list num) : result matrix :=
  let '(i, row) := ir in
  do s_label <- index s i ;
  do bins <- confident_bins thr row ;
  let num_confident_bins := count_true bins in
  if num_confident_bins =? 1 then
    do a <- wrap (length J) s_label ;
    do c <- np_argmax_bool bins ;
    incr J a c
  else if 1 <? num_confident_bins then
    do a <- wrap (length J) s_label ;
    do c <- np_argmax row ;
    incr J a c
  else Ok J.

(** The confident joint before calibration, for a given number of classes. *)
Definition confident_joint_K (K : nat) (s : list Z) (psx : list (list num))
  : result matrix :=
  do thr <- thresholds s psx K ;
  foldM (joint_step s thr) (zeros K) (enumerate psx).

(** As the notebook runs it: [K = len(np.unique(s))]. *)
Definition confident_joint (s : list Z) (psx : list (list num)) : result matrix :=
  confident_joint_K (length (np_unique s)) s psx.

(** ** Sorting as numpy orders floats: ascending, NaN last *)

Definition np_leb (a b : num) : bool :=
  match a, b with
  | Fin x, Fin y => Qle_bool x y
  | _, NaN => true
  | NaN, Fin _ => false
  end.

Definition np_le (a b : num) : Prop := np_leb a b = true.

#[global] Instance np_le_dec : RelDecision np_le.
Proof. intros a b. unfold np_le. apply _. Defined.

Definition np_sort (a : list num) : list num := merge_sort np_le a.

(** [np.partition(a, kth)]: the entry at [kth] is the one a full sort puts
    there, and that entry is all the code reads.  A negative [kth] counts
    from the end; [kth] out of bounds raises ValueError, except on an empty
    array, which numpy returns without looking at [kth]. *)
Definition np_partition (a : list num) (kth : Z) : result (list num) :=
  match a with
  | [] => Ok []
  | _ =>
      let n := Z.of_nat (length a) in
      let k := if (kth <? 0)%Z then (kth + n)%Z else kth in
      if (0 <=? k)%Z && (k <? n)%Z then Ok (np_sort a) else Raise ValueError
  end.

Definition key_le (p r : num * nat) : Prop := np_le p.1 r.1.

#[global] Instance key_le_dec : RelDecision key_le.
Proof. intros p r. unfold key_le. apply _. Defined.

(** [np.argsort(a)]: the positions of [a] in ascending order of their value.
    numpy's default sort leaves the order of equal values open; here it is
    the order [merge_sort] gives, and no property below depends on it. *)
Definition np_argsort (a : list num) : list nat :=
  map snd (merge_sort key_le (zip a (seq 0 (length a)))).

(** [row.max()]: NaN as soon as one entry is; an empty row raises. *)
Definition max2 (a b : num) : num :=
  match a, b with
  | Fin x, Fin y => if Qle_bool x y then Fin y else Fin x
  | _, _ => NaN
  end.

Definition np_max (row : list num) : result num :=
  match row with
  | [] => Raise ValueError
  | x :: l => Ok (foldl max2 x l)
  end.

(** The number of examples with observed label [k]: [sum(s == k)]. *)
Definition label_count (s : list Z) (k : nat) : Z :=
  Z.of_nat (count_true (eq_mask s k)).

(** [np.bincount(s)]: the counts of the labels [0] to [max(s)]; a negative
    label raises ValueError. *)
Definition np_bincount (s : list Z) : result (list Z) :=
  if forallb (fun l => (0 <=? l)%Z) s then
    match s with
    | [] => Ok []
    | _ => Ok (map (label_count s) (seq 0 (S (Z.to_nat (foldr Z.max 0%Z s)))))
    end
  else Raise ValueError.

(** [np.stack(masks).any(axis=0)]: at least one mask, all of one length. *)
Definition stack_any (masks : list (list bool)) : result (list bool) :=
  match masks with
  | [] => Raise ValueError
  | m :: ms =>
      if forallb (fun m' => length m' =? length m) ms
      then Ok (foldl (zip_with orb) m ms)
      else Raise ValueError
  end.

(** ** STEP 2: the label errors *)

(** The selection for one pair (true class [k], noisy label [j]): the value
    of [s_filter & (margin >= threshold)].  The loop reaches it with
    [num2prune > 0] only. *)
Definition prune_pair (s : list Z) (psx : list (list num)) (psx_k : list num)
  (j : nat) (num2prune : Z) : result (list bool) :=
  do psx_j <- column psx j ;
  do margin <- broadcast2 sub psx_k psx_j ;
  let s_filter := eq_mask s j in
  do sel <- mask_select margin s_filter ;
  let kth := (num2prune - 1)%Z in
  do part <- np_partition (map neg sel) kth ;
  do v <- py_index part kth ;
  let threshold := neg v in
  broadcast2 andb s_filter (map (fun m => ge m threshold) margin).

(** The body of the loop over [j] for a true class [k]. *)
Definition noise_step (s : list Z) (psx : list (list num)) (prune_count_matrix : matrix)
  (k : nat) (psx_k : list num) (noise_mask : list bool) (j : nat)
  : result (list bool) :=
  if k =? j then Ok noise_mask
  else
    do r <- index prune_count_matrix k ;
    do num2prune <- index r j ;
    if (0 <? num2prune)%Z then
      do sel <- prune_pair s psx psx_k j num2prune ;
      broadcast2 orb noise_mask sel
    else Ok noise_mask.

(** The body of the loop over [k]: the noise mask of true class [k]. *)
Definition noise_mask_of (MIN_NUM_PER_CLASS : Z) (K : nat) (s : list Z) (psx : list (list num))
  (prune_count_matrix : matrix) (s_counts : list Z) (k : nat) : result (list bool) :=
  do psx_k <- column psx k ;
  do c <- index s_counts k ;
  if (MIN_NUM_PER_CLASS <? c)%Z then
    foldM (noise_step s psx prune_count_matrix k psx_k) (replicate (length psx) false) (seq 0 K)
  else Ok (replicate (length s) false).

Definition noise_masks_per_class (MIN_NUM_PER_CLASS : Z) (K : nat) (s : list Z)
  (psx : list (list num)) (prune_count_matrix : matrix) : result (list (list bool)) :=
  do s_counts <- np_bincount s ;
  mapM (noise_mask_of MIN_NUM_PER_CLASS K s psx prune_count_matrix s_counts) (seq 0 K).

(** Remove label errors if given label == model prediction. *)
Definition override_step (s : list Z) (label_errors_bool : list bool)
  (ip : nat * nat) : result (list bool) :=
  let '(i, pred_label) := ip in
  do b <- index label_errors_bool i ;
  if b then
    do s_i <- index s i ;
    if (Z.of_nat pred_label =? s_i)%Z then Ok (<[i := false]> label_errors_bool)
    else Ok label_errors_bool
  else Ok label_errors_bool.

Definition label_errors_mask (MIN_NUM_PER_CLASS : Z) (K : nat) (s : list Z)
  (psx : list (list num)) (prune_count_matrix : matrix) : result (list bool) :=
  do masks <- noise_masks_per_class MIN_NUM_PER_CLASS K s psx prune_count_matrix ;
  do label_errors_bool <- stack_any masks ;
  do preds <- mapM np_argmax psx ;
  foldM (override_step s) label_errors_bool (enumerate preds).

(** [psx[i][s[i]]], the self confidence of example [i]. *)
Definition self_conf (s : list Z) (psx : list (list num)) (i : nat) : result num :=
  do row <- index psx i ;
  do s_i <- index s i ;
  py_index row s_i.

(** The ordered label errors, for a given prune count matrix. *)
Definition label_errors_idx (MIN_NUM_PER_CLASS : Z) (K : nat) (s : list Z)
  (psx : list (list num)) (prune_count_matrix : matrix) : result (list nat) :=
  do label_errors_bool <- label_errors_mask MIN_NUM_PER_CLASS K s psx prune_count_matrix ;
  do idx <- mask_select (seq 0 (length s)) label_errors_bool ;
  do self_confidence <- mapM (self_conf s psx) idx ;
  do rows <- mask_select psx label_errors_bool ;
  do maxes <- mapM np_max rows ;
  do margin <- broadcast2 sub self_confidence maxes ;
  mapM (index idx) (np_argsort margin).

(** ** Calibration of the confident joint *)

Definition row_sum (r : list Z) : Z := foldr Z.add 0%Z r.

Definition total (J : matrix) : Z := row_sum (map row_sum J).

Definition Qsum (xs : list Q) : Q := foldr Qplus 0%Q xs.

(** Modelled from the spec: a row rescaled to the number [count] of examples
    with its label; a row whose sum is zero stays as it is. *)
Definition scale_row (count : Z) (r : list Z) : list Q :=
  let t := row_sum r in
  if (t =? 0)%Z then map inject_Z r
  else map (fun v => (inject_Z (v * count) / inject_Z t)%Q) r.

(** Modelled from the spec: the fractional part of a rescaled cell. *)
Definition frac (x : Q) : Q := (x - inject_Z (Qfloor x))%Q.

(** Modelled from the spec: the first cell, in (row, column) order, with the
    largest fractional part among the cells that have not been served yet
    ([None] marks a served cell). *)
Fixpoint pick_from (best : option (nat * Q)) (i : nat) (fr : list (option Q))
  : option nat :=
  match fr with
  | [] => fst <$> best
  | None :: fr' => pick_from best (S i) fr'
  | Some x :: fr' =>
      match best with
      | Some (_, b) =>
          if Qle_bool x b then pick_from best (S i) fr'
          else pick_from (Some (i, x)) (S i) fr'
      | None => pick_from (Some (i, x)) (S i) fr'
      end
  end.

Definition pick (fr : list (option Q)) : option nat := pick_from None 0 fr.

(** Modelled from the spec: [residual] units handed out, one per cell,
    largest fractional part first, ties in the order of the cells. *)
Fixpoint largest_remainder (residual : nat) (fr : list (option Q)) (out : list Z)
  : list Z :=
  match residual with
  | 0 => out
  | S residual' =>
      match pick fr with
      | None => out
      | Some c => largest_remainder residual' (<[c := None]> fr) (alter Z.succ c out)
      end
  end.

(** Modelled from the spec: the rescaled cells rounded to integers that add
    up to [n]: the floors, and the residual by which they fall short of [n]
    handed out by largest remainders. *)
Definition round_cells (n : Z) (xs : list Q) : list Z :=
  let floors := map Qfloor xs in
  let residual := Z.to_nat (n - row_sum floors) in
  largest_remainder residual (map (fun x => Some (frac x)) xs) floors.

(** Modelled from the spec: a flat sequence of cells cut into rows of the
    lengths of the rows of [J]. *)
Fixpoint reshape_like {A} (J : list (list A)) (cells : list Z) : matrix :=
  match J with
  | [] => []
  | row :: J' =>
      take (length row) cells :: reshape_like J' (drop (length row) cells)
  end.

(** Modelled from the spec: the rows of the joint, each rescaled to the
    number of examples with its label. *)
Definition scaled_joint (J : matrix) (s : list Z) : list (list Q) :=
  imap (fun r row => scale_row (label_count s r) row) J.

(** Modelled from the spec: [cleanlab.latent_estimation.calibrate_confident_joint],
    which the notebook calls and which is not among the sources.  The
    description (4.1, step 3) has each row rescaled by
    [count(labels == row) / rowsum(joint[row])], rows of sum zero left as
    they are, and the result rounded to integers that keep the total [n],
    the number of examples, by largest remainders: one residual for the
    whole matrix, handed out to the cells with the largest fractional parts
    first, ties in (row, column) order. *)
Definition calibrate_confident_joint (J : matrix) (s : list Z) : matrix :=
  reshape_like J
    (round_cells (Z.of_nat (length s)) (concat (scaled_joint J s))).
(** ** The prune counts and the notebook from end to end *)

(** [confident_joint.T] of a square matrix. *)
Definition transpose (J : matrix) : matrix :=
  map (fun c => map (fun r => default 0%Z (r !! c)) J) (seq 0 (length J)).

(** Modelled from the spec: the first largest positive entry of a row off
    its diagonal cell [k]. *)
Fixpoint largest_off_diagonal (k : nat) (best : option (nat * Z)) (i : nat)
  (row : list Z) : option nat :=
  match row with
  | [] => fst <$> best
  | v :: row' =>
      if (i =? k) || (v <=? 0)%Z then largest_off_diagonal k best (S i) row'
      else match best with
           | Some (_, b) =>
               if (v <=? b)%Z then largest_off_diagonal k best (S i) row'
               else largest_off_diagonal k (Some (i, v)) (S i) row'
           | None => largest_off_diagonal k (Some (i, v)) (S i) row'
           end
  end.

(** Modelled from the spec: [units] prune counts taken off a row, each from
    its largest off-diagonal entry, as long as one is positive. *)
Fixpoint take_from_largest (units : nat) (k : nat) (row : list Z) : list Z :=
  match units with
  | 0 => row
  | S units' =>
      match largest_off_diagonal k None 0 row with
      | Some c => take_from_largest units' k (alter Z.pred c row)
      | None => row
      end
  end.

(** Modelled from the spec: the floor adjustment of the row of true class
    [k]. *)
Definition floor_row (n : Z) (s : list Z) (k : nat) (row : list Z) : list Z :=
  match row !! k with
  | Some d =>
      if (d <? n)%Z && (n <? label_count s k)%Z
      then <[k := n]> (take_from_largest (Z.to_nat (n - d)) k row)
      else row
  | None => row
  end.

(** Modelled from the spec: [cleanlab.pruning.keep_at_least_n_per_class],
    which the notebook calls and which is not among the sources.  The
    description (4.2, step A, and the prune count matrix of the data model)
    has, for each true class [k] whose diagonal count is below the floor [n]
    and whose observed label count exceeds it, the off-diagonal prune counts
    of row [k] reduced, largest entries first, and given back to the
    diagonal, which ends at the floor. *)
Definition keep_at_least_n_per_class (prune_count_matrix : matrix) (n : Z)
  (s : list Z) : matrix :=
  imap (floor_row n s) prune_count_matrix.

(** STEP 1 and STEP 2 in sequence, as the notebook runs them. *)
Definition find_label_errors (MIN_NUM_PER_CLASS : Z) (s : list Z) (psx : list (list num))
  : result (list nat) :=
  let K := length (np_unique s) in
  do J <- confident_joint_K K s psx ;
  let cj := calibrate_confident_joint J s in
  let prune_count_matrix := keep_at_least_n_per_class (transpose cj) MIN_NUM_PER_CLASS s in
  label_errors_idx MIN_NUM_PER_CLASS K s psx prune_count_matrix.

(** ** The description's vocabulary *)

Definition count_if {A} (f : A -> bool) (l : list A) : nat :=
  length (List.filter f l).

Definition cell (J : matrix) (a b : nat) : option Z :=
  match J !! a with
  | Some r => r !! b
  | None => None
  end.

(** A [K] x [K] matrix. *)
Definition square (K : nat) (J : matrix) : Prop :=
  length J = K /\ Forall (fun r => length r = K) J.

(** The confident set of an example: the classes [k] with
    [row[k] >= thr[k] - eps]. *)
Definition confident (thr row : list num) (k : nat) : bool :=
  match row !! k, thr !! k with
  | Some p, Some t => ge p (sub t eps)
  | _, _ => false
  end.

Definition confident_set (thr row : list num) : list nat :=
  List.filter (confident thr row) (seq 0 (length thr)).

(** The column an example adds one to, if any. *)
Definition confident_target (thr row : list num) : option nat :=
  match confident_set thr row with
  | [] => None
  | [k] => Some k
  | _ :: _ :: _ =>
      match np_argmax row with
      | Ok c => Some c
      | Raise _ => None
      end
  end.

(** Example [i] has label [a] and adds one to column [b]. *)
Definition counts_for (s : list Z) (thr : list num) (a b : nat)
  (ir : nat * list num) : bool :=
  bool_decide (s !! ir.1 = Some (Z.of_nat a) /\ confident_target thr ir.2 = Some b).

(** The indices at which a boolean array holds [True], from offset [i]. *)
Definition true_indices (i : nat) (bins : list bool) : list nat :=
  List.filter (fun k => default false (bins !! (k - i))) (seq i (length bins)).

Definition cellZ (J : matrix) (a b : nat) : Z := default 0%Z (cell J a b).

(** Inputs of the right shape: one label in [0, K) per row, [K] columns. *)
Definition valid_input (K : nat) (s : list Z) (psx : list (list num)) : Prop :=
  length s = length psx /\
  Forall (fun l => (0 <= l < Z.of_nat K)%Z) s /\
  Forall (fun row => length row = K) psx.

(** The ranking score of example [i]: its self confidence minus the largest
    entry of its row. *)
Definition margin_of (s : list Z) (psx : list (list num)) (i : nat) : result num :=
  do sc <- self_conf s psx i ;
  do row <- index psx i ;
  do m <- np_max row ;
  Ok (sub sc m).

(** The margin [psx[i][k] - psx[i][j]] of example [i] for the pair of a true
    class [k] and a noisy label [j]. *)
Definition pair_margin (psx : list (list num)) (k j i : nat) : option num :=
  match psx !! i with
  | Some row =>
      match row !! k, row !! j with
      | Some a, Some b => Some (sub a b)
      | _, _ => None
      end
  | None => None
  end.

(** Example [i] has observed label [j] and its margin passes the test [cmp]. *)
Definition selected_by (s : list Z) (psx : list (list num)) (k j : nat)
  (cmp : num -> bool) (i : nat) : bool :=
  match s !! i, pair_margin psx k j i with
  | Some l, Some m => (l =? Z.of_nat j)%Z && cmp m
  | _, _ => false
  end.

(** How many examples with observed label [j] have a margin above [t], and
    how many a margin at or above [t]. *)
Definition above (s : list Z) (psx : list (list num)) (k j : nat) (t : num) : nat :=
  count_if (selected_by s psx k j (fun m => gt m t)) (seq 0 (length s)).

Definition at_or_above (s : list Z) (psx : list (list num)) (k j : nat) (t : num)
  : nat :=
  count_if (selected_by s psx k j (fun m => ge m t)) (seq 0 (length s)).

(** [t] is the [n]-th largest margin among the examples with observed label
    [j]: fewer than [n] of them are above [t], at least [n] at or above it. *)
Definition nth_largest_margin (s : list Z) (psx : list (list num)) (k j : nat)
  (n : nat) (t : num) : Prop :=
  finite t /\ above s psx k j t < n <= at_or_above s psx k j t.

(** The number of cells of a row that have not been served yet. *)
Definition avail (fr : list (option Q)) : nat :=
  count_if (fun o => match o with Some _ => true | None => false end) fr.

(** The number of examples with observed label [k] that are not among the
    label errors [out]. *)
Definition unpruned (s : list Z) (out : list nat) (k : nat) : nat :=
  count_if (fun i => bool_decide (s !! i = Some (Z.of_nat k) /\ i ∉ out))
    (seq 0 (length s)).

(** Prune counts STEP 2 can work with: a [K] x [K] matrix whose entry for a
    true class [k] and another noisy label [j] is at most the number of
    examples with label [j]. *)
Definition valid_prune_counts (K : nat) (s : list Z) (pcm : matrix) : Prop :=
  square K pcm /\
  forall k j n, k <> j -> cell pcm k j = Some n -> (n <= label_count s j)%Z.

(** ** STEP 0: adding label errors *)

(** [np.delete(arr, i)]: the array without the entry the index [i] reads; an
    index out of bounds raises. *)
Definition np_delete {A} (arr : list A) (i : Z) : result (list A) :=
  do p <- wrap (length arr) i ;
  Ok (delete p arr).

(** [range(n)]. *)
Definition py_range (n : nat) : list Z := map Z.of_nat (seq 0 n).

(** The body of the loop over [error_indices].  The draw of
    [np.random.choice] is an input: [r] is the position it picks in the
    array of the other labels. *)
Definition corrupt_step (s : list Z) (ir : nat * nat) : result (list Z) :=
  let '(i, r) := ir in
  do s_i <- index s i ;
  do others <- np_delete (py_range 10) s_i ;
  do wrong_label <- index others r ;
  Ok (<[i := wrong_label]> s).

(** [s = np.array(y)] and the loop; [choices] pairs each of the
    [error_indices] with the draw of its wrong label. *)
Definition add_label_errors (y : list Z) (choices : list (nat * nat))
  : result (list Z) :=
  foldM corrupt_step y choices.

(** [s != y]. *)
Definition ne_mask (s y : list Z) : list bool :=
  zip_with (fun a b => negb (a =? b)%Z) s y.

(** [len(s) - sum(s == y)], the left side of the assertion. *)
Definition num_label_errors (s y : list Z) : Z :=
  (Z.of_nat (length s) - Z.of_nat (count_true (zip_with Z.eqb s y)))%Z.

(** [actual_label_errors = np.arange(len(y))[s != y]]. *)
Definition actual_label_errors (s y : list Z) : result (list nat) :=
  mask_select (seq 0 (length y)) (ne_mask s y).

(** ** The two scores of the last cell *)

(** [sum([e in ys for e in xs])]. *)
Definition hits (xs ys : list nat) : nat :=
  count_if (fun e => bool_decide (e ∈ ys)) xs.

(** [a / b] on two Python integers, under [from __future__ import division]. *)
Inductive quotient : Type :=
| Quot (x : Q)
| ZeroDivisionError.

Definition true_div (a b : nat) : quotient :=
  if b =? 0 then ZeroDivisionError
  else Quot (inject_Z (Z.of_nat a) / inject_Z (Z.of_nat b)).

(** The share of the actual errors that were found. *)
Definition score_found (label_errors_idx actual_label_errors : list nat)
  (NUM_ERRORS : nat) : quotient :=
  true_div (hits actual_label_errors label_errors_idx) NUM_ERRORS.

(** The share of the label errors found that are actual errors. *)
Definition score_actual (label_errors_idx actual_label_errors : list nat)
  : quotient :=
  true_div (hits label_errors_idx actual_label_errors) (length label_errors_idx).

(** Example [i] can be flagged at all: its label [j] has a positive prune
    count under a true class [k], other than [j], with more than [MIN]
    examples. *)
Definition flaggable (MIN : Z) (K : nat) (s : list Z) (pcm : matrix) (i : nat)
  : Prop :=
  exists j k n,
    s !! i = Some (Z.of_nat j) /\ k < K /\ k <> j /\ (MIN < label_count s k)%Z /\
    cell pcm k j = Some n /\ (0 < n)%Z.

(** Example [i] has label [a] and is confident in at least one class. *)
Definition counted (s : list Z) (thr : list num) (a : nat)
  (ir : nat * list num) : bool :=
  bool_decide (s !! ir.1 = Some (Z.of_nat a) /\ confident_set thr ir.2 <> []).

(** ** Concrete inputs *)

(** The rational [n/d] as a number of the model. *)
Definition q (n d : Z) : num := Fin (Qmake n (Z.to_pos d)).

(** The scenario of the description: ten examples, two classes, example 4
    carries label 0 and looks like class 1. *)
Definition s_demo : list Z := [0; 0; 0; 0; 0; 1; 1; 1; 1; 1]%Z.

Definition psx_demo : list (list num) :=
  replicate 4 [q 9 10; q 1 10] ++ replicate 6 [q 1 10; q 9 10].

(** Labels 0 and 2 only: [len(np.unique(s))] is 2, class 1 has no example
    and label 2 is outside [0, 2). *)
Definition s_gap : list Z := [0; 2]%Z.

Definition psx_gap : list (list num) := [[q 9 10; q 1 10]; [q 1 10; q 1 10]].

(** Labels 0 and -1: [len(np.unique(s))] is 2 and label -1 reads the last
    row of the joint. *)
Definition s_neg : list Z := [0; -1]%Z.

Definition psx_neg : list (list num) := replicate 2 [q 9 10; q 1 10].

(** A probability that is not a number. *)
Definition s_nan : list Z := [0; 1]%Z.

Definition psx_nan : list (list num) := [[q 9 10; NaN]; [q 2 10; q 8 10]].

(** Seven examples of two classes, three of which look like the other
    class, each to another degree. *)
Definition s_rank : list Z := [0; 0; 0; 0; 1; 1; 1]%Z.

Definition psx_rank : list (list num) :=
  [[q 9 10; q 1 10]; [q 4 10; q 6 10]; [q 1 10; q 9 10]; [q 8 10; q 2 10];
   [q 1 10; q 9 10]; [q 2 10; q 8 10]; [q 7 10; q 3 10]].

(** Three examples with label 1 and one and the same row. *)
Definition s_tie : list Z := [1; 1; 1]%Z.

Definition psx_tie : list (list num) := replicate 3 [q 9 10; q 1 10].

(** Six examples of each of two classes, all with the same row. *)
Definition s_flat : list Z := replicate 6 0%Z ++ replicate 6 1%Z.

Definition psx_flat : list (list num) := replicate 12 [q 9 10; q 1 10].

(** Three classes with 3, 8 and 1 examples, whose confident joint needs
    rounding in two rows. *)
Definition s_skew : list Z := replicate 3 0%Z ++ replicate 8 1%Z ++ [2%Z].

Definition psx_skew : list (list num) :=
  [[q 9 10; q 0 1; q 0 1]; [q 0 1; q 9 10; q 0 1]; [q 3 10; q 0 1; q 0 1]]
  ++ [[q 9 10; q 0 1; q 0 1]; [q 0 1; q 9 10; q 0 1]]
  ++ replicate 3 [q 0 1; q 0 1; q 95 100]
  ++ replicate 3 [q 0 1; q 5 100; q 0 1]
  ++ [[q 0 1; q 0 1; q 9 10]].

(** ** Lemmas on numbers *)

Lemma ge_iff (x y : Q) : ge (Fin x) (Fin y) = true <-> (y <= x)%Q.
Proof. simpl. apply Qle_bool_iff. Qed.

Lemma gt_iff (x y : Q) : gt (Fin x) (Fin y) = true <-> (y < x)%Q.
Proof.
  simpl. rewrite negb_true_iff, <- not_true_iff_false, Qle_bool_iff. split.
  - apply Qnot_le_lt.
  - apply Qlt_not_le.
Qed.

Lemma gt_false_ge (x y : Q) : gt (Fin x) (Fin y) = false -> ge (Fin y) (Fin x) = true.
Proof.
  intros H. apply ge_iff. destruct (Qlt_le_dec y x) as [Hlt|Hle]; [|done].
  apply gt_iff in Hlt. congruence.
Qed.

Lemma ge_refl (x : Q) : ge (Fin x) (Fin x) = true.
Proof. apply ge_iff, Qle_refl. Qed.

Lemma ge_trans (a b c : num) : ge a b = true -> ge b c = true -> ge a c = true.
Proof.
  destruct a as [x|], b as [y|], c as [z|]; try discriminate.
  rewrite !ge_iff. intros H1 H2. by apply Qle_trans with y.
Qed.

Lemma gt_ge (a b : num) : gt a b = true -> ge a b = true.
Proof.
  destruct a as [x|], b as [y|]; try discriminate.
  rewrite gt_iff, ge_iff. apply Qlt_le_weak.
Qed.

Lemma ge_NaN_r (a : num) : ge a NaN = false.
Proof. by destruct a. Qed.

Lemma neg_involutive (a : num) : neg (neg a) = a.
Proof.
  destruct a as [[n d]|]; [|done]. simpl. unfold Qopp. simpl.
  by rewrite Z.opp_involutive.
Qed.

Lemma finite_Fin (a : num) : finite a -> exists x, a = Fin x.
Proof. destruct a; [eauto|done]. Qed.

(** [np.argmax] returns an index of a largest entry of a row without NaN. *)
Lemma argmax_from_max (pre : list num) (best : num) (bi : nat) (l : list num) :
  Forall finite (pre ++ l) -> pre !! bi = Some best ->
  (forall x, x ∈ pre -> ge best x = true) ->
  exists y, (pre ++ l) !! argmax_from best bi (length pre) l = Some y /\
    forall x, x ∈ pre ++ l -> ge y x = true.
Proof.
  revert pre best bi. induction l as [|x l IH]; intros pre best bi Hfin Hbi Hmax.
  - simpl. rewrite app_nil_r. eauto.
  - simpl. assert (Hbest : finite best).
    { rewrite Forall_forall in Hfin. apply Hfin, elem_of_app. left.
      by eapply list_elem_of_lookup_2. }
    assert (Hx : finite x).
    { rewrite Forall_forall in Hfin. apply Hfin, elem_of_app. right.
      apply list_elem_of_here. }
    apply finite_Fin in Hbest as [vb ->]. apply finite_Fin in Hx as [vx ->].
    simpl is_nan. cbn [orb].
    replace (pre ++ Fin vx :: l) with ((pre ++ [Fin vx]) ++ l) in *
      by (by rewrite <- app_assoc).
    replace (S (length pre)) with (length (pre ++ [Fin vx]))
      by (rewrite length_app; simpl; lia).
    destruct (gt (Fin vx) (Fin vb)) eqn:Egt.
    + apply IH; [done| |].
      * by rewrite lookup_app_r, Nat.sub_diag by lia.
      * intros z Hz. apply elem_of_app in Hz as [Hz|Hz].
        -- apply ge_trans with (Fin vb); [by apply gt_ge|by apply Hmax].
        -- apply list_elem_of_singleton in Hz as ->. apply ge_refl.
    + apply IH; [done| |].
      * apply lookup_app_l_Some, Hbi.
      * intros z Hz. apply elem_of_app in Hz as [Hz|Hz]; [by apply Hmax|].
        apply list_elem_of_singleton in Hz as ->. by apply gt_false_ge.
Qed.

Lemma np_argmax_max (row : list num) (c : nat) :
  Forall finite row -> np_argmax row = Ok c ->
  exists y, row !! c = Some y /\ forall x, x ∈ row -> ge y x = true.
Proof.
  destruct row as [|x l]; [discriminate|]. intros Hfin [= <-].
  apply (argmax_from_max [x] x 0 l); [done|done|].
  intros z Hz. apply list_elem_of_singleton in Hz as ->.
  inversion Hfin as [|? ? Hx _]; subst. apply finite_Fin in Hx as [v ->].
  apply ge_refl.
Qed.

(** ** Lemmas on the monad and the array primitives *)

Lemma bind_Ok {A B} (m : result A) (k : A -> result B) (b : B) :
  bind m k = Ok b <-> exists a, m = Ok a /\ k a = Ok b.
Proof.
  destruct m as [a|e]; simpl; split.
  - eauto.
  - intros (a' & [= ->] & H). exact H.
  - discriminate.
  - intros (a' & [=] & _).
Qed.

Section Monad.
Context {A B S : Type}.

Lemma index_Ok (l : list A) (i : nat) (a : A) :
  index l i = Ok a <-> l !! i = Some a.
Proof. unfold index. destruct (l !! i); split; congruence. Qed.

Lemma index_Raise (l : list A) (i : nat) (e : exn) :
  index l i = Raise e -> length l <= i /\ e = IndexError.
Proof.
  unfold index. destruct (l !! i) eqn:E; [discriminate|].
  intros [= <-]. split; [by apply lookup_ge_None|done].
Qed.

Lemma mapM_Ok (f : A -> result B) (l : list A) (bs : list B) :
  mapM f l = Ok bs <-> Forall2 (fun a b => f a = Ok b) l bs.
Proof.
  revert bs. induction l as [|a l IH]; intros bs; cbn [mapM].
  - split; [intros [= <-]; constructor|inversion 1; done].
  - rewrite bind_Ok. split.
    + intros (b & Hb & H). apply bind_Ok in H as (bs' & Hbs & [= <-]).
      constructor; [done|by apply IH].
    + inversion 1 as [|? b ? bs' Hb Hbs]; subst. exists b. split; [done|].
      apply IH in Hbs. by rewrite Hbs.
Qed.

Lemma mapM_total (f : A -> result B) (l : list A) :
  Forall (fun a => exists b, f a = Ok b) l -> exists bs, mapM f l = Ok bs.
Proof.
  induction 1 as [|a l [b Hb] _ [bs IH]]; simpl; [eauto|].
  rewrite Hb, IH. simpl. eauto.
Qed.

Lemma mapM_Raise_elem (f : A -> result B) (l : list A) (a : A) (e : exn) :
  a ∈ l -> f a = Raise e -> exists e', mapM f l = Raise e'.
Proof.
  induction 1 as [a l|a a' l _ IH]; intros Ha; simpl.
  - rewrite Ha. simpl. eauto.
  - destruct (f a') as [b|e']; simpl; [|eauto].
    destruct (IH Ha) as [e' ->]. simpl. eauto.
Qed.

Lemma foldM_Raise_elem (f : S -> A -> result S) (l : list A) (a : A) (st : S) :
  a ∈ l -> (forall st', exists e, f st' a = Raise e) ->
  exists e, foldM f st l = Raise e.
Proof.
  intros Hin Ha. revert st.
  induction Hin as [a l|a a' l _ IH]; intros st; simpl.
  - destruct (Ha st) as [e ->]. simpl. eauto.
  - destruct (f st a') as [st'|e]; simpl; [|eauto]. apply IH, Ha.
Qed.
End Monad.

Lemma column_Ok (psx : list (list num)) (k : nat) (c : list num) :
  column psx k = Ok c <-> Forall2 (fun row x => row !! k = Some x) psx c.
Proof.
  unfold column. rewrite mapM_Ok.
  split; intros H; (eapply Forall2_impl; [exact H|]); intros row x; apply index_Ok.
Qed.

Lemma column_total (psx : list (list num)) (k : nat) :
  Forall (fun row => k < length row) psx -> exists c, column psx k = Ok c.
Proof.
  intros H. apply mapM_total. eapply Forall_impl; [exact H|].
  intros row Hk. simpl in Hk. destruct (lookup_lt_is_Some_2 row k Hk) as [x Hx].
  exists x. by apply index_Ok.
Qed.

Lemma column_length (psx : list (list num)) (k : nat) (c : list num) :
  column psx k = Ok c -> length c = length psx.
Proof. rewrite column_Ok. intros H. symmetry. eapply Forall2_length, H. Qed.

Lemma mask_select_Ok {A} (a : list A) (mask : list bool) :
  length a = length mask ->
  mask_select a mask = Ok (map fst (List.filter snd (zip a mask))).
Proof. intros H. unfold mask_select. by rewrite H, Nat.eqb_refl. Qed.

Lemma mask_select_Raise {A} (a : list A) (mask : list bool) :
  length a <> length mask -> mask_select a mask = Raise IndexError.
Proof.
  intros H. unfold mask_select. by destruct (Nat.eqb_spec (length a) (length mask)).
Qed.

Lemma broadcast2_same {A B C} (f : A -> B -> C) (a : list A) (b : list B) :
  length a = length b -> broadcast2 f a b = Ok (zip_with f a b).
Proof. intros H. unfold broadcast2. by rewrite H, Nat.eqb_refl. Qed.

Lemma eq_mask_length (s : list Z) (k : nat) : length (eq_mask s k) = length s.
Proof. unfold eq_mask. by rewrite length_map. Qed.

Lemma enumerate_lookup {A} (l : list A) (i : nat) (j : nat) (a : A) :
  enumerate l !! i = Some (j, a) <-> j = i /\ l !! i = Some a.
Proof.
  unfold enumerate. rewrite lookup_zip_with_Some. split.
  - intros (x & y & [= -> ->] & Hx & Hy). apply lookup_seq in Hx as [-> _]. done.
  - intros [-> Ha]. exists i, a. split; [done|]. split; [|done].
    apply lookup_seq. split; [done|]. by eapply lookup_lt_Some.
Qed.

Lemma enumerate_elem {A} (l : list A) (j : nat) (a : A) :
  (j, a) ∈ enumerate l <-> l !! j = Some a.
Proof.
  rewrite list_elem_of_lookup. split.
  - intros [i Hi]. by apply enumerate_lookup in Hi as [-> Ha].
  - intros Ha. exists j. by apply enumerate_lookup.
Qed.

(** ** STEP 1: the thresholds are computed whenever the shapes agree *)

Lemma threshold_total (s : list Z) (psx : list (list num)) (k : nat) :
  length s = length psx -> Forall (fun row => k < length row) psx ->
  exists c, column psx k = Ok c /\
    threshold s psx k = Ok (np_mean (map fst (List.filter snd (zip c (eq_mask s k))))).
Proof.
  intros Hlen Hrows. destruct (column_total psx k Hrows) as [c Hc].
  exists c. split; [done|]. unfold threshold. rewrite Hc. simpl.
  rewrite mask_select_Ok; [done|].
  rewrite eq_mask_length, Hlen. by eapply column_length.
Qed.

Lemma thresholds_total (K : nat) (s : list Z) (psx : list (list num)) :
  length s = length psx -> Forall (fun row => K <= length row) psx ->
  exists thr, thresholds s psx K = Ok thr /\ length thr = K.
Proof.
  intros Hlen Hrows.
  destruct (mapM_total (threshold s psx) (seq 0 K)) as [thr Hthr].
  - apply Forall_forall. intros k Hk. apply elem_of_seq in Hk.
    destruct (threshold_total s psx k Hlen) as (c & _ & ->); [|eauto].
    eapply Forall_impl; [exact Hrows|]. simpl. lia.
  - exists thr. split; [done|]. apply mapM_Ok, Forall2_length in Hthr.
    by rewrite length_seq in Hthr.
Qed.

(** ** STEP 1: the confident bins are the confident set *)

Lemma confident_bins_Ok (thr row : list num) :
  length row = length thr ->
  confident_bins thr row = Ok (zip_with ge row (map (fun t => sub t eps) thr)).
Proof.
  intros H. unfold confident_bins. apply broadcast2_same. by rewrite length_map.
Qed.

Lemma confident_lookup (thr row : list num) (k : nat) :
  confident thr row k
  = default false (zip_with ge row (map (fun t => sub t eps) thr) !! k).
Proof.
  unfold confident. rewrite lookup_zip_with, list_lookup_fmap.
  destruct (row !! k), (thr !! k); done.
Qed.


Lemma true_indices_cons (i : nat) (b : bool) (bins : list bool) :
  true_indices i (b :: bins)
  = if b then i :: true_indices (S i) bins else true_indices (S i) bins.
Proof.
  unfold true_indices. simpl. rewrite Nat.sub_diag. simpl.
  assert (List.filter (fun k => default false ((b :: bins) !! (k - i)))
            (seq (S i) (length bins))
          = List.filter (fun k => default false (bins !! (k - S i)))
              (seq (S i) (length bins))) as ->; [|done].
  apply List.filter_ext_in. intros k Hk. apply in_seq in Hk.
  replace (k - i) with (S (k - S i)) by lia. done.
Qed.

Lemma true_indices_length (i : nat) (bins : list bool) :
  length (true_indices i bins) = count_true bins.
Proof.
  revert i. induction bins as [|b bins IH]; intros i; [done|].
  rewrite true_indices_cons. unfold count_true in *.
  destruct b; simpl; by rewrite IH.
Qed.

Lemma true_indices_head (i : nat) (bins : list bool) :
  head (true_indices i bins) = first_true i bins.
Proof.
  revert i. induction bins as [|b bins IH]; intros i; [done|].
  rewrite true_indices_cons. destruct b; simpl; [done|apply IH].
Qed.

Lemma confident_set_true_indices (thr row : list num) :
  length row = length thr ->
  confident_set thr row
  = true_indices 0 (zip_with ge row (map (fun t => sub t eps) thr)).
Proof.
  intros H. unfold confident_set, true_indices.
  rewrite length_zip_with, length_map, H, Nat.min_id.
  apply List.filter_ext. intros k. rewrite Nat.sub_0_r. apply confident_lookup.
Qed.

Lemma confident_set_bound (thr row : list num) (k : nat) :
  k ∈ confident_set thr row -> k < length thr.
Proof.
  unfold confident_set. rewrite list_elem_of_In, List.filter_In, in_seq. lia.
Qed.

(** ** STEP 1: arg-max *)

Lemma argmax_from_bound (best : num) (bi i : nat) (l : list num) :
  bi < i -> argmax_from best bi i l < i + length l.
Proof.
  revert best bi i. induction l as [|x l IH]; intros best bi i Hbi; simpl; [lia|].
  destruct (is_nan best); [lia|].
  destruct (is_nan x || gt x best).
  - specialize (IH x i (S i)). lia.
  - specialize (IH best bi (S i)). lia.
Qed.

Lemma np_argmax_total (row : list num) :
  0 < length row -> exists c, np_argmax row = Ok c /\ c < length row.
Proof.
  destruct row as [|x l]; simpl; [lia|]. intros _. eexists. split; [done|].
  pose proof (argmax_from_bound x 0 1 l). lia.
Qed.

(** ** STEP 1: one increment *)


Lemma square_cell (K : nat) (J : matrix) (a b : nat) :
  square K J -> a < K -> b < K -> cell J a b = Some (cellZ J a b).
Proof.
  intros [HJ Hrows] Ha Hb. unfold cellZ, cell.
  destruct (lookup_lt_is_Some_2 J a) as [r Hr]; [lia|]. rewrite Hr.
  rewrite Forall_lookup in Hrows. specialize (Hrows a r Hr). simpl in Hrows.
  destruct (lookup_lt_is_Some_2 r b) as [v Hv]; [lia|]. by rewrite Hv.
Qed.

Lemma incr_spec (K : nat) (J : matrix) (a b : nat) :
  square K J -> a < K -> b < K ->
  exists J', incr J a b = Ok J' /\ square K J' /\
    forall a' b', cellZ J' a' b'
      = (cellZ J a' b' + if bool_decide (a' = a /\ b' = b) then 1 else 0)%Z.
Proof.
  intros [HJ Hrows] Ha Hb. unfold incr, index.
  destruct (lookup_lt_is_Some_2 J a) as [r Hr]; [lia|]. rewrite Hr. simpl.
  pose proof Hrows as Hrows'.
  rewrite Forall_lookup in Hrows'. specialize (Hrows' a r Hr). simpl in Hrows'.
  destruct (lookup_lt_is_Some_2 r b) as [v Hv]; [lia|]. rewrite Hv. simpl.
  eexists. split; [done|]. split.
  - split; [by rewrite length_insert|].
    apply Forall_insert; [done|]. by rewrite length_insert.
  - intros a' b'. unfold cellZ, cell.
    destruct (decide (a' = a)) as [->|Hne].
    + rewrite list_lookup_insert_eq by lia. rewrite Hr.
      destruct (decide (b' = b)) as [->|Hneb].
      * rewrite list_lookup_insert_eq by lia. rewrite Hv.
        rewrite bool_decide_eq_true_2 by done. done.
      * rewrite list_lookup_insert_ne by done.
        rewrite bool_decide_eq_false_2 by tauto.
        destruct (r !! b'); simpl; lia.
    + rewrite list_lookup_insert_ne by done.
      rewrite bool_decide_eq_false_2 by tauto.
      destruct (J !! a') as [r'|]; simpl; [|done].
      destruct (r' !! b'); simpl; lia.
Qed.

(** ** Integer indices *)

Lemma wrap_nonneg (n a : nat) : a < n -> wrap n (Z.of_nat a) = Ok a.
Proof.
  intros Ha. unfold wrap.
  destruct (Z.leb_spec 0 (Z.of_nat a)); [|lia].
  destruct (Z.ltb_spec (Z.of_nat a) (Z.of_nat n)); [|lia].
  simpl. by rewrite Nat2Z.id.
Qed.

Lemma wrap_neg (n : nat) (l : Z) :
  (- Z.of_nat n <= l < 0)%Z -> wrap n l = Ok (Z.to_nat (Z.of_nat n + l)).
Proof.
  intros Hl. unfold wrap.
  destruct (Z.leb_spec 0 l); [lia|]. simpl.
  destruct (Z.leb_spec (- Z.of_nat n) l); [|lia].
  destruct (Z.ltb_spec l 0); [done|lia].
Qed.

Lemma wrap_Ok (n : nat) (l : Z) (p : nat) :
  wrap n l = Ok p ->
  p < n /\ (l = Z.of_nat p \/ l = (Z.of_nat p - Z.of_nat n)%Z).
Proof.
  unfold wrap.
  destruct (Z.leb_spec 0 l), (Z.ltb_spec l (Z.of_nat n)); simpl;
    try (intros [= <-]; lia);
    destruct (Z.leb_spec (- Z.of_nat n) l), (Z.ltb_spec l 0); simpl;
    try discriminate; intros [= <-]; lia.
Qed.

Lemma wrap_Raise (n : nat) (l : Z) (e : exn) :
  wrap n l = Raise e <->
  e = IndexError /\ (l < - Z.of_nat n \/ Z.of_nat n <= l)%Z.
Proof.
  unfold wrap.
  destruct (Z.leb_spec 0 l), (Z.ltb_spec l (Z.of_nat n)); simpl;
    try (split; [discriminate|lia]);
    destruct (Z.leb_spec (- Z.of_nat n) l), (Z.ltb_spec l 0); simpl;
    try (split; [discriminate|lia]);
    (split; [intros [= <-]; split; [done|lia]|by intros [-> _]]).
Qed.

Lemma py_index_nonneg {X} (l : list X) (a : nat) :
  py_index l (Z.of_nat a) = index l a.
Proof.
  unfold py_index. destruct (decide (a < length l)) as [Ha|Ha].
  - by rewrite wrap_nonneg.
  - destruct (wrap (length l) (Z.of_nat a)) as [p|e] eqn:E.
    + apply wrap_Ok in E. lia.
    + apply wrap_Raise in E as [-> _]. simpl. unfold index.
      by rewrite lookup_ge_None_2 by lia.
Qed.

(** ** STEP 1: one example, then all of them *)

(** An example whose label reads row [a] of the joint. *)
Lemma joint_step_row (K : nat) (s : list Z) (thr : list num) (J : matrix)
  (i : nat) (row : list num) (l : Z) (a : nat) :
  square K J -> length thr = K -> length row = K ->
  s !! i = Some l -> wrap K l = Ok a ->
  exists J', joint_step s thr J (i, row) = Ok J' /\ square K J' /\
    forall a' b', cellZ J' a' b'
      = (cellZ J a' b'
         + if bool_decide (a' = a /\ confident_target thr row = Some b')
           then 1 else 0)%Z.
Proof.
  intros HJ Hthr Hrow Hs Hw. unfold joint_step.
  apply index_Ok in Hs as Hs'. rewrite Hs'. cbn [bind].
  rewrite confident_bins_Ok by lia. cbn [bind].
  set (bins := zip_with ge row (map (fun t => sub t eps) thr)).
  assert (Hset : confident_set thr row = true_indices 0 bins)
    by (apply confident_set_true_indices; lia).
  pose proof (true_indices_length 0 bins) as Hcount.
  pose proof (true_indices_head 0 bins) as Hhead.
  assert (Ha : a < K) by (apply wrap_Ok in Hw; lia).
  destruct HJ as [HJlen HJrows]. rewrite HJlen, Hw.
  assert (HJ : square K J) by done.
  unfold confident_target. rewrite Hset.
  destruct (true_indices 0 bins) as [|k [|k' ks]] eqn:Eti; simpl in Hcount;
    rewrite <- Hcount; simpl.
  - exists J. split; [done|]. split; [done|]. intros a' b'.
    rewrite bool_decide_eq_false_2 by (intros [_ [=]]). lia.
  - simpl in Hhead.
    assert (Hk : k < K).
    { rewrite <- Hthr. apply confident_set_bound with (row := row).
      rewrite Hset. apply list_elem_of_here. }
    assert (Hb : np_argmax_bool bins = Ok k).
    { unfold np_argmax_bool. destruct bins; [discriminate|]. by rewrite <- Hhead. }
    rewrite Hb. simpl.
    destruct (incr_spec K J a k HJ Ha Hk) as (J' & -> & HJ' & Hcell).
    exists J'. split; [done|]. split; [done|]. intros a' b'. rewrite Hcell.
    f_equal.
    destruct (decide (a' = a /\ b' = k)) as [[-> ->]|Hn].
    + by rewrite !bool_decide_eq_true_2.
    + rewrite !bool_decide_eq_false_2; [done| |done].
      intros [-> [= ->]]. by apply Hn.
  - destruct (np_argmax_total row) as (c & Hc & Hcb).
    { destruct row; [|simpl; lia]. subst bins. discriminate. }
    rewrite Hc. simpl.
    destruct (incr_spec K J a c HJ Ha) as (J' & -> & HJ' & Hcell); [lia|].
    exists J'. split; [done|]. split; [done|]. intros a' b'. rewrite Hcell.
    f_equal.
    destruct (decide (a' = a /\ b' = c)) as [[-> ->]|Hn].
    + by rewrite !bool_decide_eq_true_2.
    + rewrite !bool_decide_eq_false_2; [done| |done].
      intros [-> [= ->]]. by apply Hn.
Qed.

Lemma joint_step_spec (K : nat) (s : list Z) (thr : list num) (J : matrix)
  (i : nat) (row : list num) (a : nat) :
  square K J -> length thr = K -> length row = K ->
  s !! i = Some (Z.of_nat a) -> a < K ->
  exists J', joint_step s thr J (i, row) = Ok J' /\ square K J' /\
    forall a' b', cellZ J' a' b'
      = (cellZ J a' b' + if counts_for s thr a' b' (i, row) then 1 else 0)%Z.
Proof.
  intros HJ Hthr Hrow Hs Ha.
  destruct (joint_step_row K s thr J i row _ a HJ Hthr Hrow Hs (wrap_nonneg K a Ha))
    as (J' & HJ' & Hsq & Hcell).
  exists J'. split; [done|]. split; [done|]. intros a' b'. rewrite Hcell.
  f_equal. unfold counts_for. simpl. rewrite Hs.
  destruct (decide (a' = a /\ confident_target thr row = Some b')) as [[-> Hc]|Hn].
  - by rewrite !bool_decide_eq_true_2.
  - rewrite !bool_decide_eq_false_2; [done| |done].
    intros [[= E] Hc]. apply Nat2Z.inj in E. by apply Hn.
Qed.

Lemma joint_loop_spec (K : nat) (s : list Z) (thr : list num)
  (l : list (nat * list num)) (J : matrix) :
  square K J -> length thr = K ->
  Forall (fun ir => length ir.2 = K /\
     exists a, s !! ir.1 = Some (Z.of_nat a) /\ a < K) l ->
  exists J', foldM (joint_step s thr) J l = Ok J' /\ square K J' /\
    forall a b, cellZ J' a b
      = (cellZ J a b + Z.of_nat (count_if (counts_for s thr a b) l))%Z.
Proof.
  intros HJ Hthr Hl. revert J HJ.
  induction Hl as [|[i row] l (Hrow & a & Hs & Ha) _ IH]; intros J HJ.
  - exists J. split; [done|]. split; [done|]. intros a b. unfold count_if. simpl. lia.
  - simpl in Hrow, Hs.
    destruct (joint_step_spec K s thr J i row a HJ Hthr Hrow Hs Ha)
      as (J1 & HJ1 & Hsq1 & Hcell1).
    destruct (IH J1 Hsq1) as (J' & HJ' & Hsq' & Hcell').
    exists J'. cbn [foldM]. rewrite HJ1. split; [exact HJ'|]. split; [done|].
    intros a' b'. rewrite Hcell', Hcell1. unfold count_if. cbn [List.filter].
    destruct (counts_for s thr a' b' (i, row)); cbn [length]; lia.
Qed.

Lemma zeros_square (K : nat) : square K (zeros K).
Proof.
  split; [apply length_replicate|].
  apply Forall_replicate, length_replicate.
Qed.

Lemma zeros_cellZ (K a b : nat) : cellZ (zeros K) a b = 0%Z.
Proof.
  unfold cellZ, cell, zeros.
  destruct (replicate K (replicate K 0%Z) !! a) as [r|] eqn:Er; [|done].
  apply lookup_replicate in Er as [-> _].
  destruct (replicate K 0%Z !! b) as [v|] eqn:Ev; [|done].
  by apply lookup_replicate in Ev as [-> _].
Qed.


Lemma label_in_range (K : nat) (s : list Z) (i a : nat) :
  Forall (fun l => (0 <= l < Z.of_nat K)%Z) s -> s !! i = Some (Z.of_nat a) ->
  a < K.
Proof.
  intros Hs Hi. rewrite Forall_lookup in Hs. specialize (Hs i _ Hi).
  simpl in Hs. lia.
Qed.

Lemma valid_enumerate (K : nat) (s : list Z) (psx : list (list num)) :
  valid_input K s psx ->
  Forall (fun ir : nat * list num =>
            length ir.2 = K /\ exists a, s !! ir.1 = Some (Z.of_nat a) /\ a < K)
    (enumerate psx).
Proof.
  intros (Hlen & Hs & Hrows). apply Forall_forall. intros [i row] Hin.
  apply enumerate_elem in Hin. simpl. split.
  - rewrite Forall_lookup in Hrows. by apply (Hrows i).
  - destruct (lookup_lt_is_Some_2 s i) as [l Hl].
    { rewrite Hlen. by eapply lookup_lt_Some. }
    rewrite Forall_lookup in Hs. specialize (Hs i l Hl). simpl in Hs.
    exists (Z.to_nat l). rewrite Z2Nat.id by lia. split; [done|lia].
Qed.

Lemma thresholds_lookup (K : nat) (s : list Z) (psx : list (list num))
  (thr : list num) (k : nat) :
  thresholds s psx K = Ok thr -> k < K ->
  exists t, thr !! k = Some t /\ threshold s psx k = Ok t.
Proof.
  intros Hthr Hk. apply mapM_Ok in Hthr.
  destruct (Forall2_lookup_l _ _ _ k k Hthr) as (t & Ht & Hk').
  - apply lookup_seq. lia.
  - eauto.
Qed.

Lemma filter_eq_mask_absent {A} (c : list A) (s : list Z) (k : nat) :
  Z.of_nat k ∉ s -> List.filter snd (zip c (eq_mask s k)) = [].
Proof.
  revert c. induction s as [|l s IH]; intros c Hk; destruct c as [|x c]; try done.
  simpl. apply not_elem_of_cons in Hk as [Hne Hk].
  destruct (Z.eqb_spec l (Z.of_nat k)) as [->|_]; [done|]. by apply IH.
Qed.

Lemma column_Raise (psx : list (list num)) (k : nat) (e : exn) :
  column psx k = Raise e -> e = IndexError.
Proof.
  unfold column. induction psx as [|row psx IH]; [discriminate|]. cbn [mapM].
  destruct (index row k) as [x|e'] eqn:Ex; simpl.
  - destruct (mapM (fun row => index row k) psx); simpl; [discriminate|].
    intros [= <-]. by apply IH.
  - intros [= <-]. by apply index_Raise in Ex as [_ ->].
Qed.

Lemma threshold_mismatch (s : list Z) (psx : list (list num)) (k : nat) :
  length s <> length psx -> threshold s psx k = Raise IndexError.
Proof.
  intros Hlen. unfold threshold. destruct (column psx k) as [c|e] eqn:Ec; simpl.
  - rewrite mask_select_Raise; [done|].
    apply column_length in Ec. rewrite eq_mask_length. lia.
  - by apply column_Raise in Ec as ->.
Qed.

Lemma np_unique_length_pos (s : list Z) :
  s <> [] -> 0 < length (np_unique s).
Proof.
  intros Hs. unfold np_unique.
  rewrite (Permutation_length (merge_sort_Permutation Z.le (remove_dups s))).
  destruct s as [|x s]; [done|].
  assert (Hx : x ∈ remove_dups (x :: s)) by (apply elem_of_remove_dups; left).
  destruct (remove_dups (x :: s)); [by apply elem_of_nil in Hx|simpl; lia].
Qed.

(** An example whose label is not a row of the joint. *)
Lemma joint_step_out_of_range (K : nat) (s : list Z) (thr : list num)
  (J : matrix) (i : nat) (row : list num) (l : Z) :
  square K J -> length thr = K -> length row = K ->
  s !! i = Some l -> (l < - Z.of_nat K \/ Z.of_nat K <= l)%Z ->
  joint_step s thr J (i, row)
  = if decide (confident_set thr row = []) then Ok J else Raise IndexError.
Proof.
  intros [HJ _] Hthr Hrow Hs Hl. unfold joint_step.
  apply index_Ok in Hs as Hs'. rewrite Hs'. simpl.
  rewrite confident_bins_Ok by lia. simpl.
  set (bins := zip_with ge row (map (fun t => sub t eps) thr)).
  rewrite (confident_set_true_indices thr row) by lia. fold bins.
  pose proof (true_indices_length 0 bins) as Hcount.
  assert (Hidx : wrap (length J) l = Raise IndexError).
  { apply wrap_Raise. split; [done|lia]. }
  destruct (true_indices 0 bins) as [|k [|k' ks]]; simpl in Hcount;
    rewrite <- Hcount; simpl; [done| |]; by rewrite Hidx.
Qed.
(** ** numpy's sort order is a total preorder *)

Lemma np_le_Fin (x y : Q) : np_le (Fin x) (Fin y) <-> (x <= y)%Q.
Proof. unfold np_le. simpl. apply Qle_bool_iff. Qed.

Lemma np_le_refl : Reflexive np_le.
Proof. intros [x|]; [apply np_le_Fin, Qle_refl|done]. Qed.
#[global] Existing Instance np_le_refl.

Lemma np_le_trans : Transitive np_le.
Proof.
  intros [x|] [y|] [z|]; try done.
  rewrite !np_le_Fin. apply Qle_trans.
Qed.
#[global] Existing Instance np_le_trans.

Lemma np_le_total : Total np_le.
Proof.
  intros [x|] [y|]; try (by left); try (by right).
  rewrite !np_le_Fin. destruct (Qlt_le_dec x y) as [H|H].
  - left. by apply Qlt_le_weak.
  - by right.
Qed.
#[global] Existing Instance np_le_total.

Lemma key_le_trans : Transitive key_le.
Proof. intros p r t. unfold key_le. apply np_le_trans. Qed.
#[global] Existing Instance key_le_trans.

Lemma key_le_total : Total key_le.
Proof. intros p r. unfold key_le. apply np_le_total. Qed.
#[global] Existing Instance key_le_total.

Lemma np_leb_neg (x y : Q) : np_leb (neg (Fin x)) (neg (Fin y)) = ge (Fin x) (Fin y).
Proof.
  simpl. apply eq_true_iff_eq. rewrite !Qle_bool_iff. split; intros H.
  - apply Qopp_le_compat in H. by rewrite !Qopp_involutive in H.
  - by apply Qopp_le_compat.
Qed.

(** ** Boolean masks *)

Lemma count_true_app (l1 l2 : list bool) :
  count_true (l1 ++ l2) = count_true l1 + count_true l2.
Proof. unfold count_true. by rewrite List.filter_app, length_app. Qed.

Lemma mask_select_count {A} (a : list A) (mask : list bool) (sel : list A) :
  mask_select a mask = Ok sel -> length sel = count_true mask.
Proof.
  unfold mask_select. destruct (Nat.eqb_spec (length a) (length mask)) as [H|]; [|done].
  intros [= <-]. rewrite length_map. unfold count_true.
  revert mask H. induction a as [|x a IH]; intros [|b mask] H; try done.
  simpl in *. destruct b; simpl; rewrite IH; lia.
Qed.

Lemma mask_select_length {A} (a : list A) (mask : list bool) (sel : list A) :
  mask_select a mask = Ok sel -> length a = length mask.
Proof.
  unfold mask_select. by destruct (Nat.eqb_spec (length a) (length mask)).
Qed.

Lemma selected_positions (mask : list bool) (o i : nat) :
  i ∈ map fst (List.filter snd (zip (seq o (length mask)) mask)) <->
  o <= i /\ mask !! (i - o) = Some true.
Proof.
  revert o. induction mask as [|b mask IH]; intros o.
  - simpl. split; [by intros ?%elem_of_nil|by intros [_ ?]].
  - cbn [length seq zip_with List.filter snd].
    assert (Hshift : forall x, S o <= i ->
              (b :: mask) !! (i - o) = Some x <-> mask !! (i - S o) = Some x).
    { intros x Hle. by replace (i - o) with (S (i - S o)) by lia. }
    destruct b; cbn [map fst]; [rewrite elem_of_cons|]; rewrite IH.
    + split.
      * intros [->|[Hle Hm]]; [by rewrite Nat.sub_diag|].
        split; [lia|]. by apply Hshift.
      * intros [Hle Hm]. destruct (decide (i = o)) as [|Hne]; [by left|].
        right. split; [lia|]. apply Hshift; [lia|done].
    + split.
      * intros [Hle Hm]. split; [lia|]. by apply Hshift.
      * intros [Hle Hm]. destruct (decide (i = o)) as [->|Hne].
        { by rewrite Nat.sub_diag in Hm. }
        split; [lia|]. apply Hshift; [lia|done].
Qed.

Lemma mask_select_seq (n : nat) (mask : list bool) (idx : list nat) (i : nat) :
  mask_select (seq 0 n) mask = Ok idx ->
  i ∈ idx <-> mask !! i = Some true.
Proof.
  intros H. pose proof (mask_select_length _ _ _ H) as Hlen.
  rewrite length_seq in Hlen. subst n.
  rewrite mask_select_Ok in H by (by rewrite length_seq). injection H as <-.
  rewrite selected_positions, Nat.sub_0_r. split; [by intros [_ ?]|].
  intros ?. split; [lia|done].
Qed.

Lemma selected_rows {A} (a : list A) (mask : list bool) (o : nat) :
  length a = length mask ->
  Forall2 (fun i x => o <= i /\ a !! (i - o) = Some x)
    (map fst (List.filter snd (zip (seq o (length mask)) mask)))
    (map fst (List.filter snd (zip a mask))).
Proof.
  revert a o. induction mask as [|b mask IH]; intros [|x a] o Hlen; try done.
  cbn [length seq zip_with List.filter snd].
  assert (Htail : Forall2 (fun i y => o <= i /\ (x :: a) !! (i - o) = Some y)
            (map fst (List.filter snd (zip (seq (S o) (length mask)) mask)))
            (map fst (List.filter snd (zip a mask)))).
  { eapply Forall2_impl; [apply (IH a (S o)); simpl in Hlen; lia|].
    intros i y [Hle Hy]. split; [lia|].
    by replace (i - o) with (S (i - S o)) by lia. }
  destruct b; cbn [map fst]; [|done].
  constructor; [|done]. split; [lia|]. by rewrite Nat.sub_diag.
Qed.

(** ** STEP 2: the label counts *)

Lemma foldr_max_le (s : list Z) (x : Z) : x ∈ s -> (x <= foldr Z.max 0 s)%Z.
Proof.
  induction 1 as [x s|x y s _ IH]; simpl; lia.
Qed.

Lemma np_bincount_Ok (s : list Z) (s_counts : list Z) :
  np_bincount s = Ok s_counts <->
  Forall (fun l => (0 <= l)%Z) s /\
  s_counts = match s with
             | [] => []
             | _ => map (label_count s) (seq 0 (S (Z.to_nat (foldr Z.max 0%Z s))))
             end.
Proof.
  unfold np_bincount.
  destruct (forallb (fun l => (0 <=? l)%Z) s) eqn:E.
  - assert (Hall : Forall (fun l => (0 <= l)%Z) s).
    { apply Forall_forall. intros l Hl. apply list_elem_of_In in Hl.
      rewrite forallb_forall in E. specialize (E l Hl). lia. }
    destruct s; (split; [intros [= <-]; by split|by intros [_ ->]]).
  - split; [discriminate|]. intros [Hall _]. exfalso.
    assert (E' : forallb (fun l => (0 <=? l)%Z) s = true); [|congruence].
    apply forallb_forall. intros l Hl. apply list_elem_of_In in Hl.
    rewrite Forall_forall in Hall. specialize (Hall l Hl). lia.
Qed.

Lemma np_bincount_total (s : list Z) :
  Forall (fun l => (0 <= l)%Z) s -> exists s_counts, np_bincount s = Ok s_counts.
Proof. intros H. eexists. by apply np_bincount_Ok. Qed.

Lemma np_bincount_Raise (s : list Z) (e : exn) :
  np_bincount s = Raise e <-> e = ValueError /\ exists l, l ∈ s /\ (l < 0)%Z.
Proof.
  unfold np_bincount.
  destruct (forallb (fun l => (0 <=? l)%Z) s) eqn:E.
  - split; [by destruct s|]. intros (_ & l & Hl & Hneg). exfalso.
    rewrite forallb_forall in E. apply list_elem_of_In in Hl.
    specialize (E l Hl). lia.
  - split; [|by intros [-> _]]. intros [= <-]. split; [done|].
    induction s as [|l s IH]; [done|]. simpl in E.
    destruct (Z.leb_spec 0 l); simpl in E.
    + destruct (IH E) as (l' & Hl' & Hneg). exists l'. split; [by right|done].
    + exists l. split; [by left|done].
Qed.

Lemma np_bincount_lookup (s : list Z) (s_counts : list Z) (k : nat) (c : Z) :
  np_bincount s = Ok s_counts -> s_counts !! k = Some c -> c = label_count s k.
Proof.
  intros H. apply np_bincount_Ok in H as [_ ->]. destruct s as [|l s]; [done|].
  rewrite list_lookup_fmap. intros H.
  destruct (seq 0 (S (Z.to_nat (foldr Z.max 0%Z (l :: s)))) !! k) as [k'|] eqn:Ek;
    [|done].
  apply lookup_seq in Ek as [-> _]. by injection H as <-.
Qed.

Lemma np_bincount_length (s : list Z) (s_counts : list Z) :
  np_bincount s = Ok s_counts -> s <> [] ->
  length s_counts = S (Z.to_nat (foldr Z.max 0%Z s)).
Proof.
  intros H Hs. apply np_bincount_Ok in H as [_ ->].
  destruct s as [|l s]; [done|]. by rewrite length_map, length_seq.
Qed.

Lemma np_unique_le_bincount (s : list Z) (s_counts : list Z) :
  np_bincount s = Ok s_counts -> length (np_unique s) <= length s_counts.
Proof.
  intros H. unfold np_unique.
  rewrite (Permutation_length (merge_sort_Permutation Z.le (remove_dups s))).
  destruct (decide (s = [])) as [->|Hs]; [simpl; lia|].
  rewrite (np_bincount_length s s_counts H Hs).
  apply np_bincount_Ok in H as [Hall _].
  set (m := Z.to_nat (foldr Z.max 0%Z s)).
  rewrite <- (length_seq (S m) 0), <- (length_map Z.of_nat).
  apply submseteq_length, NoDup_submseteq; [apply NoDup_remove_dups|].
  intros x Hx. rewrite elem_of_remove_dups in Hx.
  rewrite Forall_forall in Hall. specialize (Hall x Hx).
  apply foldr_max_le in Hx.
  apply list_elem_of_fmap. exists (Z.to_nat x). split; [lia|].
  apply elem_of_seq. lia.
Qed.

Lemma np_bincount_class (s : list Z) (s_counts : list Z) (k : nat) :
  np_bincount s = Ok s_counts -> k < length (np_unique s) ->
  s_counts !! k = Some (label_count s k).
Proof.
  intros H Hk. pose proof (np_unique_le_bincount s s_counts H) as Hle.
  destruct (lookup_lt_is_Some_2 s_counts k) as [c Hc]; [lia|].
  by rewrite Hc, (np_bincount_lookup s s_counts k c H Hc).
Qed.

(** ** STEP 2: a prune count beyond the label count *)

Lemma np_partition_in_bounds (a : list num) (kth : Z) :
  (0 <= kth < Z.of_nat (length a))%Z -> np_partition a kth = Ok (np_sort a).
Proof.
  intros H. unfold np_partition. destruct a as [|x a]; [simpl in H; lia|].
  destruct (Z.ltb_spec kth 0); [lia|].
  destruct (Z.leb_spec 0 kth); [|lia].
  by destruct (Z.ltb_spec kth (Z.of_nat (length (x :: a)))); [|lia].
Qed.

Lemma np_partition_out_of_bounds (a : list num) (kth : Z) :
  a <> [] -> (Z.of_nat (length a) <= kth)%Z -> np_partition a kth = Raise ValueError.
Proof.
  intros Ha H. unfold np_partition. destruct a as [|x a]; [done|].
  destruct (Z.ltb_spec kth 0); [lia|].
  destruct (Z.leb_spec 0 kth); [|lia].
  by destruct (Z.ltb_spec kth (Z.of_nat (length (x :: a)))); [lia|].
Qed.

Lemma np_partition_Ok (a : list num) (kth : Z) (part : list num) :
  np_partition a kth = Ok part -> part = np_sort a.
Proof.
  unfold np_partition. destruct a as [|x a]; [by intros [= <-]|].
  destruct (_ && _); [by intros [= <-]|done].
Qed.

Lemma py_index_Ok {X} (l : list X) (i : Z) (x : X) :
  py_index l i = Ok x <-> exists p, wrap (length l) i = Ok p /\ l !! p = Some x.
Proof.
  unfold py_index. rewrite bind_Ok. by setoid_rewrite index_Ok.
Qed.

Lemma py_index_nil {X} (i : Z) : py_index (@nil X) i = Raise IndexError.
Proof.
  unfold py_index. change (length (@nil X)) with 0.
  destruct (wrap 0 i) as [p|e] eqn:E; cbn [bind].
  - apply wrap_Ok in E. lia.
  - by apply wrap_Raise in E as [-> _].
Qed.

(** Beyond the label count the selection raises: the ValueError of
    [np.partition] when some example has label [j], and the IndexError of
    the index into the empty array it returns when none has. *)
Lemma partition_beyond (sel : list num) (num2prune : Z) :
  (0 < num2prune)%Z -> (Z.of_nat (length sel) < num2prune)%Z ->
  (do part <- np_partition sel (num2prune - 1) ;
   py_index part (num2prune - 1))
  = Raise (if decide (length sel = 0) then IndexError else ValueError).
Proof.
  intros Hpos Hcount. destruct sel as [|x sel].
  - simpl. apply py_index_nil.
  - rewrite np_partition_out_of_bounds; [done|done|lia].
Qed.

Lemma prune_pair_Raise (s : list Z) (psx : list (list num)) (psx_k : list num)
  (j : nat) (num2prune : Z) :
  (0 < num2prune)%Z -> (label_count s j < num2prune)%Z ->
  exists e, prune_pair s psx psx_k j num2prune = Raise e.
Proof.
  intros Hpos Hcount. unfold label_count in Hcount. unfold prune_pair.
  destruct (column psx j) as [psx_j|e]; simpl; [|eauto].
  destruct (broadcast2 sub psx_k psx_j) as [margin|e]; simpl; [|eauto].
  destruct (mask_select margin (eq_mask s j)) as [sel|e] eqn:Esel; simpl; [|eauto].
  apply mask_select_count in Esel.
  pose proof (partition_beyond (map neg sel) num2prune Hpos) as Hp.
  rewrite length_map in Hp. specialize (Hp ltac:(lia)).
  destruct (np_partition (map neg sel) (num2prune - 1)) as [part|e]; simpl in *;
    [|eauto].
  rewrite Hp. simpl. eauto.
Qed.

Lemma prune_pair_beyond (s : list Z) (psx : list (list num))
  (psx_k : list num) (k j : nat) (num2prune : Z) :
  length s = length psx ->
  Forall (fun row => j < length row) psx ->
  column psx k = Ok psx_k ->
  (0 < num2prune)%Z -> (label_count s j < num2prune)%Z ->
  prune_pair s psx psx_k j num2prune
  = Raise (if decide (label_count s j = 0%Z) then IndexError else ValueError).
Proof.
  intros Hlen Hj Hk Hpos Hcount. unfold label_count in *. unfold prune_pair.
  destruct (column_total psx j Hj) as [psx_j Hpj]. rewrite Hpj. simpl.
  apply column_length in Hk. apply column_length in Hpj.
  rewrite broadcast2_same by lia. simpl.
  rewrite mask_select_Ok by (rewrite length_zip_with, eq_mask_length; lia). simpl.
  pose proof (mask_select_count (zip_with sub psx_k psx_j) (eq_mask s j)) as Hc.
  rewrite mask_select_Ok in Hc by (rewrite length_zip_with, eq_mask_length; lia).
  specialize (Hc _ eq_refl).
  set (sel := map fst (List.filter snd (zip (zip_with sub psx_k psx_j) (eq_mask s j))))
    in *.
  pose proof (partition_beyond (map neg sel) num2prune Hpos) as Hp.
  rewrite length_map in Hp. specialize (Hp ltac:(lia)).
  destruct (np_partition (map neg sel) (num2prune - 1)) as [part|e]; simpl in *.
  - rewrite Hp. rewrite Hc.
    destruct (decide (count_true (eq_mask s j) = 0)),
      (decide (Z.of_nat (count_true (eq_mask s j)) = 0%Z)); try done; lia.
  - injection Hp as ->. rewrite Hc.
    destruct (decide (count_true (eq_mask s j) = 0)),
      (decide (Z.of_nat (count_true (eq_mask s j)) = 0%Z)); try done; lia.
Qed.

Lemma cell_Some (J : matrix) (a b : nat) (v : Z) :
  cell J a b = Some v <-> exists r, J !! a = Some r /\ r !! b = Some v.
Proof.
  unfold cell. destruct (J !! a) as [r|]; split.
  - eauto.
  - by intros (r' & [= <-] & H).
  - done.
  - by intros (r' & [=] & _).
Qed.

Lemma noise_step_Raise (s : list Z) (psx : list (list num)) (pcm : matrix)
  (k j : nat) (psx_k : list num) (num2prune : Z) (noise_mask : list bool) :
  k <> j -> cell pcm k j = Some num2prune ->
  (0 < num2prune)%Z -> (label_count s j < num2prune)%Z ->
  exists e, noise_step s psx pcm k psx_k noise_mask j = Raise e.
Proof.
  intros Hkj Hcell Hpos Hcount. unfold noise_step.
  destruct (Nat.eqb_spec k j) as [|_]; [done|].
  apply cell_Some in Hcell as (r & Hr & Hv).
  apply index_Ok in Hr, Hv. rewrite Hr. simpl. rewrite Hv. simpl.
  destruct (Z.ltb_spec 0 num2prune); [|lia].
  destruct (prune_pair_Raise s psx psx_k j num2prune Hpos Hcount) as [e ->].
  simpl. eauto.
Qed.

Lemma label_errors_idx_Raise (MIN : Z) (K : nat) (s : list Z)
  (psx : list (list num)) (pcm : matrix) (k j : nat) (num2prune : Z) :
  k < K -> j < K -> k <> j ->
  (MIN < label_count s k)%Z ->
  cell pcm k j = Some num2prune -> (0 < num2prune)%Z ->
  (label_count s j < num2prune)%Z ->
  exists e, label_errors_idx MIN K s psx pcm = Raise e.
Proof.
  intros Hk Hj Hkj HMIN Hcell Hpos Hcount.
  unfold label_errors_idx, label_errors_mask, noise_masks_per_class.
  destruct (np_bincount s) as [s_counts|e0] eqn:Es; simpl; [|eauto].
  assert (Hmask : exists e, noise_mask_of MIN K s psx pcm s_counts k = Raise e).
  { unfold noise_mask_of. destruct (column psx k) as [psx_k|e]; simpl; [|eauto].
    destruct (index s_counts k) as [c|e] eqn:Ec; simpl; [|eauto].
    apply index_Ok in Ec. apply (np_bincount_lookup s s_counts k c Es) in Ec as ->.
    destruct (Z.ltb_spec MIN (label_count s k)); [|lia].
    apply foldM_Raise_elem with (a := j).
    - apply elem_of_seq. lia.
    - intros noise_mask. by eapply noise_step_Raise. }
  destruct Hmask as [e He].
  destruct (mapM_Raise_elem (noise_mask_of MIN K s psx pcm s_counts)
              (seq 0 K) k e) as [e' He']; [apply elem_of_seq; lia|done|].
  exists e'. by rewrite He'.
Qed.

(** ** STEP 2: the prediction override *)

Lemma override_step_mono (s : list Z) (m : list bool) (ip : nat * nat)
  (m' : list bool) :
  override_step s m ip = Ok m' ->
  length m' = length m /\ forall t, m' !! t = Some true -> m !! t = Some true.
Proof.
  destruct ip as [i p]. unfold override_step.
  destruct (index m i) as [b|]; simpl; [|done].
  destruct b; [|by intros [= <-]].
  destruct (index s i) as [s_i|]; simpl; [|done].
  destruct (Z.of_nat p =? s_i)%Z; intros [= <-]; [|done].
  split; [by rewrite length_insert|]. intros t Ht.
  destruct (decide (t = i)) as [->|Hne].
  - apply list_lookup_insert_Some in Ht as [(_ & [=] & _)|[? _]]; done.
  - by rewrite list_lookup_insert_ne in Ht.
Qed.

Lemma override_loop_mono (s : list Z) (l : list (nat * nat)) (m m' : list bool) :
  foldM (override_step s) m l = Ok m' ->
  length m' = length m /\ forall t, m' !! t = Some true -> m !! t = Some true.
Proof.
  revert m. induction l as [|ip l IH]; intros m; cbn [foldM].
  - by intros [= <-].
  - rewrite bind_Ok. intros (m1 & H1 & H2).
    apply override_step_mono in H1 as [Hl1 Hm1]. apply IH in H2 as [Hl2 Hm2].
    split; [lia|]. auto.
Qed.

Lemma override_step_clears (s : list Z) (m : list bool) (i p : nat)
  (m' : list bool) :
  override_step s m (i, p) = Ok m' -> s !! i = Some (Z.of_nat p) ->
  m' !! i <> Some true.
Proof.
  unfold override_step. intros H Hs. apply index_Ok in Hs.
  destruct (index m i) as [b|] eqn:Eb; simpl in H; [|done].
  apply index_Ok in Eb. destruct b.
  - rewrite Hs in H. simpl in H. rewrite Z.eqb_refl in H. injection H as <-.
    rewrite list_lookup_insert_eq; [done|]. by eapply lookup_lt_Some.
  - injection H as <-. by rewrite Eb.
Qed.

Lemma override_loop_clears (s : list Z) (l : list (nat * nat)) (m m' : list bool)
  (i p : nat) :
  foldM (override_step s) m l = Ok m' ->
  (i, p) ∈ l -> s !! i = Some (Z.of_nat p) -> m' !! i <> Some true.
Proof.
  revert m. induction l as [|ip l IH]; intros m; cbn [foldM].
  - by intros _ ?%elem_of_nil.
  - rewrite bind_Ok. intros (m1 & H1 & H2) Hin Hs.
    apply elem_of_cons in Hin as [<-|Hin]; [|by eapply IH].
    apply override_loop_mono in H2 as [_ Hm]. intros Ht.
    by eapply override_step_clears, Hm.
Qed.

(** What [label_errors_idx] computes when it returns. *)
Lemma label_errors_idx_Ok (MIN : Z) (K : nat) (s : list Z)
  (psx : list (list num)) (pcm : matrix) (out : list nat) :
  label_errors_idx MIN K s psx pcm = Ok out ->
  exists mask idx self_confidence rows maxes margin,
    label_errors_mask MIN K s psx pcm = Ok mask /\
    mask_select (seq 0 (length s)) mask = Ok idx /\
    mapM (self_conf s psx) idx = Ok self_confidence /\
    mask_select psx mask = Ok rows /\
    mapM np_max rows = Ok maxes /\
    broadcast2 sub self_confidence maxes = Ok margin /\
    mapM (index idx) (np_argsort margin) = Ok out.
Proof.
  unfold label_errors_idx. intros H.
  apply bind_Ok in H as (mask & Hmask & H).
  apply bind_Ok in H as (idx & Hidx & H).
  apply bind_Ok in H as (sc & Hsc & H).
  apply bind_Ok in H as (rows & Hrows & H).
  apply bind_Ok in H as (maxes & Hmaxes & H).
  apply bind_Ok in H as (margin & Hmargin & H).
  by exists mask, idx, sc, rows, maxes, margin.
Qed.

Lemma label_errors_mask_Ok (MIN : Z) (K : nat) (s : list Z)
  (psx : list (list num)) (pcm : matrix) (mask : list bool) :
  label_errors_mask MIN K s psx pcm = Ok mask ->
  exists masks m0 preds,
    noise_masks_per_class MIN K s psx pcm = Ok masks /\
    stack_any masks = Ok m0 /\
    mapM np_argmax psx = Ok preds /\
    foldM (override_step s) m0 (enumerate preds) = Ok mask.
Proof.
  unfold label_errors_mask. intros H.
  apply bind_Ok in H as (masks & Hmasks & H).
  apply bind_Ok in H as (m0 & Hm0 & H).
  apply bind_Ok in H as (preds & Hpreds & H).
  by exists masks, m0, preds.
Qed.

Lemma out_subset_idx (idx perm out : list nat) (i : nat) :
  mapM (index idx) perm = Ok out -> i ∈ out -> i ∈ idx.
Proof.
  rewrite mapM_Ok. intros H Hin.
  apply list_elem_of_lookup in Hin as [t Ht].
  destruct (Forall2_lookup_r _ _ _ _ _ H Ht) as (p & _ & Hp).
  apply index_Ok in Hp. by eapply list_elem_of_lookup_2.
Qed.

Lemma flagged_disagrees (MIN : Z) (K : nat) (s : list Z)
  (psx : list (list num)) (pcm : matrix) (mask : list bool)
  (i : nat) (row : list num) (l : nat) :
  label_errors_mask MIN K s psx pcm = Ok mask ->
  mask !! i = Some true -> psx !! i = Some row -> s !! i = Some (Z.of_nat l) ->
  np_argmax row <> Ok l.
Proof.
  intros H Hi Hrow Hl Harg.
  apply label_errors_mask_Ok in H as (masks & m0 & preds & _ & _ & Hpreds & H).
  apply mapM_Ok in Hpreds.
  destruct (Forall2_lookup_l _ _ _ _ _ Hpreds Hrow) as (p & Hp & Hp').
  rewrite Harg in Hp'. injection Hp' as <-.
  eapply override_loop_clears; [exact H| |exact Hl|exact Hi].
  by apply enumerate_elem.
Qed.

(** ** STEP 2: the ranking *)

Lemma zip_seq_elem {A} (l : list A) (x : A) (p : nat) :
  (x, p) ∈ zip l (seq 0 (length l)) -> l !! p = Some x.
Proof.
  intros Hin. apply list_elem_of_lookup in Hin as [t Ht].
  apply lookup_zip_with_Some in Ht as (x' & p' & [= <- <-] & Hx & Hp).
  by apply lookup_seq in Hp as [-> _].
Qed.

Lemma np_argsort_sorted (a : list num) :
  exists sp : list (num * nat),
    np_argsort a = map snd sp /\
    StronglySorted np_le (map fst sp) /\
    Forall (fun mp => a !! mp.2 = Some mp.1) sp.
Proof.
  exists (merge_sort key_le (zip a (seq 0 (length a)))). split; [done|]. split.
  - apply StronglySorted_fmap with (R1 := key_le); [by intros ? ?|].
    apply (StronglySorted_merge_sort key_le).
  - apply Forall_forall. intros [m p] Hin. simpl.
    apply zip_seq_elem. by rewrite <- (merge_sort_Permutation key_le).
Qed.

Lemma margins_of_selected (s : list Z) (psx : list (list num))
  (mask : list bool) (idx : list nat) (sc : list num) (rows : list (list num))
  (maxes margin : list num) :
  mask_select (seq 0 (length s)) mask = Ok idx ->
  mapM (self_conf s psx) idx = Ok sc ->
  mask_select psx mask = Ok rows ->
  mapM np_max rows = Ok maxes ->
  broadcast2 sub sc maxes = Ok margin ->
  Forall2 (fun i m => margin_of s psx i = Ok m) idx margin.
Proof.
  intros Hidx Hsc Hrows Hmaxes Hmargin.
  pose proof (mask_select_length _ _ _ Hidx) as Hl1. rewrite length_seq in Hl1.
  pose proof (mask_select_length _ _ _ Hrows) as Hl2.
  rewrite Hl1 in Hidx.
  rewrite mask_select_Ok in Hidx by (by rewrite length_seq). injection Hidx as <-.
  rewrite mask_select_Ok in Hrows by done. injection Hrows as <-.
  pose proof (selected_rows psx mask 0 Hl2) as Hsel.
  set (idx := map fst (List.filter snd (zip (seq 0 (length mask)) mask))) in *.
  set (rows := map fst (List.filter snd (zip psx mask))) in *.
  apply mapM_Ok in Hsc, Hmaxes.
  pose proof (Forall2_length _ _ _ Hsel) as E1.
  pose proof (Forall2_length _ _ _ Hsc) as E2.
  pose proof (Forall2_length _ _ _ Hmaxes) as E3.
  rewrite broadcast2_same in Hmargin by lia. injection Hmargin as <-.
  apply Forall2_same_length_lookup. split.
  { rewrite length_zip_with. lia. }
  intros t i m Hi Hm.
  apply lookup_zip_with_Some in Hm as (v & mx & -> & Hv & Hmx).
  destruct (Forall2_lookup_l _ _ _ _ _ Hsel Hi) as (row & Hrow & _ & Hpsx).
  rewrite Nat.sub_0_r in Hpsx.
  pose proof (Forall2_lookup_lr _ _ _ _ _ _ Hsc Hi Hv) as Hself.
  pose proof (Forall2_lookup_lr _ _ _ _ _ _ Hmaxes Hrow Hmx) as Hmax.
  unfold margin_of. rewrite Hself. simpl.
  apply index_Ok in Hpsx. rewrite Hpsx. simpl. by rewrite Hmax.
Qed.

Lemma StronglySorted_head_least {A} (R : relation A) (x : A) (l : list A) :
  StronglySorted R (x :: l) -> Forall (R x) l.
Proof. by intros [? _]%StronglySorted_cons. Qed.

(** ** STEP 2: the order statistic *)

Lemma count_if_cons {A} (f : A -> bool) (x : A) (l : list A) :
  count_if f (x :: l) = (if f x then 1 else 0) + count_if f l.
Proof. unfold count_if. simpl. by destruct (f x). Qed.

Lemma count_if_Permutation {A} (f : A -> bool) (l l' : list A) :
  l ≡ₚ l' -> count_if f l = count_if f l'.
Proof.
  induction 1 as [|x l l' _ IH|x y l|l l' l'' _ IH1 _ IH2];
    rewrite ?count_if_cons; lia.
Qed.

Lemma count_if_map {A B} (f : B -> bool) (g : A -> B) (l : list A) :
  count_if f (map g l) = count_if (fun x => f (g x)) l.
Proof.
  induction l as [|x l IH]; [done|]. cbn [map]. by rewrite !count_if_cons, IH.
Qed.

Lemma count_if_ext {A} (f g : A -> bool) (l : list A) :
  Forall (fun x => f x = g x) l -> count_if f l = count_if g l.
Proof.
  induction 1 as [|x l Hx _ IH]; [done|]. by rewrite !count_if_cons, Hx, IH.
Qed.

Lemma count_true_cons (b : bool) (l : list bool) :
  count_true (b :: l) = (if b then 1 else 0) + count_true l.
Proof. unfold count_true. simpl. by destruct b. Qed.

Lemma count_if_selected {A} (f : A -> bool) (a : list A) (mask : list bool) :
  count_if f (map fst (List.filter snd (zip a mask)))
  = count_true (zip_with andb mask (map f a)).
Proof.
  revert mask. induction a as [|x a IH]; intros [|b mask]; try done.
  cbn [zip_with List.filter snd map]. rewrite count_true_cons, <- IH.
  destruct b; cbn [map fst andb]; [by rewrite count_if_cons|lia].
Qed.

Lemma count_true_indices (bins : list bool) :
  count_true bins
  = count_if (fun i => default false (bins !! i)) (seq 0 (length bins)).
Proof.
  rewrite <- (true_indices_length 0 bins). unfold true_indices, count_if.
  f_equal. apply List.filter_ext. intros i. by rewrite Nat.sub_0_r.
Qed.

(** In a sorted array the entry at position [i] has at most [i] entries
    strictly before it in the order, and more than [i] at or before it. *)
Lemma sorted_rank (l : list num) (i : nat) (v : num) :
  StronglySorted np_le l -> l !! i = Some v ->
  count_if (fun x => negb (np_leb v x)) l <= i /\
  i < count_if (fun x => np_leb x v) l.
Proof.
  intros Hs. revert i. induction Hs as [|x l Hs IH Hx]; intros i Hi; [done|].
  rewrite !count_if_cons. destruct i as [|i]; simpl in Hi.
  - injection Hi as ->.
    assert (Hrefl : np_leb v v = true) by apply np_le_refl.
    rewrite Hrefl. simpl. split; [|lia].
    assert (E : count_if (fun x => negb (np_leb v x)) l = 0); [|lia].
    clear IH Hs. induction Hx as [|y l Hy _ IH]; [done|].
    rewrite count_if_cons, IH. unfold np_le in Hy. by rewrite Hy.
  - destruct (IH i Hi) as [IH1 IH2].
    assert (Hxv : np_leb x v = true).
    { rewrite Forall_forall in Hx. apply Hx. by eapply list_elem_of_lookup_2. }
    rewrite Hxv. destruct (negb (np_leb v x)); lia.
Qed.

Lemma np_leb_neg_l (m t : num) :
  finite m -> finite t -> np_leb (neg m) (neg t) = ge m t.
Proof.
  intros [x ->]%finite_Fin [y ->]%finite_Fin. apply np_leb_neg.
Qed.

Lemma np_leb_neg_r (m t : num) :
  finite m -> finite t -> negb (np_leb (neg t) (neg m)) = gt m t.
Proof.
  intros Hm Ht. rewrite np_leb_neg_l by done.
  apply finite_Fin in Hm as [x ->]. by apply finite_Fin in Ht as [y ->].
Qed.

Lemma neg_finite (m : num) : finite m -> finite (neg m).
Proof. by destruct m. Qed.

Lemma sub_finite (a b : num) : finite a -> finite b -> finite (sub a b).
Proof. by destruct a, b. Qed.

(** The threshold of the code, [-np.partition(-m, n - 1)[n - 1]], in terms
    of the values [m]: at most [n - 1] are above it, at least [n] at or
    above it. *)
Lemma partition_threshold (m : list num) (kth : nat) :
  Forall finite m -> kth < length m ->
  exists part v,
    np_partition (map neg m) (Z.of_nat kth) = Ok part /\
    py_index part (Z.of_nat kth) = Ok v /\
    finite (neg v) /\
    count_if (fun x => gt x (neg v)) m <= kth /\
    kth < count_if (fun x => ge x (neg v)) m.
Proof.
  intros Hfin Hk. rewrite np_partition_in_bounds by (rewrite length_map; lia).
  set (part := np_sort (map neg m)).
  assert (Hperm : part ≡ₚ map neg m) by apply merge_sort_Permutation.
  assert (Hsorted : StronglySorted np_le part)
    by apply (StronglySorted_merge_sort np_le).
  destruct (lookup_lt_is_Some_2 part kth) as [v Hv].
  { by rewrite (Permutation_length Hperm), length_map. }
  exists part, v. split; [done|].
  split; [rewrite py_index_nonneg; by apply index_Ok|].
  assert (Hvfin : finite v).
  { assert (Hin : v ∈ map neg m).
    { rewrite <- Hperm. by eapply list_elem_of_lookup_2. }
    apply list_elem_of_fmap in Hin as (x & -> & Hx).
    rewrite Forall_forall in Hfin. by apply neg_finite, Hfin. }
  split; [by apply neg_finite|].
  destruct (sorted_rank part kth v Hsorted Hv) as [H1 H2].
  rewrite (count_if_Permutation _ _ _ Hperm), count_if_map in H1.
  rewrite (count_if_Permutation _ _ _ Hperm), count_if_map in H2.
  assert (Ev : v = neg (neg v)) by (by rewrite neg_involutive).
  rewrite Ev in H1, H2.
  split.
  - etrans; [|exact H1]. apply Nat.eq_le_incl, count_if_ext.
    eapply Forall_impl; [exact Hfin|]. intros x Hx. simpl.
    symmetry. by apply np_leb_neg_r; [|apply neg_finite].
  - erewrite count_if_ext; [exact H2|].
    eapply Forall_impl; [exact Hfin|]. intros x Hx. simpl.
    symmetry. by apply np_leb_neg_l; [|apply neg_finite].
Qed.

Lemma margin_lookup (psx : list (list num)) (k j : nat) (psx_k psx_j : list num)
  (i : nat) :
  column psx k = Ok psx_k -> column psx j = Ok psx_j ->
  zip_with sub psx_k psx_j !! i = pair_margin psx k j i.
Proof.
  rewrite !column_Ok. intros Hk Hj. rewrite lookup_zip_with. unfold pair_margin.
  destruct (psx !! i) as [row|] eqn:Erow.
  - destruct (Forall2_lookup_l _ _ _ _ _ Hk Erow) as (a & -> & ->).
    destruct (Forall2_lookup_l _ _ _ _ _ Hj Erow) as (b & -> & ->). done.
  - apply lookup_ge_None in Erow. apply Forall2_length in Hk.
    rewrite (lookup_ge_None_2 psx_k i); [done|lia].
Qed.

Lemma selection_lookup (s : list Z) (psx : list (list num)) (k j : nat)
  (cmp : num -> bool) (margin : list num) (i : nat) :
  (forall i, margin !! i = pair_margin psx k j i) ->
  default false (zip_with andb (eq_mask s j) (map cmp margin) !! i)
  = selected_by s psx k j cmp i.
Proof.
  intros Hm. unfold selected_by, eq_mask.
  rewrite lookup_zip_with, !list_lookup_fmap, Hm.
  destruct (s !! i), (pair_margin psx k j i); done.
Qed.

Lemma count_selected (s : list Z) (psx : list (list num)) (k j : nat)
  (cmp : num -> bool) (margin : list num) :
  length margin = length s ->
  (forall i, margin !! i = pair_margin psx k j i) ->
  count_if cmp (map fst (List.filter snd (zip margin (eq_mask s j))))
  = count_if (selected_by s psx k j cmp) (seq 0 (length s)).
Proof.
  intros Hlen Hm. rewrite count_if_selected, count_true_indices.
  rewrite length_zip_with, eq_mask_length, length_map, Hlen, Nat.min_id.
  unfold count_if. f_equal. apply List.filter_ext. intros i.
  by apply selection_lookup.
Qed.

Lemma column_finite (psx : list (list num)) (k : nat) (psx_k : list num) :
  Forall (Forall finite) psx -> column psx k = Ok psx_k -> Forall finite psx_k.
Proof.
  rewrite column_Ok. intros Hfin Hk. apply Forall_lookup. intros i x Hx.
  destruct (Forall2_lookup_r _ _ _ _ _ Hk Hx) as (row & Hrow & Hrk).
  rewrite Forall_lookup in Hfin. specialize (Hfin i row Hrow).
  rewrite Forall_lookup in Hfin. by apply (Hfin k).
Qed.

Lemma mask_select_Forall {A} (P : A -> Prop) (a : list A) (mask : list bool) :
  Forall P a -> Forall P (map fst (List.filter snd (zip a mask))).
Proof.
  intros Ha. revert mask. induction Ha as [|x a Hx _ IH]; intros [|b mask]; try done.
  cbn [zip_with List.filter snd]. destruct b; cbn [map fst]; [constructor|]; auto.
Qed.

(** The selection of one pair, when the prune count is within the number of
    examples with the noisy label. *)
Lemma prune_pair_spec (s : list Z) (psx : list (list num)) (k j : nat)
  (psx_k : list num) (num2prune : Z) :
  length s = length psx ->
  Forall (Forall finite) psx ->
  Forall (fun row => j < length row) psx ->
  column psx k = Ok psx_k ->
  (0 < num2prune <= label_count s j)%Z ->
  exists sel t,
    prune_pair s psx psx_k j num2prune = Ok sel /\
    length sel = length s /\
    nth_largest_margin s psx k j (Z.to_nat num2prune) t /\
    (forall i, i < length s ->
       sel !! i = Some (selected_by s psx k j (fun m => ge m t) i)) /\
    (num2prune <= Z.of_nat (count_true sel))%Z.
Proof.
  intros Hlen Hfin Hj Hk [Hpos Hcount]. unfold label_count in Hcount.
  destruct (column_total psx j Hj) as [psx_j Hpj].
  pose proof (column_length _ _ _ Hk) as Hlk.
  pose proof (column_length _ _ _ Hpj) as Hlj.
  set (margin := zip_with sub psx_k psx_j).
  assert (Hlm : length margin = length s)
    by (unfold margin; rewrite length_zip_with; lia).
  assert (Hm : forall i, margin !! i = pair_margin psx k j i)
    by (intros i; by apply margin_lookup).
  assert (Hmfin : Forall finite margin).
  { apply Forall_zip_with_fst with (P := finite).
    - eapply column_finite; [exact Hfin|exact Hk].
    - eapply Forall_impl; [eapply column_finite; [exact Hfin|exact Hpj]|].
      intros b Hb a Ha. by apply sub_finite. }
  set (sel_m := map fst (List.filter snd (zip margin (eq_mask s j)))).
  assert (Hsel_len : length sel_m = count_true (eq_mask s j)).
  { apply (mask_select_count margin). apply mask_select_Ok.
    by rewrite eq_mask_length. }
  destruct (partition_threshold sel_m (Z.to_nat (num2prune - 1)))
    as (part & v & Hpart & Hv & Htfin & Habove & Hatleast).
  { by apply mask_select_Forall. }
  { lia. }
  rewrite Z2Nat.id in Hpart, Hv by lia.
  set (t := neg v) in *.
  exists (zip_with andb (eq_mask s j) (map (fun m => ge m t) margin)), t.
  unfold sel_m in Habove, Hatleast.
  rewrite (count_selected s psx k j) in Habove, Hatleast by done.
  split; [|split; [|split; [|split]]].
  - unfold prune_pair. rewrite Hpj. simpl.
    rewrite broadcast2_same by lia. simpl. fold margin.
    rewrite mask_select_Ok by (by rewrite eq_mask_length). simpl. fold sel_m.
    rewrite Hpart. simpl. rewrite Hv. simpl. fold t.
    apply broadcast2_same. by rewrite eq_mask_length, length_map.
  - rewrite length_zip_with, eq_mask_length, length_map. lia.
  - split; [done|]. unfold above, at_or_above. lia.
  - intros i Hi.
    pose proof (selection_lookup s psx k j (fun m => ge m t) margin i Hm) as E.
    destruct (lookup_lt_is_Some_2
                (zip_with andb (eq_mask s j) (map (fun m => ge m t) margin)) i)
      as [b Hb].
    { rewrite length_zip_with, eq_mask_length, length_map. lia. }
    rewrite Hb in E |- *. simpl in E. by rewrite E.
  - rewrite count_true_indices.
    rewrite length_zip_with, eq_mask_length, length_map, Hlm, Nat.min_id.
    assert (E : count_if
                  (fun i => default false
                     (zip_with andb (eq_mask s j) (map (fun m => ge m t) margin) !! i))
                  (seq 0 (length s))
                = count_if (selected_by s psx k j (fun m => ge m t)) (seq 0 (length s))).
    { unfold count_if. f_equal. apply List.filter_ext. intros i.
      by apply selection_lookup. }
    rewrite E. lia.
Qed.

(** ** STEP 1: every label that occurs has a confident example *)

Lemma foldl_Qplus_le (m acc : Q) (qs : list Q) :
  Forall (fun x => (x <= m)%Q) qs ->
  (foldl Qplus acc qs <= acc + m * inject_Z (Z.of_nat (length qs)))%Q.
Proof.
  intros H. revert acc. induction H as [|x qs Hx _ IH]; intros acc.
  - cbn [foldl length]. change (inject_Z (Z.of_nat 0)) with 0%Q. lra.
  - cbn [foldl length]. rewrite Nat2Z.inj_succ. unfold Z.succ.
    rewrite inject_Z_plus. specialize (IH (acc + x)%Q).
    change (inject_Z 1) with 1%Q. lra.
Qed.

Lemma exists_max (qs : list Q) :
  qs <> [] -> exists m, m ∈ qs /\ Forall (fun x => (x <= m)%Q) qs.
Proof.
  induction qs as [|x qs IH]; [done|]. intros _.
  destruct qs as [|y qs].
  - exists x. split; [apply list_elem_of_here|]. constructor; [lra|constructor].
  - destruct IH as (m & Hm & Hall); [done|].
    destruct (Qlt_le_dec m x) as [Hlt|Hle].
    + exists x. split; [apply list_elem_of_here|]. constructor; [lra|].
      eapply Forall_impl; [exact Hall|]. intros z Hz. simpl in Hz. lra.
    + exists m. split; [by apply list_elem_of_further|]. by constructor.
Qed.

Lemma np_sum_Fin (acc : Q) (qs : list Q) :
  foldl add (Fin acc) (map Fin qs) = Fin (foldl Qplus acc qs).
Proof.
  revert acc. induction qs as [|x qs IH]; intros acc; [done|]. simpl. apply IH.
Qed.

Lemma finite_list (l : list num) : Forall finite l -> exists qs, l = map Fin qs.
Proof.
  induction 1 as [|x l Hx _ [qs ->]]; [by exists []|].
  apply finite_Fin in Hx as [v ->]. by exists (v :: qs).
Qed.

(** The mean of a non-empty array of numbers is at most its largest entry. *)
Lemma np_mean_le_max (l : list num) :
  Forall finite l -> l <> [] ->
  exists t v, np_mean l = Fin t /\ Fin v ∈ l /\ (t <= v)%Q.
Proof.
  intros Hfin Hne. destruct (finite_list l Hfin) as [qs ->].
  destruct (exists_max qs) as (m & Hm & Hall); [by destruct qs|].
  exists (foldl Qplus 0 qs / inject_Z (Z.of_nat (length (map Fin qs))))%Q, m.
  split; [|split].
  - unfold np_mean, np_sum. rewrite np_sum_Fin. by destruct qs.
  - by apply list_elem_of_fmap_2.
  - rewrite length_map. apply Qle_shift_div_r.
    + change 0%Q with (inject_Z 0). rewrite <- Zlt_Qlt.
      destruct qs; [done|simpl; lia].
    + pose proof (foldl_Qplus_le m 0 qs Hall). lra.
Qed.

Lemma selected_elem {A} (c : list A) (mask : list bool) (x : A) :
  x ∈ map fst (List.filter snd (zip c mask)) ->
  exists i, c !! i = Some x /\ mask !! i = Some true.
Proof.
  revert mask. induction c as [|y c IH]; intros [|b mask] Hin;
    try (by apply elem_of_nil in Hin).
  cbn [zip_with List.filter snd] in Hin. destruct b; cbn [map fst] in Hin.
  - apply elem_of_cons in Hin as [->|Hin]; [by exists 0|].
    destruct (IH mask Hin) as (i & Hc & Hm). by exists (S i).
  - destruct (IH mask Hin) as (i & Hc & Hm). by exists (S i).
Qed.

Lemma eq_mask_lookup (s : list Z) (k i : nat) :
  eq_mask s k !! i = Some true <-> s !! i = Some (Z.of_nat k).
Proof.
  unfold eq_mask. rewrite list_lookup_fmap. destruct (s !! i) as [l|]; simpl.
  - destruct (Z.eqb_spec l (Z.of_nat k)) as [->|Hne]; split; try done.
    intros [= ->]. done.
  - split; discriminate.
Qed.

Lemma count_true_pos (mask : list bool) :
  0 < count_true mask <-> exists i, mask !! i = Some true.
Proof.
  induction mask as [|b mask IH].
  - split; [unfold count_true; simpl; lia|by intros [i ?]].
  - rewrite count_true_cons. destruct b.
    + split; [by exists 0|lia].
    + rewrite Nat.add_0_l, IH. split.
      * intros [i Hi]. by exists (S i).
      * intros [[|i] Hi]; [done|by exists i].
Qed.

(** A class with an example has a finite threshold, and one of its
    examples reaches it. *)
Lemma threshold_reached (K : nat) (s : list Z) (psx : list (list num))
  (thr : list num) (a i0 : nat) :
  valid_input K s psx -> Forall (Forall finite) psx ->
  thresholds s psx K = Ok thr -> s !! i0 = Some (Z.of_nat a) ->
  exists i row, s !! i = Some (Z.of_nat a) /\ psx !! i = Some row /\
    confident thr row a = true.
Proof.
  intros (Hlen & Hs & Hrows) Hfin Hthr Hi0.
  assert (Ha : a < K).
  { rewrite Forall_lookup in Hs. specialize (Hs i0 _ Hi0). simpl in Hs. lia. }
  destruct (thresholds_lookup K s psx thr a Hthr Ha) as (t & Ht & Hval).
  destruct (threshold_total s psx a Hlen) as (c & Hc & Hval').
  { eapply Forall_impl; [exact Hrows|]. simpl. lia. }
  rewrite Hval' in Hval. injection Hval as <-.
  set (sel := map fst (List.filter snd (zip c (eq_mask s a)))) in *.
  assert (Hselfin : Forall finite sel).
  { apply mask_select_Forall. by eapply column_finite. }
  assert (Hne : sel <> []).
  { assert (Hl : length sel = count_true (eq_mask s a)).
    { apply (mask_select_count c). apply mask_select_Ok.
      rewrite eq_mask_length, Hlen. by eapply column_length. }
    assert (0 < count_true (eq_mask s a)).
    { apply count_true_pos. exists i0. by apply eq_mask_lookup. }
    intros E. rewrite E in Hl. simpl in Hl. lia. }
  destruct (np_mean_le_max sel Hselfin Hne) as (tq & v & Hmean & Hv & Hle).
  destruct (selected_elem c (eq_mask s a) (Fin v) Hv) as (i & Hci & Hmi).
  apply eq_mask_lookup in Hmi. apply column_Ok in Hc.
  destruct (Forall2_lookup_r _ _ _ _ _ Hc Hci) as (row & Hrow & Hra).
  exists i, row. split; [done|]. split; [done|].
  unfold confident. rewrite Hra, Ht, Hmean. apply ge_iff.
  unfold Qminus. change (- (1 # 1000000))%Q with (-1 # 1000000)%Q.
  assert (0 < 1 # 1000000)%Q by reflexivity. lra.
Qed.
(** ** Calibration: rounding a row by largest remainders *)

Lemma Qsum_cons (x : Q) (xs : list Q) : Qsum (x :: xs) = (x + Qsum xs)%Q.
Proof. reflexivity. Qed.

Lemma row_sum_cons (v : Z) (r : list Z) : row_sum (v :: r) = (v + row_sum r)%Z.
Proof. reflexivity. Qed.

Lemma row_sum_alter_succ (out : list Z) (c : nat) :
  c < length out -> row_sum (alter Z.succ c out) = (row_sum out + 1)%Z.
Proof.
  revert c. induction out as [|v out IH]; intros c Hc; simpl in Hc; [lia|].
  destruct c as [|c].
  - change (alter Z.succ 0 (v :: out)) with (Z.succ v :: out).
    rewrite !row_sum_cons. lia.
  - change (alter Z.succ (S c) (v :: out)) with (v :: alter Z.succ c out).
    rewrite !row_sum_cons, IH by lia. lia.
Qed.

Lemma pick_from_Some (best : option (nat * Q)) (i : nat) (fr : list (option Q))
  (c : nat) :
  pick_from best i fr = Some c ->
  (exists b, best = Some (c, b)) \/
  (i <= c /\ exists x, fr !! (c - i) = Some (Some x)).
Proof.
  revert best i. induction fr as [|o fr IH]; intros best i H; simpl in H.
  - destruct best as [[bi b]|]; [|done]. simpl in H. injection H as ->. eauto.
  - assert (Hrec : forall best', pick_from best' (S i) fr = Some c ->
              best' = best \/ (exists x, o = Some x /\ best' = Some (i, x)) ->
              (exists b, best = Some (c, b)) \/
              (i <= c /\ exists x, (o :: fr) !! (c - i) = Some (Some x))).
    { intros best' H' Hb. destruct (IH best' (S i) H') as [[b Eb]|[Hle [x Hx]]].
      - destruct Hb as [->|(x & -> & ->)]; [eauto|].
        injection Eb as -> _. right. split; [lia|]. exists x.
        by rewrite Nat.sub_diag.
      - right. split; [lia|]. exists x.
        by replace (c - i) with (S (c - S i)) by lia. }
    destruct o as [x|]; [|by apply (Hrec best); [|left]].
    destruct best as [[bi b]|].
    + destruct (Qle_bool x b).
      * by apply (Hrec (Some (bi, b))); [|left].
      * apply (Hrec (Some (i, x))); [done|]. right. eauto.
    + apply (Hrec (Some (i, x))); [done|]. right. eauto.
Qed.

Lemma pick_from_None (best : option (nat * Q)) (i : nat) (fr : list (option Q)) :
  pick_from best i fr = None -> best = None /\ avail fr = 0.
Proof.
  revert best i. induction fr as [|o fr IH]; intros best i H; simpl in H.
  - by destruct best.
  - destruct o as [x|].
    + destruct best as [[bi b]|].
      * destruct (Qle_bool x b); by apply IH in H as [? _].
      * by apply IH in H as [? _].
    + apply IH in H as [-> H]. split; [done|].
      unfold avail in *. by rewrite count_if_cons.
Qed.

Lemma pick_Some (fr : list (option Q)) (c : nat) :
  pick fr = Some c -> exists x, fr !! c = Some (Some x).
Proof.
  intros H. apply pick_from_Some in H as [[b [=]]|[_ [x Hx]]].
  rewrite Nat.sub_0_r in Hx. eauto.
Qed.

Lemma avail_insert_None (fr : list (option Q)) (c : nat) (x : Q) :
  fr !! c = Some (Some x) -> avail (<[c := None]> fr) + 1 = avail fr.
Proof.
  unfold avail. revert c. induction fr as [|o fr IH]; intros c H; [done|].
  destruct c as [|c]; simpl in *.
  - injection H as ->. rewrite !count_if_cons. lia.
  - rewrite !count_if_cons. specialize (IH c H). lia.
Qed.

Lemma largest_remainder_sum (residual : nat) (fr : list (option Q)) (out : list Z) :
  residual <= avail fr -> length fr = length out ->
  row_sum (largest_remainder residual fr out) = (row_sum out + Z.of_nat residual)%Z /\
  length (largest_remainder residual fr out) = length out.
Proof.
  revert fr out. induction residual as [|n IH]; intros fr out Hn Hlen; simpl.
  - split; [lia|done].
  - destruct (pick fr) as [c|] eqn:Ec.
    + destruct (pick_Some fr c Ec) as [x Hx].
      pose proof (avail_insert_None fr c x Hx) as Ha.
      pose proof (lookup_lt_Some _ _ _ Hx) as Hc.
      destruct (IH (<[c := None]> fr) (alter Z.succ c out)) as [IH1 IH2].
      * lia.
      * by rewrite length_insert, length_alter.
      * rewrite IH1, IH2, length_alter, row_sum_alter_succ by lia. split; [lia|done].
    + apply pick_from_None in Ec as [_ Ec]. lia.
Qed.

(** ** Calibration: sums of rationals *)

Lemma Qsum_floor_le (xs : list Q) :
  (inject_Z (row_sum (map Qfloor xs)) <= Qsum xs)%Q.
Proof.
  induction xs as [|x xs IH]; [apply Qle_refl|].
  cbn [map]. rewrite row_sum_cons, Qsum_cons, inject_Z_plus.
  apply Qplus_le_compat; [apply Qfloor_le|exact IH].
Qed.

Lemma Qsum_floor_ge (xs : list Q) :
  (Qsum xs <= inject_Z (row_sum (map Qfloor xs) + Z.of_nat (length xs)))%Q.
Proof.
  induction xs as [|x xs IH]; [apply Qle_refl|].
  cbn [map length]. rewrite row_sum_cons, Qsum_cons.
  replace (Qfloor x + row_sum (map Qfloor xs) + Z.of_nat (S (length xs)))%Z
    with ((Qfloor x + 1) + (row_sum (map Qfloor xs) + Z.of_nat (length xs)))%Z by lia.
  rewrite inject_Z_plus.
  apply Qplus_le_compat; [apply Qlt_le_weak, Qlt_floor|exact IH].
Qed.

Lemma avail_fresh (xs : list Q) : avail (map (fun x => Some (frac x)) xs) = length xs.
Proof.
  unfold avail. induction xs as [|x xs IH]; [done|].
  cbn [map]. rewrite count_if_cons, IH. done.
Qed.

Lemma Qsum_scale (count t : Z) (r : list Z) :
  (Qsum (map (fun v => inject_Z (v * count) / inject_Z t) r)
   == inject_Z (row_sum r * count) / inject_Z t)%Q.
Proof.
  induction r as [|v r IH].
  - simpl. unfold Qdiv. by rewrite Qmult_0_l.
  - cbn [map]. rewrite Qsum_cons, row_sum_cons, IH.
    rewrite Z.mul_add_distr_r, inject_Z_plus. unfold Qdiv. ring.
Qed.

Lemma Qsum_inject (r : list Z) : (Qsum (map inject_Z r) == inject_Z (row_sum r))%Q.
Proof.
  induction r as [|v r IH]; [reflexivity|].
  cbn [map]. by rewrite Qsum_cons, row_sum_cons, IH, inject_Z_plus.
Qed.

Lemma scale_row_sum (count : Z) (r : list Z) :
  (Qsum (scale_row count r)
   == inject_Z (if (row_sum r =? 0)%Z then 0 else count))%Q.
Proof.
  unfold scale_row. destruct (Z.eqb_spec (row_sum r) 0) as [E|E].
  - by rewrite Qsum_inject, E.
  - rewrite Qsum_scale, inject_Z_mult, Qmult_comm.
    apply Qdiv_mult_l. intros H. apply E.
    by apply (inject_Z_injective (row_sum r) 0).
Qed.

Lemma target_defined (K : nat) (thr row : list num) (a : nat) :
  length thr = K -> length row = K -> confident thr row a = true -> a < K ->
  exists b, confident_target thr row = Some b /\ b < K.
Proof.
  intros Hthr Hrow Ha HK.
  assert (Hin : a ∈ confident_set thr row).
  { unfold confident_set. apply list_elem_of_In, List.filter_In. split; [|done].
    apply in_seq. lia. }
  unfold confident_target.
  destruct (confident_set thr row) as [|k [|k' ks]] eqn:E.
  - by apply elem_of_nil in Hin.
  - exists k. split; [done|]. rewrite <- Hthr.
    apply confident_set_bound with (row := row). rewrite E. apply list_elem_of_here.
  - destruct (np_argmax_total row) as (c & -> & Hc); [lia|].
    exists c. split; [done|lia].
Qed.

Lemma count_if_pos {A} (f : A -> bool) (l : list A) (x : A) :
  x ∈ l -> f x = true -> 0 < count_if f l.
Proof.
  induction 1 as [x l|x y l _ IH]; intros Hx; rewrite count_if_cons.
  - rewrite Hx. lia.
  - specialize (IH Hx). lia.
Qed.

Lemma count_if_zero {A} (f : A -> bool) (l : list A) :
  Forall (fun x => f x = false) l -> count_if f l = 0.
Proof.
  induction 1 as [|x l Hx _ IH]; [done|]. by rewrite count_if_cons, Hx, IH.
Qed.

Lemma row_sum_ge (r : list Z) (b : nat) (v : Z) :
  Forall (fun w => (0 <= w)%Z) r -> r !! b = Some v -> (v <= row_sum r)%Z.
Proof.
  intros H. revert b. induction H as [|w r Hw Hr IH]; intros b Hb; [done|].
  rewrite row_sum_cons. destruct b as [|b]; simpl in Hb.
  - injection Hb as ->.
    assert (0 <= row_sum r)%Z; [|lia].
    clear IH. induction Hr as [|u r Hu _ IH']; [done|]. rewrite row_sum_cons. lia.
  - specialize (IH b Hb). lia.
Qed.

Lemma row_sum_zero (r : list Z) :
  Forall (fun w => w = 0%Z) r -> row_sum r = 0%Z.
Proof.
  induction 1 as [|w r -> _ IH]; [done|]. by rewrite row_sum_cons, IH.
Qed.

(** A row of the confident joint is zero exactly when no example carries
    its label. *)
Lemma raw_row_sum (K : nat) (s : list Z) (psx : list (list num)) (J : matrix)
  (a : nat) (r : list Z) :
  valid_input K s psx -> Forall (Forall finite) psx ->
  confident_joint_K K s psx = Ok J -> J !! a = Some r ->
  row_sum r = 0%Z <-> label_count s a = 0%Z.
Proof.
  intros Hv Hfin HJ Hr. pose proof Hv as (Hlen & Hs & Hrows).
  destruct (thresholds_total K s psx Hlen) as (thr & Hthr & Hthrlen).
  { eapply Forall_impl; [exact Hrows|]. simpl. lia. }
  destruct (joint_loop_spec K s thr (enumerate psx) (zeros K))
    as (J' & HJ' & Hsq & Hcell);
    [apply zeros_square|done|by apply valid_enumerate|].
  unfold confident_joint_K in HJ. rewrite Hthr in HJ. simpl in HJ.
  rewrite HJ' in HJ. injection HJ as ->.
  assert (Hcellr : forall b v, r !! b = Some v ->
            v = Z.of_nat (count_if (counts_for s thr a b) (enumerate psx))).
  { intros b v Hb. specialize (Hcell a b). rewrite zeros_cellZ in Hcell.
    unfold cellZ, cell in Hcell. rewrite Hr, Hb in Hcell. simpl in Hcell. lia. }
  assert (Hnonneg : Forall (fun w => (0 <= w)%Z) r).
  { apply Forall_lookup. intros b v Hb. rewrite (Hcellr b v Hb). lia. }
  assert (HrK : length r = K).
  { destruct Hsq as [_ Hsq]. rewrite Forall_lookup in Hsq. by apply (Hsq a). }
  unfold label_count. split.
  - intros Hzero.
    destruct (decide (count_true (eq_mask s a) = 0)) as [->|Hpos]; [done|]. exfalso.
    assert (Hex : exists i0, eq_mask s a !! i0 = Some true)
      by (apply count_true_pos; lia).
    destruct Hex as [i0 Hi0]. apply eq_mask_lookup in Hi0.
    destruct (threshold_reached K s psx thr a i0 Hv Hfin Hthr Hi0)
      as (i & row & Hi & Hrow & Hconf).
    assert (Ha : a < K) by (by apply (label_in_range K s i0)).
    assert (HrowK : length row = K)
      by (rewrite Forall_lookup in Hrows; by apply (Hrows i)).
    destruct (target_defined K thr row a Hthrlen HrowK Hconf Ha) as (b & Hb & HbK).
    destruct (lookup_lt_is_Some_2 r b) as [v Hv']; [lia|].
    pose proof (row_sum_ge r b v Hnonneg Hv') as Hge.
    rewrite (Hcellr b v Hv') in Hge.
    assert (0 < count_if (counts_for s thr a b) (enumerate psx)); [|lia].
    apply count_if_pos with (x := (i, row)); [by apply enumerate_elem|].
    unfold counts_for. by apply bool_decide_eq_true_2.
  - intros Hzero. apply row_sum_zero, Forall_lookup. intros b v Hb.
    rewrite (Hcellr b v Hb), count_if_zero; [done|].
    apply Forall_forall. intros [i row] _. unfold counts_for.
    apply bool_decide_eq_false_2. intros [Hi _]. simpl in Hi.
    assert (0 < count_true (eq_mask s a)); [|lia].
    apply count_true_pos. exists i. by apply eq_mask_lookup.
Qed.

Lemma row_sum_map_add {A} (f g : A -> Z) (l : list A) :
  row_sum (map (fun x => (f x + g x)%Z) l)
  = (row_sum (map f l) + row_sum (map g l))%Z.
Proof.
  induction l as [|x l IH]; [done|]. cbn [map]. rewrite !row_sum_cons, IH. lia.
Qed.

Lemma indicator_sum (l o n : nat) :
  row_sum (map (fun k => if l =? k then 1%Z else 0%Z) (seq o n))
  = if bool_decide (o <= l < o + n) then 1%Z else 0%Z.
Proof.
  revert o. induction n as [|n IH]; intros o.
  - simpl. rewrite bool_decide_eq_false_2; [done|lia].
  - cbn [seq map]. rewrite row_sum_cons, IH.
    destruct (Nat.eqb_spec l o) as [->|Hne].
    + rewrite bool_decide_eq_false_2 by lia. rewrite bool_decide_eq_true_2 by lia. done.
    + destruct (decide (S o <= l < S o + n)).
      * rewrite !bool_decide_eq_true_2 by lia. done.
      * rewrite !bool_decide_eq_false_2 by lia. done.
Qed.

Lemma label_count_cons (l : Z) (s : list Z) (k : nat) :
  label_count (l :: s) k
  = ((if (l =? Z.of_nat k)%Z then 1 else 0) + label_count s k)%Z.
Proof.
  unfold label_count, eq_mask. cbn [map]. rewrite count_true_cons.
  destruct (l =? Z.of_nat k)%Z; lia.
Qed.

Lemma label_counts_total (K : nat) (s : list Z) :
  Forall (fun l => (0 <= l < Z.of_nat K)%Z) s ->
  row_sum (map (label_count s) (seq 0 K)) = Z.of_nat (length s).
Proof.
  induction 1 as [|l s Hl _ IH].
  - apply row_sum_zero, Forall_forall. intros v Hv.
    by apply list_elem_of_fmap in Hv as (k & -> & _).
  - assert (E : map (label_count (l :: s)) (seq 0 K)
              = map (fun k => ((if (Z.to_nat l =? k)%nat then 1 else 0)
                               + label_count s k)%Z)
                  (seq 0 K)).
    { apply map_ext. intros k. rewrite label_count_cons.
      destruct (Z.eqb_spec l (Z.of_nat k)), (Nat.eqb_spec (Z.to_nat l) k);
        try done; lia. }
    rewrite E, row_sum_map_add, indicator_sum, IH.
    rewrite bool_decide_eq_true_2 by lia. cbn [length]. lia.
Qed.
(** ** Calibration: one residual over all the cells *)

Lemma largest_remainder_length (residual : nat) (fr : list (option Q))
  (out : list Z) :
  length (largest_remainder residual fr out) = length out.
Proof.
  revert fr out. induction residual as [|n IH]; intros fr out; simpl; [done|].
  destruct (pick fr) as [c|]; [|done]. by rewrite IH, length_alter.
Qed.

(** A cell keeps its value or gains one unit, and gains it at most once. *)
Lemma largest_remainder_cell (residual : nat) (fr : list (option Q))
  (out : list Z) (c : nat) (v' : Z) :
  largest_remainder residual fr out !! c = Some v' ->
  exists v, out !! c = Some v /\
    (v' = v \/ (v' = (v + 1)%Z /\ exists x, fr !! c = Some (Some x))).
Proof.
  revert fr out. induction residual as [|n IH]; intros fr out H; simpl in H.
  - exists v'. auto.
  - destruct (pick fr) as [c0|] eqn:Ec; [|exists v'; auto].
    destruct (pick_Some fr c0 Ec) as [x0 Hx0].
    destruct (IH _ _ H) as (v1 & Hv1 & Hcase).
    destruct (decide (c = c0)) as [->|Hne].
    + rewrite list_lookup_alter_eq in Hv1.
      destruct (out !! c0) as [v|] eqn:Ev; rewrite ?Ev in Hv1; simpl in Hv1;
        [|done].
      injection Hv1 as <-.
      exists v. split; [done|]. right. destruct Hcase as [->|[_ [x Hx]]].
      * split; [lia|eauto].
      * rewrite list_lookup_insert_eq in Hx by (by eapply lookup_lt_Some). done.
    + rewrite list_lookup_alter_ne in Hv1 by done.
      exists v1. split; [done|]. destruct Hcase as [->|[-> [x Hx]]]; [by left|].
      right. split; [done|]. rewrite list_lookup_insert_ne in Hx by done. eauto.
Qed.

Lemma round_cells_length (n : Z) (xs : list Q) :
  length (round_cells n xs) = length xs.
Proof. unfold round_cells. by rewrite largest_remainder_length, length_map. Qed.

(** The rounded cells add up to [n] when the cells do. *)
Lemma round_cells_sum (n : Z) (xs : list Q) :
  (Qsum xs == inject_Z n)%Q -> row_sum (round_cells n xs) = n.
Proof.
  intros Hn. unfold round_cells.
  pose proof (Qsum_floor_le xs) as Hlo. pose proof (Qsum_floor_ge xs) as Hhi.
  rewrite Hn in Hlo, Hhi. rewrite <- Zle_Qle in Hlo, Hhi.
  destruct (largest_remainder_sum
              (Z.to_nat (n - row_sum (map Qfloor xs)))
              (map (fun x => Some (frac x)) xs) (map Qfloor xs)) as [H1 _].
  - rewrite avail_fresh. lia.
  - by rewrite !length_map.
  - rewrite H1. lia.
Qed.

(** Each rounded cell is the floor of its cell, or one more. *)
Lemma round_cells_cell (n : Z) (xs : list Q) :
  Forall2 (fun y x => y = Qfloor x \/ y = (Qfloor x + 1)%Z) (round_cells n xs) xs.
Proof.
  apply Forall2_same_length_lookup. split; [apply round_cells_length|].
  intros c y x Hy Hx. unfold round_cells in Hy.
  apply largest_remainder_cell in Hy as (v & Hv & Hcase).
  rewrite list_lookup_fmap, Hx in Hv. injection Hv as <-.
  destruct Hcase as [->|[-> _]]; auto.
Qed.

(** ** Calibration: the shape of the result *)

Lemma reshape_like_Forall2 {A B} (R : Z -> B -> Prop) (J : list (list A))
  (X : list (list B)) (cells : list Z) :
  Forall2 (fun j x => length j = length x) J X ->
  Forall2 R cells (concat X) ->
  Forall2 (Forall2 R) (reshape_like J cells) X.
Proof.
  intros HJ. revert cells. induction HJ as [|j x J X Hjx _ IH]; intros cells Hc.
  - constructor.
  - cbn [concat] in Hc. apply Forall2_app_inv_r in Hc as (c1 & c2 & H1 & H2 & ->).
    pose proof (Forall2_length _ _ _ H1) as Hl. cbn [reshape_like].
    rewrite take_app_length' by lia. rewrite drop_app_length' by lia.
    constructor; [done|]. by apply IH.
Qed.

Lemma reshape_like_length {A} (J : list (list A)) (cells : list Z) :
  length (reshape_like J cells) = length J.
Proof.
  revert cells. induction J as [|j J IH]; intros cells; [done|].
  cbn [reshape_like length]. by rewrite IH.
Qed.

Lemma reshape_like_concat {A} (J : list (list A)) (cells : list Z) :
  length cells = length (concat J) -> concat (reshape_like J cells) = cells.
Proof.
  revert cells. induction J as [|j J IH]; intros cells Hl.
  - by destruct cells.
  - cbn [reshape_like concat]. cbn [concat] in Hl. rewrite length_app in Hl.
    rewrite IH by (rewrite length_drop; lia). apply take_drop.
Qed.

Lemma row_sum_app (l1 l2 : list Z) :
  row_sum (l1 ++ l2) = (row_sum l1 + row_sum l2)%Z.
Proof.
  induction l1 as [|v l1 IH]; [done|]. cbn [app]. rewrite !row_sum_cons, IH. lia.
Qed.

Lemma total_concat (M : matrix) : total M = row_sum (concat M).
Proof.
  unfold total. induction M as [|r M IH]; [done|].
  cbn [map concat]. by rewrite row_sum_cons, row_sum_app, IH.
Qed.

Lemma scale_row_length (count : Z) (r : list Z) :
  length (scale_row count r) = length r.
Proof. unfold scale_row. destruct (row_sum r =? 0)%Z; by rewrite length_map. Qed.

Lemma scaled_joint_shape (J : matrix) (s : list Z) :
  Forall2 (fun j x => length j = length x) J (scaled_joint J s).
Proof.
  apply Forall2_same_length_lookup. unfold scaled_joint.
  split; [by rewrite length_imap|]. intros r j x Hj Hx.
  rewrite list_lookup_imap, Hj in Hx. injection Hx as <-.
  by rewrite scale_row_length.
Qed.

Lemma concat_shape {A B} (J : list (list A)) (X : list (list B)) :
  Forall2 (fun j x => length j = length x) J X ->
  length (concat J) = length (concat X).
Proof.
  induction 1 as [|j x J X Hjx _ IH]; [done|].
  cbn [concat]. rewrite !length_app. lia.
Qed.

(** ** Calibration: the cells add up to the number of examples *)

Lemma Qsum_app (xs ys : list Q) : (Qsum (xs ++ ys) == Qsum xs + Qsum ys)%Q.
Proof.
  induction xs as [|x xs IH]; [simpl; ring|].
  cbn [app]. rewrite !Qsum_cons, IH. ring.
Qed.

Lemma Qsum_concat (X : list (list Q)) (counts : list Z) :
  Forall2 (fun x c => (Qsum x == inject_Z c)%Q) X counts ->
  (Qsum (concat X) == inject_Z (row_sum counts))%Q.
Proof.
  induction 1 as [|x c X counts Hxc _ IH]; [reflexivity|].
  cbn [concat]. rewrite Qsum_app, row_sum_cons, inject_Z_plus, Hxc, IH. reflexivity.
Qed.

(** Before the rounding each row adds up to the number of examples with its
    label. *)
Lemma scaled_row_sums (K : nat) (s : list Z) (psx : list (list num)) (J : matrix) :
  valid_input K s psx -> Forall (Forall finite) psx ->
  confident_joint_K K s psx = Ok J -> square K J ->
  Forall2 (fun x c => (Qsum x == inject_Z c)%Q)
    (scaled_joint J s) (map (label_count s) (seq 0 K)).
Proof.
  intros Hv Hfin HJ [HJlen _]. apply Forall2_same_length_lookup. unfold scaled_joint.
  split; [by rewrite length_imap, length_map, length_seq|].
  intros r x c Hx Hc. rewrite list_lookup_imap in Hx.
  destruct (J !! r) as [jr|] eqn:Ejr; [|done]. injection Hx as <-.
  rewrite list_lookup_fmap in Hc.
  apply lookup_lt_Some in Ejr as Hr. rewrite lookup_seq_lt in Hc by lia.
  injection Hc as <-. rewrite scale_row_sum.
  pose proof (raw_row_sum K s psx J r jr Hv Hfin HJ Ejr) as Hzero.
  destruct (Z.eqb_spec (row_sum jr) 0) as [E|E]; [|reflexivity].
  apply Hzero in E. by rewrite E.
Qed.

(** A row of cells that are floors, or floors plus one, of cells adding up
    to [count]. *)
Lemma rounded_row_near (row : list Z) (x : list Q) (count : Z) :
  Forall2 (fun y x => y = Qfloor x \/ y = (Qfloor x + 1)%Z) row x ->
  (Qsum x == inject_Z count)%Q ->
  (count - Z.of_nat (length row) <= row_sum row <= count + Z.of_nat (length row))%Z.
Proof.
  intros H Hcount.
  assert (Hb : (row_sum (map Qfloor x) <= row_sum row
                <= row_sum (map Qfloor x) + Z.of_nat (length row))%Z).
  { clear Hcount. induction H as [|y x0 row x Hy _ IH]; [simpl; lia|].
    cbn [map length]. rewrite !row_sum_cons. lia. }
  pose proof (Qsum_floor_le x) as Hlo. pose proof (Qsum_floor_ge x) as Hhi.
  rewrite Hcount in Hlo, Hhi. rewrite <- Zle_Qle in Hlo, Hhi.
  apply Forall2_length in H. lia.
Qed.
(** ** The largest entry of a row *)

Lemma max2_cases (x a : Q) :
  (max2 (Fin x) (Fin a) = Fin x \/ max2 (Fin x) (Fin a) = Fin a) /\
  ge (max2 (Fin x) (Fin a)) (Fin x) = true /\
  ge (max2 (Fin x) (Fin a)) (Fin a) = true.
Proof.
  unfold max2. destruct (Qle_bool x a) eqn:E.
  - split; [by right|]. split; [by apply ge_iff, Qle_bool_iff|apply ge_refl].
  - split; [by left|]. split; [apply ge_refl|].
    apply gt_ge. simpl. by rewrite E.
Qed.

Lemma np_max_max (row : list num) (m : num) :
  Forall finite row -> np_max row = Ok m ->
  m ∈ row /\ forall z, z ∈ row -> ge m z = true.
Proof.
  destruct row as [|x l]; [discriminate|]. intros Hfin [= <-].
  revert x Hfin. induction l as [|a l IH]; intros x Hfin.
  - simpl. split; [apply list_elem_of_here|].
    intros z ->%list_elem_of_singleton.
    inversion Hfin as [|? ? Hx _]; subst. apply finite_Fin in Hx as [v ->].
    apply ge_refl.
  - inversion Hfin as [|? ? Hx Hfin']; subst.
    inversion Hfin' as [|? ? Ha Hl]; subst.
    apply finite_Fin in Hx as [vx ->]. apply finite_Fin in Ha as [va ->].
    destruct (max2_cases vx va) as (Hcase & Hgx & Hga).
    cbn [foldl]. destruct (IH (max2 (Fin vx) (Fin va))) as [Hin Hmax].
    { constructor; [|done]. by destruct Hcase as [-> | ->]. }
    split.
    + apply elem_of_cons in Hin as [->|Hin].
      * destruct Hcase as [-> | ->];
          [apply list_elem_of_here|apply list_elem_of_further, list_elem_of_here].
      * by do 2 apply list_elem_of_further.
    + intros z Hz. apply elem_of_cons in Hz as [->|Hz].
      * eapply ge_trans; [|exact Hgx]. apply Hmax, list_elem_of_here.
      * apply elem_of_cons in Hz as [->|Hz].
        -- eapply ge_trans; [|exact Hga]. apply Hmax, list_elem_of_here.
        -- by apply Hmax, list_elem_of_further.
Qed.

(** ** STEP 2 returns on inputs of the right shape *)

Lemma mapM_total_P {A B} (f : A -> result B) (P : B -> Prop) (l : list A) :
  Forall (fun a => exists b, f a = Ok b /\ P b) l ->
  exists bs, mapM f l = Ok bs /\ Forall P bs /\ length bs = length l.
Proof.
  induction 1 as [|a l (b & Hb & HP) _ (bs & IH & HPs & Hlen)]; cbn [mapM].
  - exists []. by repeat split.
  - exists (b :: bs). rewrite Hb, IH. simpl. split; [done|].
    split; [by constructor|by rewrite Hlen].
Qed.

Lemma prune_pair_total (s : list Z) (psx : list (list num)) (psx_k : list num)
  (j : nat) (num2prune : Z) :
  length s = length psx ->
  Forall (fun row => j < length row) psx ->
  length psx_k = length psx ->
  (0 < num2prune <= label_count s j)%Z ->
  exists sel, prune_pair s psx psx_k j num2prune = Ok sel /\ length sel = length s.
Proof.
  intros Hlen Hj Hk [Hpos Hcount]. unfold label_count in Hcount. unfold prune_pair.
  destruct (column_total psx j Hj) as [psx_j Hpj]. rewrite Hpj. simpl.
  apply column_length in Hpj.
  rewrite broadcast2_same by lia. simpl.
  set (margin := zip_with sub psx_k psx_j).
  assert (Hlm : length margin = length s)
    by (unfold margin; rewrite length_zip_with; lia).
  rewrite mask_select_Ok by (by rewrite eq_mask_length). simpl.
  set (sel_m := map fst (List.filter snd (zip margin (eq_mask s j)))).
  assert (Hsel_len : length sel_m = count_true (eq_mask s j)).
  { apply (mask_select_count margin). apply mask_select_Ok.
    by rewrite eq_mask_length. }
  rewrite np_partition_in_bounds by (rewrite length_map; lia). cbn [bind].
  destruct (lookup_lt_is_Some_2 (np_sort (map neg sel_m)) (Z.to_nat (num2prune - 1)))
    as [v Hv].
  { unfold np_sort.
    rewrite (Permutation_length (merge_sort_Permutation np_le _)), length_map. lia. }
  apply index_Ok in Hv.
  replace (py_index (np_sort (map neg sel_m)) (num2prune - 1)) with (Ok v)
    by (rewrite <- Hv, <- py_index_nonneg; f_equal; lia).
  cbn [bind].
  rewrite broadcast2_same by (by rewrite eq_mask_length, length_map).
  eexists. split; [done|].
  rewrite length_zip_with, eq_mask_length, length_map. lia.
Qed.

Lemma noise_step_total (K : nat) (s : list Z) (psx : list (list num))
  (pcm : matrix) (k j : nat) (psx_k : list num) (noise_mask : list bool) :
  valid_prune_counts K s pcm -> k < K -> j < K ->
  length s = length psx ->
  Forall (fun row => j < length row) psx ->
  length psx_k = length psx ->
  length noise_mask = length s ->
  exists mask', noise_step s psx pcm k psx_k noise_mask j = Ok mask' /\
    length mask' = length s.
Proof.
  intros [Hsq Hpcm] Hk Hj Hlen Hrows Hpk Hmask. unfold noise_step.
  destruct (Nat.eqb_spec k j) as [|Hkj]; [by exists noise_mask|].
  pose proof (square_cell K pcm k j Hsq Hk Hj) as Hcell.
  apply cell_Some in Hcell as (r & Hr & Hv).
  apply index_Ok in Hr as Hr', Hv as Hv'. rewrite Hr'. simpl. rewrite Hv'. simpl.
  destruct (Z.ltb_spec 0 (cellZ pcm k j)) as [Hpos|_]; [|by exists noise_mask].
  destruct (prune_pair_total s psx psx_k j (cellZ pcm k j) Hlen Hrows Hpk)
    as (sel & -> & Hsel).
  { split; [done|]. apply (Hpcm k j); [done|]. apply cell_Some. eauto. }
  simpl. rewrite broadcast2_same by lia. eexists. split; [done|].
  rewrite length_zip_with. lia.
Qed.

Lemma noise_loop_total (K : nat) (s : list Z) (psx : list (list num))
  (pcm : matrix) (k : nat) (psx_k : list num) (js : list nat)
  (noise_mask : list bool) :
  valid_prune_counts K s pcm -> k < K -> Forall (fun j => j < K) js ->
  length s = length psx ->
  Forall (fun row => length row = K) psx ->
  length psx_k = length psx ->
  length noise_mask = length s ->
  exists mask', foldM (noise_step s psx pcm k psx_k) noise_mask js = Ok mask' /\
    length mask' = length s.
Proof.
  intros Hpcm Hk Hjs Hlen Hrows Hpk. revert noise_mask.
  induction Hjs as [|j js Hj _ IH]; intros noise_mask Hmask; cbn [foldM].
  - by exists noise_mask.
  - destruct (noise_step_total K s psx pcm k j psx_k noise_mask)
      as (m1 & -> & Hm1); try done.
    { eapply Forall_impl; [exact Hrows|]. simpl. lia. }
    simpl. by apply IH.
Qed.

Lemma noise_mask_of_total (MIN : Z) (K : nat) (s : list Z)
  (psx : list (list num)) (pcm : matrix) (s_counts : list Z) (k : nat) :
  valid_prune_counts K s pcm -> valid_input K s psx ->
  K <= length s_counts -> k < K ->
  exists mask, noise_mask_of MIN K s psx pcm s_counts k = Ok mask /\
    length mask = length s.
Proof.
  intros Hpcm (Hlen & Hs & Hrows) HK Hk. unfold noise_mask_of.
  destruct (column_total psx k) as [psx_k Hpk].
  { eapply Forall_impl; [exact Hrows|]. simpl. lia. }
  rewrite Hpk. simpl. apply column_length in Hpk.
  destruct (lookup_lt_is_Some_2 s_counts k) as [c Hc]; [lia|].
  apply index_Ok in Hc. rewrite Hc. simpl.
  destruct (MIN <? c)%Z.
  - apply (noise_loop_total K); try done.
    + apply Forall_forall. intros j Hj. apply elem_of_seq in Hj. lia.
    + by rewrite length_replicate.
  - eexists. split; [done|]. by rewrite length_replicate.
Qed.

Lemma stack_any_total (n : nat) (masks : list (list bool)) :
  masks <> [] -> Forall (fun m => length m = n) masks ->
  exists m0, stack_any masks = Ok m0 /\ length m0 = n.
Proof.
  destruct masks as [|m ms]; [done|]. intros _ Hall.
  apply Forall_cons in Hall as [Hm Hms]. unfold stack_any.
  assert (E : forallb (fun m' => length m' =? length m) ms = true).
  { apply forallb_forall. intros m' Hin. apply Nat.eqb_eq.
    rewrite Forall_forall in Hms. rewrite Hm. by apply Hms, list_elem_of_In. }
  rewrite E. eexists. split; [done|].
  clear E. revert m Hm. induction Hms as [|m' ms Hm' _ IH]; intros m Hm; [done|].
  cbn [foldl]. apply IH. rewrite length_zip_with. lia.
Qed.

Lemma override_loop_total (s : list Z) (l : list (nat * nat)) (m : list bool) :
  length m = length s -> Forall (fun ip => ip.1 < length s) l ->
  exists m', foldM (override_step s) m l = Ok m' /\ length m' = length s.
Proof.
  intros Hm Hl. revert m Hm.
  induction Hl as [|[i p] l Hi _ IH]; intros m Hm; cbn [foldM].
  - by exists m.
  - simpl in Hi. unfold override_step.
    destruct (lookup_lt_is_Some_2 m i) as [b Hb]; [lia|].
    destruct (lookup_lt_is_Some_2 s i) as [s_i Hs]; [lia|].
    apply index_Ok in Hb, Hs. rewrite Hb. simpl.
    destruct b; [|simpl; by apply IH].
    rewrite Hs. simpl.
    destruct (Z.of_nat p =? s_i)%Z; simpl; apply IH;
      [by rewrite length_insert|done].
Qed.

(** On labels in [0, K), each of them occurring up to [K - 1], a matrix of
    [K > 0] columns and prune counts within the label counts, STEP 2 returns
    a sequence of label errors (possibly empty). *)
Lemma label_errors_idx_total (MIN : Z) (K : nat) (s : list Z)
  (psx : list (list num)) (pcm : matrix) (s_counts : list Z) :
  0 < K -> valid_input K s psx ->
  np_bincount s = Ok s_counts -> K <= length s_counts ->
  valid_prune_counts K s pcm ->
  exists out, label_errors_idx MIN K s psx pcm = Ok out.
Proof.
  intros HK Hv Hcounts Hbin Hpcm. pose proof Hv as (Hlen & Hs & Hrows).
  unfold label_errors_idx, label_errors_mask, noise_masks_per_class.
  rewrite Hcounts. cbn [bind].
  destruct (mapM_total_P (noise_mask_of MIN K s psx pcm s_counts)
              (fun m => length m = length s) (seq 0 K))
    as (masks & -> & Hmasks & Hmlen).
  { apply Forall_forall. intros k Hk. apply elem_of_seq in Hk.
    apply noise_mask_of_total; try done. lia. }
  simpl. rewrite length_seq in Hmlen.
  destruct (stack_any_total (length s) masks) as (m0 & -> & Hm0); [|done|].
  { intros ->. simpl in Hmlen. lia. }
  simpl.
  destruct (mapM_total_P np_argmax (fun _ => True) psx) as (preds & -> & _ & Hpreds).
  { eapply Forall_impl; [exact Hrows|]. intros row Hrow. simpl in Hrow.
    destruct (np_argmax_total row) as (c & -> & _); [lia|]. eauto. }
  simpl.
  destruct (override_loop_total s (enumerate preds) m0 Hm0) as (mask & -> & Hmask).
  { apply Forall_forall. intros [i p] Hin. apply enumerate_elem in Hin. simpl.
    apply lookup_lt_Some in Hin. lia. }
  simpl. rewrite (mask_select_Ok (seq 0 (length s))) by (by rewrite length_seq).
  simpl. set (idx := map fst (List.filter snd (zip (seq 0 (length s)) mask))).
  assert (Hidx : forall i, i ∈ idx -> mask !! i = Some true).
  { intros i Hi. eapply (mask_select_seq (length s)); [|exact Hi].
    apply mask_select_Ok. by rewrite length_seq. }
  destruct (mapM_total_P (self_conf s psx) (fun _ => True) idx)
    as (sc & -> & _ & Hsc).
  { apply Forall_forall. intros i Hi. apply Hidx, lookup_lt_Some in Hi.
    destruct (lookup_lt_is_Some_2 psx i) as [row Hrow]; [lia|].
    destruct (lookup_lt_is_Some_2 s i) as [l Hl]; [lia|].
    assert (0 <= l < Z.of_nat K)%Z by (rewrite Forall_lookup in Hs; by apply (Hs i)).
    assert (length row = K) by (rewrite Forall_lookup in Hrows; by apply (Hrows i)).
    destruct (lookup_lt_is_Some_2 row (Z.to_nat l)) as [x Hx]; [lia|].
    exists x. split; [|done]. unfold self_conf.
    apply index_Ok in Hrow, Hl, Hx. rewrite Hrow, Hl. cbn [bind].
    by rewrite <- (Z2Nat.id l), py_index_nonneg by lia. }
  simpl. rewrite (mask_select_Ok psx) by lia. simpl.
  set (rows := map fst (List.filter snd (zip psx mask))).
  destruct (mapM_total_P np_max (fun _ => True) rows) as (maxes & -> & _ & Hmaxes).
  { eapply Forall_impl; [apply mask_select_Forall, Hrows|].
    intros [|x row] Hrow; simpl in Hrow; [lia|]. simpl. eauto. }
  simpl.
  assert (Hcount : length idx = length rows).
  { pose proof (mask_select_count (seq 0 (length s)) mask idx) as H1.
    pose proof (mask_select_count psx mask rows) as H2.
    rewrite mask_select_Ok in H1 by (by rewrite length_seq).
    rewrite mask_select_Ok in H2 by lia.
    rewrite (H1 eq_refl), (H2 eq_refl). done. }
  rewrite broadcast2_same by lia. simpl.
  apply mapM_total.
  destruct (np_argsort_sorted (zip_with sub sc maxes)) as (sp & -> & _ & Hsp).
  apply Forall_fmap, Forall_forall. intros [m p] Hin. simpl.
  rewrite Forall_forall in Hsp. specialize (Hsp _ Hin). simpl in Hsp.
  apply lookup_lt_Some in Hsp. rewrite length_zip_with in Hsp.
  destruct (lookup_lt_is_Some_2 idx p) as [i Hi]; [lia|].
  exists i. by apply index_Ok.
Qed.

(** ** STEP 0: the labels after the loop *)

Lemma other_label (v r : nat) :
  v < 10 -> r < 9 ->
  exists w, delete v (py_range 10) !! r = Some (Z.of_nat w) /\ w <> v /\ w < 10.
Proof.
  intros Hv Hr. unfold py_range. destruct (decide (r < v)) as [Hlt|Hge].
  - exists r. rewrite list_lookup_delete_lt by done.
    rewrite list_lookup_fmap, lookup_seq_lt by lia. split; [done|lia].
  - exists (S r). rewrite list_lookup_delete_ge by lia.
    rewrite list_lookup_fmap, lookup_seq_lt by lia. split; [done|lia].
Qed.

Lemma corrupt_step_spec (s : list Z) (i r : nat) (v : Z) :
  s !! i = Some v -> (0 <= v < 10)%Z -> r < 9 ->
  exists w, corrupt_step s (i, r) = Ok (<[i := w]> s) /\ w <> v /\ (0 <= w < 10)%Z.
Proof.
  intros Hi Hv Hr.
  destruct (other_label (Z.to_nat v) r ltac:(lia) Hr) as (w & Hw & Hne & Hlt).
  exists (Z.of_nat w). split; [|lia]. unfold corrupt_step, np_delete.
  apply index_Ok in Hi. rewrite Hi. cbn [bind].
  assert (Hl : length (py_range 10) = 10) by reflexivity.
  rewrite Hl, <- (Z2Nat.id v), wrap_nonneg by lia. cbn [bind].
  apply index_Ok in Hw. by rewrite Hw.
Qed.

Lemma corrupt_loop_spec (y : list Z) (choices : list (nat * nat)) (s0 : list Z) :
  length s0 = length y -> Forall (fun l => (0 <= l < 10)%Z) s0 ->
  (forall i, i ∈ map fst choices -> s0 !! i = y !! i) ->
  NoDup (map fst choices) ->
  Forall (fun ir => ir.1 < length y /\ ir.2 < 9) choices ->
  exists s, foldM corrupt_step s0 choices = Ok s /\
    length s = length y /\ Forall (fun l => (0 <= l < 10)%Z) s /\
    forall i, (i ∈ map fst choices ->
                 exists a b, s !! i = Some a /\ y !! i = Some b /\ a <> b) /\
              (i ∉ map fst choices -> s !! i = s0 !! i).
Proof.
  revert s0. induction choices as [|[i0 r] choices IH];
    intros s0 Hlen Hs0 Hagree Hnd Hch; cbn [foldM].
  - exists s0. repeat split; try done. by intros ?%elem_of_nil.
  - cbn [map fst] in *. apply NoDup_cons in Hnd as [Hi0 Hnd].
    apply Forall_cons in Hch as [[Hi0y Hr] Hch]. simpl in Hi0y, Hr.
    destruct (lookup_lt_is_Some_2 y i0 Hi0y) as [v Hv].
    assert (Hs0i : s0 !! i0 = Some v).
    { rewrite Hagree; [done|]. apply list_elem_of_here. }
    assert (Hv10 : (0 <= v < 10)%Z).
    { rewrite Forall_lookup in Hs0. by apply (Hs0 i0). }
    destruct (corrupt_step_spec s0 i0 r v Hs0i Hv10 Hr) as (w & -> & Hw & Hw10).
    simpl. destruct (IH (<[i0 := w]> s0)) as (s & -> & Hlens & Hs & Hfinal).
    + by rewrite length_insert.
    + by apply Forall_insert.
    + intros i Hi. rewrite list_lookup_insert_ne by (intros ->; done).
      apply Hagree. by apply list_elem_of_further.
    + done.
    + done.
    + exists s. split; [done|]. split; [done|]. split; [done|].
      intros i. split.
      * intros Hi. apply elem_of_cons in Hi as [->|Hi]; [|by apply Hfinal].
        destruct (Hfinal i0) as [_ Hout]. exists w, v.
        rewrite (Hout Hi0). rewrite list_lookup_insert_eq by lia. done.
      * intros Hi. apply not_elem_of_cons in Hi as [Hne Hi].
        destruct (Hfinal i) as [_ Hout]. rewrite (Hout Hi).
        by rewrite list_lookup_insert_ne.
Qed.

Lemma ne_mask_lookup (s y : list Z) (i : nat) :
  ne_mask s y !! i = Some true <->
  exists a b, s !! i = Some a /\ y !! i = Some b /\ a <> b.
Proof.
  unfold ne_mask. rewrite lookup_zip_with_Some. split.
  - intros (a & b & E & Ha & Hb). exists a, b. split; [done|]. split; [done|].
    destruct (Z.eqb_spec a b); [done|done].
  - intros (a & b & Ha & Hb & Hne). exists a, b.
    destruct (Z.eqb_spec a b); done.
Qed.

Lemma eq_ne_count (s y : list Z) :
  length s = length y ->
  count_true (zip_with Z.eqb s y) + count_true (ne_mask s y) = length s.
Proof.
  unfold ne_mask. revert y. induction s as [|a s IH]; intros [|b y] Hlen; try done.
  cbn [zip_with length]. rewrite !count_true_cons.
  simpl in Hlen. specialize (IH y ltac:(lia)). destruct (a =? b)%Z; simpl; lia.
Qed.

Lemma selected_sorted (mask : list bool) (o : nat) :
  StronglySorted lt (map fst (List.filter snd (zip (seq o (length mask)) mask))).
Proof.
  revert o. induction mask as [|b mask IH]; intros o; [constructor|].
  cbn [length seq zip_with List.filter snd]. destruct b; cbn [map fst]; [|apply IH].
  constructor; [apply IH|]. apply Forall_forall. intros i Hi.
  apply selected_positions in Hi as [Hle _]. lia.
Qed.

Lemma StronglySorted_lt_NoDup (l : list nat) : StronglySorted lt l -> NoDup l.
Proof.
  induction 1 as [|x l _ IH Hx]; constructor; [|done].
  intros Hin. rewrite Forall_forall in Hx. specialize (Hx x Hin). lia.
Qed.

(** ** The scores *)

Lemma count_if_filter {A} (P : A -> Prop) `{!forall x, Decision (P x)} (l : list A) :
  count_if (fun x => bool_decide (P x)) l = length (filter P l).
Proof.
  induction l as [|x l IH]; [done|]. rewrite count_if_cons, filter_cons.
  destruct (decide (P x)) as [HP|HP].
  - rewrite bool_decide_eq_true_2 by done. simpl. by rewrite IH.
  - rewrite bool_decide_eq_false_2 by done. by rewrite IH.
Qed.

Lemma count_if_le {A} (f : A -> bool) (l : list A) : count_if f l <= length l.
Proof.
  induction l as [|x l IH]; [done|]. rewrite count_if_cons. simpl.
  destruct (f x); lia.
Qed.

Lemma hits_comm (xs ys : list nat) :
  NoDup xs -> NoDup ys -> hits xs ys = hits ys xs.
Proof.
  intros Hx Hy. unfold hits. rewrite !count_if_filter.
  apply Permutation_length, NoDup_Permutation; try by apply NoDup_filter.
  intros e. rewrite !list_elem_of_filter. tauto.
Qed.

Lemma hits_all (xs ys : list nat) :
  hits xs ys = length xs <-> forall e, e ∈ xs -> e ∈ ys.
Proof.
  unfold hits. induction xs as [|x xs IH].
  - split; [by intros _ e ?%elem_of_nil|done].
  - rewrite count_if_cons. cbn [length].
    pose proof (count_if_le (fun e => bool_decide (e ∈ ys)) xs) as Hle.
    destruct (decide (x ∈ ys)) as [Hin|Hin].
    + rewrite bool_decide_eq_true_2 by done. split.
      * intros H e He. apply elem_of_cons in He as [->|He]; [done|].
        apply IH; [lia|done].
      * intros H. f_equal. apply IH. intros e He. by apply H, list_elem_of_further.
    + rewrite bool_decide_eq_false_2 by done. split; [lia|].
      intros H. exfalso. apply Hin, H, list_elem_of_here.
Qed.

Lemma true_div_unit (a b : nat) (x : Q) :
  a <= b -> true_div a b = Quot x -> (0 <= x <= 1)%Q.
Proof.
  unfold true_div. intros Hab. destruct (Nat.eqb_spec b 0) as [|Hb]; [done|].
  intros [= <-].
  assert (Hpos : (0 < inject_Z (Z.of_nat b))%Q).
  { change 0%Q with (inject_Z 0). rewrite <- Zlt_Qlt. lia. }
  split.
  - apply Qle_shift_div_l; [done|]. rewrite Qmult_0_l.
    change 0%Q with (inject_Z 0). rewrite <- Zle_Qle. lia.
  - apply Qle_shift_div_r; [done|]. rewrite Qmult_1_l.
    rewrite <- Zle_Qle. lia.
Qed.
(** ** STEP 2: where a flag comes from *)

Lemma prune_pair_Ok_inv (s : list Z) (psx : list (list num)) (psx_k : list num)
  (j : nat) (num2prune : Z) (sel : list bool) :
  length psx_k = length psx ->
  prune_pair s psx psx_k j num2prune = Ok sel ->
  exists psx_j p v,
    column psx j = Ok psx_j /\ length s = length psx /\
    (0 < num2prune -> p = Z.to_nat (num2prune - 1))%Z /\
    np_sort (map neg (map fst (List.filter snd
               (zip (zip_with sub psx_k psx_j) (eq_mask s j)))))
      !! p = Some v /\
    sel = zip_with andb (eq_mask s j)
            (map (fun m => ge m (neg v)) (zip_with sub psx_k psx_j)).
Proof.
  intros Hk H. unfold prune_pair in H.
  apply bind_Ok in H as (psx_j & Hpj & H).
  pose proof (column_length _ _ _ Hpj) as Hlj.
  rewrite broadcast2_same in H by lia. cbn [bind] in H.
  apply bind_Ok in H as (sel_m & Hsel & H).
  pose proof (mask_select_length _ _ _ Hsel) as Hlm.
  rewrite length_zip_with, eq_mask_length in Hlm.
  rewrite mask_select_Ok in Hsel by (rewrite length_zip_with, eq_mask_length; lia).
  injection Hsel as <-.
  apply bind_Ok in H as (part & Hpart & H).
  apply np_partition_Ok in Hpart as ->.
  apply bind_Ok in H as (v & Hv & H). apply py_index_Ok in Hv as (p & Hp & Hv).
  rewrite broadcast2_same in H
    by (rewrite eq_mask_length, length_map, length_zip_with; lia).
  injection H as <-. exists psx_j, p, v. repeat split; try done; [lia|].
  intros Hpos. apply wrap_Ok in Hp as [Hlt [E|E]]; [lia|].
  apply lookup_lt_Some in Hv. lia.
Qed.

Lemma noise_step_flag (s : list Z) (psx : list (list num)) (pcm : matrix)
  (k j : nat) (psx_k : list num) (mask mask' : list bool) :
  length psx_k = length psx -> length mask = length psx ->
  noise_step s psx pcm k psx_k mask j = Ok mask' ->
  length mask' = length psx /\
  forall i, mask' !! i = Some true ->
    mask !! i = Some true \/
    (k <> j /\ s !! i = Some (Z.of_nat j) /\
     exists n, cell pcm k j = Some n /\ (0 < n)%Z).
Proof.
  intros Hk Hm H. unfold noise_step in H.
  destruct (Nat.eqb_spec k j) as [|Hkj]; [injection H as <-; auto|].
  apply bind_Ok in H as (r & Hr & H). apply bind_Ok in H as (n & Hn & H).
  apply index_Ok in Hr, Hn.
  destruct (Z.ltb_spec 0 n) as [Hpos|_]; [|injection H as <-; auto].
  apply bind_Ok in H as (sel & Hsel & H).
  apply prune_pair_Ok_inv in Hsel as (psx_j & p & v & Hpj & Hlen & _ & _ & ->);
    [|done].
  apply column_length in Hpj.
  rewrite broadcast2_same in H
    by (rewrite length_zip_with, eq_mask_length, length_map, length_zip_with; lia).
  injection H as <-. split.
  { rewrite !length_zip_with, eq_mask_length, length_map, length_zip_with. lia. }
  intros i Hi. apply lookup_zip_with_Some in Hi as (a & b & E & Ha & Hb).
  destruct a; [by left|]. right. simpl in E. subst b.
  apply lookup_zip_with_Some in Hb as (c & d & E & Hc & _).
  destruct c; [|done]. apply eq_mask_lookup in Hc.
  split; [done|]. split; [done|]. exists n. split; [|done].
  apply cell_Some. eauto.
Qed.

Lemma noise_loop_flag (s : list Z) (psx : list (list num)) (pcm : matrix)
  (k : nat) (psx_k : list num) (js : list nat) (mask mask' : list bool) :
  length psx_k = length psx -> length mask = length psx ->
  foldM (noise_step s psx pcm k psx_k) mask js = Ok mask' ->
  forall i, mask' !! i = Some true ->
    mask !! i = Some true \/
    exists j n, j ∈ js /\ k <> j /\ s !! i = Some (Z.of_nat j) /\
      cell pcm k j = Some n /\ (0 < n)%Z.
Proof.
  intros Hk. revert mask. induction js as [|j js IH]; intros mask Hm H i Hi;
    cbn [foldM] in H.
  - injection H as <-. by left.
  - apply bind_Ok in H as (m1 & H1 & H2).
    apply noise_step_flag in H1 as [Hl1 Hf1]; [|done|done].
    destruct (IH m1 Hl1 H2 i Hi) as [Hm1|(j' & n & Hj' & ? & ? & ? & ?)].
    + destruct (Hf1 i Hm1) as [?|(? & ? & n & ? & ?)]; [by left|].
      right. exists j, n. split; [apply list_elem_of_here|done].
    + right. exists j', n. split; [by apply list_elem_of_further|done].
Qed.

Lemma noise_mask_of_flag (MIN : Z) (K : nat) (s : list Z)
  (psx : list (list num)) (pcm : matrix) (s_counts : list Z) (k : nat)
  (mask : list bool) (i : nat) :
  np_bincount s = Ok s_counts ->
  noise_mask_of MIN K s psx pcm s_counts k = Ok mask ->
  mask !! i = Some true ->
  (MIN < label_count s k)%Z /\
  exists j n, j < K /\ k <> j /\ s !! i = Some (Z.of_nat j) /\
    cell pcm k j = Some n /\ (0 < n)%Z.
Proof.
  unfold noise_mask_of. intros Hcounts H Hi.
  apply bind_Ok in H as (psx_k & Hk & H). apply column_length in Hk.
  apply bind_Ok in H as (c & Hc & H).
  apply index_Ok in Hc. apply (np_bincount_lookup s s_counts k c Hcounts) in Hc as ->.
  destruct (Z.ltb_spec MIN (label_count s k)) as [HMIN|_].
  - split; [done|].
    destruct (noise_loop_flag s psx pcm k psx_k (seq 0 K)
                (replicate (length psx) false) mask Hk
                (length_replicate _ _) H i Hi)
      as [Hrep|(j & n & Hj & ?)].
    + by apply lookup_replicate in Hrep as [[=] _].
    + exists j, n. apply elem_of_seq in Hj. split; [lia|done].
  - injection H as <-. by apply lookup_replicate in Hi as [[=] _].
Qed.

Lemma any_flag (ms : list (list bool)) (m : list bool) (i : nat) :
  foldl (zip_with orb) m ms !! i = Some true ->
  exists m', m' ∈ m :: ms /\ m' !! i = Some true.
Proof.
  revert m. induction ms as [|m1 ms IH]; intros m H; cbn [foldl] in H.
  - exists m. split; [apply list_elem_of_here|done].
  - destruct (IH _ H) as (m' & Hin & Hm').
    apply elem_of_cons in Hin as [->|Hin].
    + apply lookup_zip_with_Some in Hm' as (a & b & E & Ha & Hb).
      destruct a.
      * exists m. split; [apply list_elem_of_here|done].
      * simpl in E. subst b. exists m1.
        split; [apply list_elem_of_further, list_elem_of_here|done].
    + exists m'. split; [by do 2 apply list_elem_of_further|done].
Qed.

Lemma label_errors_mask_flag (MIN : Z) (K : nat) (s : list Z)
  (psx : list (list num)) (pcm : matrix) (mask : list bool) (i : nat) :
  label_errors_mask MIN K s psx pcm = Ok mask -> mask !! i = Some true ->
  flaggable MIN K s pcm i.
Proof.
  intros H Hi.
  apply label_errors_mask_Ok in H as (masks & m0 & preds & Hmasks & Hm0 & _ & H).
  apply override_loop_mono in H as [_ Hmono]. apply Hmono in Hi.
  unfold stack_any in Hm0. destruct masks as [|m ms]; [done|].
  destruct (forallb _ ms); [|done]. injection Hm0 as <-.
  apply any_flag in Hi as (m' & Hin & Hm').
  unfold noise_masks_per_class in Hmasks.
  apply bind_Ok in Hmasks as (s_counts & Hcounts & Hmasks). apply mapM_Ok in Hmasks.
  apply list_elem_of_lookup in Hin as [k Hk].
  destruct (Forall2_lookup_r _ _ _ _ _ Hmasks Hk) as (k' & Hk' & Hmask).
  apply lookup_seq in Hk' as [-> Hlt]. simpl in Hmask.
  destruct (noise_mask_of_flag MIN K s psx pcm s_counts k m' i Hcounts Hmask Hm')
    as (HMIN & j & n & Hj & Hkj & Hs & Hcell & Hn).
  exists j, k, n. repeat split; done.
Qed.

(** ** STEP 2: the result is the flagged positions, reordered *)

Lemma np_argsort_Permutation (a : list num) : np_argsort a ≡ₚ seq 0 (length a).
Proof.
  unfold np_argsort. rewrite (merge_sort_Permutation key_le).
  change (map snd (zip a (seq 0 (length a)))) with ((zip a (seq 0 (length a))).*2).
  rewrite snd_zip; [done|]. by rewrite length_seq.
Qed.

Lemma reindex_Permutation (idx perm out : list nat) :
  perm ≡ₚ seq 0 (length idx) -> mapM (index idx) perm = Ok out -> out ≡ₚ idx.
Proof.
  intros Hperm H. apply mapM_Ok in H.
  assert (E : out = map (fun p => default 0 (idx !! p)) perm).
  { clear Hperm. induction H as [|p i perm' out' Hp _ IH]; [done|].
    apply index_Ok in Hp. cbn [map]. rewrite Hp. simpl. f_equal.
    apply IH. }
  rewrite E, Hperm. apply eq_subrelation; [apply _|].
  apply list_eq. intros t. rewrite list_lookup_fmap.
  destruct (idx !! t) as [i|] eqn:Et.
  - rewrite lookup_seq_lt by (by eapply lookup_lt_Some). simpl. by rewrite Et.
  - apply lookup_ge_None in Et. by rewrite lookup_seq_ge.
Qed.

Lemma label_errors_idx_Permutation (MIN : Z) (K : nat) (s : list Z)
  (psx : list (list num)) (pcm : matrix) (out : list nat) :
  label_errors_idx MIN K s psx pcm = Ok out ->
  exists mask idx,
    label_errors_mask MIN K s psx pcm = Ok mask /\
    mask_select (seq 0 (length s)) mask = Ok idx /\
    out ≡ₚ idx.
Proof.
  intros H.
  apply label_errors_idx_Ok in H
    as (mask & idx & sc & rows & maxes & margin
        & Hmask & Hidx & Hsc & Hrows & Hmaxes & Hmargin & Hout).
  exists mask, idx. split; [done|]. split; [done|].
  apply (reindex_Permutation idx (np_argsort margin)); [|done].
  rewrite np_argsort_Permutation.
  pose proof (mask_select_count _ _ _ Hidx) as H1.
  pose proof (mask_select_count _ _ _ Hrows) as H2.
  apply mapM_Ok, Forall2_length in Hsc. apply mapM_Ok, Forall2_length in Hmaxes.
  assert (El : length sc = length maxes) by congruence.
  rewrite (broadcast2_same sub sc maxes El) in Hmargin. injection Hmargin as <-.
  rewrite length_zip_with.
  by replace (length sc `min` length maxes) with (length idx) by lia.
Qed.

(** ** STEP 2: the margins of the ranking *)

Lemma margin_of_finite (s : list Z) (psx : list (list num)) (i : nat) (m : num) :
  Forall (Forall finite) psx -> margin_of s psx i = Ok m -> finite m.
Proof.
  intros Hfin H. unfold margin_of in H.
  apply bind_Ok in H as (sc & Hsc & H). apply bind_Ok in H as (row & Hrow & H).
  apply bind_Ok in H as (mx & Hmx & H). injection H as <-.
  apply index_Ok in Hrow. rewrite Forall_lookup in Hfin.
  specialize (Hfin i row Hrow). apply sub_finite.
  - unfold self_conf in Hsc. apply bind_Ok in Hsc as (row' & Hrow' & Hsc).
    apply index_Ok in Hrow'. assert (row' = row) as -> by congruence.
    apply bind_Ok in Hsc as (s_i & _ & Hsc).
    apply py_index_Ok in Hsc as (p & _ & Hp).
    rewrite Forall_lookup in Hfin. by apply (Hfin p).
  - destruct (np_max_max row mx Hfin Hmx) as [Hin _].
    rewrite Forall_forall in Hfin. by apply Hfin.
Qed.
(** ** Properties of STEP 1 *)

(** C1. Under the shapes STEP 1 expects, the confident joint is computed, it
    is [K] x [K], and its cell [(a, b)] is the number of examples with label
    [a] whose confident set is [{b}], or has several members while [b] is
    the arg-max of the example's row; an example with an empty confident set
    counts nowhere.  The test is inclusive: a probability equal to
    [thr[k] - eps] puts [k] in the confident set.  The arg-max is an index
    of a largest entry of the row. *)
Theorem confident_joint_counts (K : nat) (s : list Z) (psx : list (list num)) :
  valid_input K s psx ->
  exists thr J,
    thresholds s psx K = Ok thr /\
    confident_joint_K K s psx = Ok J /\
    square K J /\
    (forall a b, a < K -> b < K ->
       cell J a b
       = Some (Z.of_nat (count_if (counts_for s thr a b) (enumerate psx)))) /\
    (forall row k t,
       thr !! k = Some (Fin t) -> row !! k = Some (sub (Fin t) eps) ->
       k ∈ confident_set thr row) /\
    (forall row c, Forall finite row -> np_argmax row = Ok c ->
       exists y, row !! c = Some y /\ forall x, x ∈ row -> ge y x = true).
Proof.
  intros Hv. pose proof Hv as (Hlen & Hs & Hrows).
  destruct (thresholds_total K s psx Hlen) as (thr & Hthr & Hthrlen).
  { eapply Forall_impl; [exact Hrows|]. simpl. lia. }
  destruct (joint_loop_spec K s thr (enumerate psx) (zeros K))
    as (J & HJ & Hsq & Hcell);
    [apply zeros_square|done|by apply valid_enumerate|].
  exists thr, J. split; [done|]. split.
  { unfold confident_joint_K. rewrite Hthr. exact HJ. }
  split; [done|]. split; [|split].
  - intros a b Ha Hb. rewrite (square_cell K) by done.
    rewrite Hcell, zeros_cellZ. done.
  - intros row k t Ht Hr. unfold confident_set.
    apply list_elem_of_In, List.filter_In. split.
    + apply in_seq. apply lookup_lt_Some in Ht. lia.
    + unfold confident. rewrite Hr, Ht. apply ge_refl.
  - apply np_argmax_max.
Qed.

Lemma confident_joint_counts_witness :
  exists thr J,
    thresholds s_demo psx_demo 2 = Ok thr /\
    confident_joint_K 2 s_demo psx_demo = Ok J /\
    square 2 J /\
    (forall a b, a < 2 -> b < 2 ->
       cell J a b
       = Some (Z.of_nat (count_if (counts_for s_demo thr a b) (enumerate psx_demo)))) /\
    (forall row k t,
       thr !! k = Some (Fin t) -> row !! k = Some (sub (Fin t) eps) ->
       k ∈ confident_set thr row) /\
    (forall row c, Forall finite row -> np_argmax row = Ok c ->
       exists y, row !! c = Some y /\ forall x, x ∈ row -> ge y x = true).
Proof.
  apply (confident_joint_counts 2 s_demo psx_demo).
  split; [reflexivity|]. split; repeat constructor; lia.
Defined.

(** The description's scenario, run: thresholds 0.74 and 0.9, four examples
    counted in cell (0, 0), example 4 in cell (0, 1). *)
Example confident_joint_demo :
  confident_joint s_demo psx_demo = Ok [[4; 1]; [0; 5]]%Z.
Proof. vm_compute. reflexivity. Qed.

(** C7, as stated, fails: with labels [0; 2] the notebook takes [K = 2], no
    example has label 1, and the threshold of class 1 is NaN, not 0. *)
Lemma absent_class_threshold_not_zero :
  length (np_unique s_gap) = 2 /\
  (1%Z ∉ s_gap) /\
  thresholds s_gap psx_gap 2 = Ok [q 9 10; NaN] /\
  ~ (exists thr z, thresholds s_gap psx_gap 2 = Ok thr /\
       thr !! 1 = Some (Fin z) /\ (z == 0)%Q).
Proof.
  split; [reflexivity|]. split.
  { intros H. repeat (apply elem_of_cons in H as [H|H]; [discriminate|]).
    by apply elem_of_nil in H. }
  assert (H : thresholds s_gap psx_gap 2 = Ok [q 9 10; NaN])
    by (vm_compute; reflexivity).
  split; [exact H|]. intros (thr & z & Hthr & Hz & _).
  rewrite H in Hthr. injection Hthr as <-. discriminate Hz.
Qed.

(** C7, amended. When the shapes agree and no example has label [k], the
    thresholds are computed without an exception, the threshold of class [k]
    is NaN (the mean of an empty slice), and [k] is in the confident set of
    no row. *)
Theorem absent_class_threshold (K : nat) (s : list Z) (psx : list (list num))
  (k : nat) :
  length s = length psx -> Forall (fun row => K <= length row) psx ->
  k < K -> Z.of_nat k ∉ s ->
  exists thr, thresholds s psx K = Ok thr /\
    thr !! k = Some NaN /\
    forall row, k ∉ confident_set thr row.
Proof.
  intros Hlen Hrows Hk Hs.
  destruct (thresholds_total K s psx Hlen Hrows) as (thr & Hthr & _).
  exists thr. split; [done|].
  destruct (thresholds_lookup K s psx thr k Hthr Hk) as (t & Ht & Hval).
  destruct (threshold_total s psx k Hlen) as (c & _ & Hval').
  { eapply Forall_impl; [exact Hrows|]. simpl. lia. }
  rewrite Hval' in Hval. rewrite filter_eq_mask_absent in Hval by done.
  injection Hval as <-. split; [exact Ht|].
  intros row Hin. unfold confident_set in Hin.
  apply list_elem_of_In, List.filter_In in Hin as [_ Hc].
  unfold confident in Hc. rewrite Ht in Hc.
  destruct (row !! k) as [p|]; [|discriminate].
  simpl in Hc. by rewrite ge_NaN_r in Hc.
Qed.

Lemma absent_class_threshold_witness :
  exists thr, thresholds s_gap psx_gap 2 = Ok thr /\
    thr !! 1 = Some NaN /\
    forall row, 1 ∉ confident_set thr row.
Proof.
  apply (absent_class_threshold 2 s_gap psx_gap 1).
  - reflexivity.
  - repeat constructor.
  - lia.
  - intros H. repeat (apply elem_of_cons in H as [H|H]; [discriminate|]).
    by apply elem_of_nil in H.
Defined.

(** C8, as stated, fails: STEP 1 returns a joint for a label outside
    [0, K) (label 2 with [K = 2], skipped; label -1 with [K = 2], counted in
    row 1) and for a probability that is NaN. *)
Lemma invalid_input_not_rejected :
  (length (np_unique s_gap) = 2 /\ s_gap !! 1 = Some 2%Z /\
   confident_joint s_gap psx_gap = Ok [[1; 0]; [0; 0]]%Z) /\
  (length (np_unique s_neg) = 2 /\ s_neg !! 1 = Some (-1)%Z /\
   confident_joint s_neg psx_neg = Ok [[1; 0]; [1; 0]]%Z) /\
  (psx_nan !! 0 = Some [q 9 10; NaN] /\
   confident_joint s_nan psx_nan = Ok [[1; 0]; [0; 1]]%Z).
Proof. repeat split; vm_compute; reflexivity. Qed.

(** C8, amended. STEP 1 checks nothing before it computes.  A label vector
    and a probability matrix of different lengths raise numpy's IndexError.
    A label is used as it is to index the rows of the joint: an example
    whose label is below [-K] or at least [K] raises IndexError if its
    confident set is not empty and is skipped otherwise; an example whose
    label [l] is from [-K] to [-1] is counted, without an exception, in row
    [K + l].  With the shapes right and the labels in [0, K) the joint is
    returned, whether or not the probabilities are finite. *)
Theorem no_input_validation :
  (forall s psx, length s <> length psx ->
     confident_joint s psx = Raise IndexError) /\
  (forall K s thr J i row l,
     square K J -> length thr = K -> length row = K ->
     s !! i = Some l -> (l < - Z.of_nat K \/ Z.of_nat K <= l)%Z ->
     joint_step s thr J (i, row)
     = if decide (confident_set thr row = []) then Ok J else Raise IndexError) /\
  (forall K s thr J i row l,
     square K J -> length thr = K -> length row = K ->
     s !! i = Some l -> (- Z.of_nat K <= l < 0)%Z ->
     exists J', joint_step s thr J (i, row) = Ok J' /\ square K J' /\
       forall a b, cellZ J' a b
         = (cellZ J a b
            + if bool_decide (Z.of_nat a = (Z.of_nat K + l)%Z /\
                              confident_target thr row = Some b)
              then 1 else 0)%Z) /\
  (forall K s psx, valid_input K s psx ->
     exists J, confident_joint_K K s psx = Ok J).
Proof.
  split; [|split; [|split]].
  - intros s psx Hlen. unfold confident_joint, confident_joint_K.
    destruct s as [|l s].
    + destruct psx as [|row psx]; [done|]. reflexivity.
    + pose proof (np_unique_length_pos (l :: s) ltac:(done)) as HK.
      destruct (length (np_unique (l :: s))) as [|K']; [lia|].
      unfold thresholds. cbn [seq mapM].
      by rewrite threshold_mismatch.
  - apply joint_step_out_of_range.
  - intros K s thr J i row l HJ Hthr Hrow Hs Hl.
    destruct (joint_step_row K s thr J i row l _ HJ Hthr Hrow Hs (wrap_neg K l Hl))
      as (J' & HJ' & Hsq & Hcell).
    exists J'. split; [done|]. split; [done|]. intros a b. rewrite Hcell.
    f_equal.
    destruct (decide (a = Z.to_nat (Z.of_nat K + l)
                      /\ confident_target thr row = Some b)) as [[E Hc]|Hn].
    + rewrite !bool_decide_eq_true_2; [done| |done]. split; [lia|done].
    + rewrite !bool_decide_eq_false_2; [done| |done].
      intros [E Hc]. apply Hn. split; [lia|done].
  - intros K s psx Hv. pose proof Hv as (Hlen & Hs & Hrows).
    destruct (thresholds_total K s psx Hlen) as (thr & Hthr & Hthrlen).
    { eapply Forall_impl; [exact Hrows|]. simpl. lia. }
    destruct (joint_loop_spec K s thr (enumerate psx) (zeros K))
      as (J & HJ & _);
      [apply zeros_square|done|by apply valid_enumerate|].
    exists J. unfold confident_joint_K. by rewrite Hthr.
Qed.

Lemma no_input_validation_witness :
  confident_joint [0; 1; 1]%Z psx_gap = Raise IndexError /\
  joint_step s_gap [q 9 10; NaN] (zeros 2) (1, [q 1 10; q 1 10])
  = (if decide (confident_set [q 9 10; NaN] [q 1 10; q 1 10] = [])
     then Ok (zeros 2) else Raise IndexError) /\
  (exists J', joint_step s_neg [q 9 10; NaN] [[1; 0]; [0; 0]]%Z (1, [q 9 10; q 1 10])
              = Ok J' /\ square 2 J' /\
     forall a b, cellZ J' a b
       = (cellZ [[1; 0]; [0; 0]]%Z a b
          + if bool_decide (Z.of_nat a = (Z.of_nat 2 + -1)%Z /\
                            confident_target [q 9 10; NaN] [q 9 10; q 1 10] = Some b)
            then 1 else 0)%Z) /\
  exists J, confident_joint_K 2 s_nan psx_nan = Ok J.
Proof.
  destruct no_input_validation as (H1 & H2 & H3 & H4). split; [|split; [|split]].
  - apply H1. discriminate.
  - apply (H2 2 s_gap _ _ 1 _ 2%Z);
      [apply zeros_square|reflexivity|reflexivity|reflexivity|lia].
  - apply (H3 2 s_neg _ _ 1 _ (-1)%Z);
      [split; [reflexivity|by repeat constructor]|reflexivity|reflexivity
      |reflexivity|lia].
  - apply H4. split; [reflexivity|]. split; repeat constructor; lia.
Defined.
(** ** Properties of STEP 2 *)

(** C9. A true class [k] with at most [MIN] examples gets the all-false
    noise mask, without an exception, whatever the prune counts say. *)
Theorem small_class_mask_empty (MIN : Z) (s : list Z)
  (psx : list (list num)) (pcm : matrix) (s_counts : list Z) (k : nat) :
  np_bincount s = Ok s_counts ->
  k < length (np_unique s) ->
  Forall (fun row => k < length row) psx ->
  (label_count s k <= MIN)%Z ->
  noise_mask_of MIN (length (np_unique s)) s psx pcm s_counts k
  = Ok (replicate (length s) false).
Proof.
  intros Hcounts HK Hk HMIN. unfold noise_mask_of.
  destruct (column_total psx k Hk) as [psx_k ->]. simpl.
  pose proof (np_bincount_class s s_counts k Hcounts HK) as Hc.
  apply index_Ok in Hc. rewrite Hc. simpl.
  destruct (Z.ltb_spec MIN (label_count s k)); [lia|done].
Qed.

Lemma small_class_mask_empty_witness :
  noise_mask_of 5 (length (np_unique s_demo)) s_demo psx_demo
    [[4; 0]; [1; 5]]%Z [5; 5]%Z 1
  = Ok (replicate (length s_demo) false).
Proof.
  apply (small_class_mask_empty 5 s_demo psx_demo _ _ 1).
  - reflexivity.
  - vm_compute. lia.
  - repeat constructor.
  - vm_compute. discriminate.
Defined.

(** C10. When a prune count [num2prune > 0] of a pair (k, j), [k <> j], of
    a class [k] with more than [MIN] examples exceeds the number of examples
    with label [j], STEP 2 raises instead of returning label errors.  With
    the shapes right the selection of the pair raises the ValueError of
    [np.partition] when some example has label [j]; when none has,
    [np.partition] returns the empty array it is given and the index
    [num2prune - 1] into it raises IndexError. *)
Theorem prune_count_beyond_label_count (MIN : Z) (K : nat) (s : list Z)
  (psx : list (list num)) (pcm : matrix) (k j : nat) (num2prune : Z) :
  k < K -> j < K -> k <> j ->
  (MIN < label_count s k)%Z ->
  cell pcm k j = Some num2prune -> (0 < num2prune)%Z ->
  (label_count s j < num2prune)%Z ->
  (exists e, label_errors_idx MIN K s psx pcm = Raise e) /\
  (length s = length psx ->
   Forall (fun row => j < length row) psx ->
   forall psx_k, column psx k = Ok psx_k ->
     prune_pair s psx psx_k j num2prune
     = Raise (if decide (label_count s j = 0%Z) then IndexError else ValueError)).
Proof.
  intros Hk Hj Hkj HMIN Hcell Hpos Hcount. split.
  - apply (label_errors_idx_Raise MIN K s psx pcm k j num2prune); assumption.
  - intros Hlen Hrows psx_k Hpk.
    apply (prune_pair_beyond s psx psx_k k j num2prune); assumption.
Qed.

Lemma prune_count_beyond_label_count_witness :
  ((exists e, label_errors_idx 1 2 s_demo psx_demo [[4; 0]; [6; 5]]%Z = Raise e) /\
   (length s_demo = length psx_demo ->
    Forall (fun row => 0 < length row) psx_demo ->
    forall psx_k, column psx_demo 1 = Ok psx_k ->
      prune_pair s_demo psx_demo psx_k 0 6
      = Raise (if decide (label_count s_demo 0 = 0%Z)
               then IndexError else ValueError))) /\
  ((exists e, label_errors_idx 0 2 s_gap psx_gap [[1; 1]; [0; 0]]%Z = Raise e) /\
   (length s_gap = length psx_gap ->
    Forall (fun row => 1 < length row) psx_gap ->
    forall psx_k, column psx_gap 0 = Ok psx_k ->
      prune_pair s_gap psx_gap psx_k 1 1
      = Raise (if decide (label_count s_gap 1 = 0%Z)
               then IndexError else ValueError))).
Proof.
  split.
  - apply (prune_count_beyond_label_count 1 2 s_demo psx_demo _ 1 0 6);
      try lia; try reflexivity.
  - apply (prune_count_beyond_label_count 0 2 s_gap psx_gap _ 0 1 1);
      try lia; try reflexivity.
Defined.

(** C6. An example whose arg-max is its label is never among the label
    errors returned; when every example is such, none is returned. *)
Theorem agreeing_examples_never_flagged (MIN : Z) (K : nat) (s : list Z)
  (psx : list (list num)) (pcm : matrix) (out : list nat) :
  label_errors_idx MIN K s psx pcm = Ok out ->
  (forall i row l, i ∈ out -> psx !! i = Some row -> s !! i = Some (Z.of_nat l) ->
     np_argmax row <> Ok l) /\
  ((forall i row l, psx !! i = Some row -> s !! i = Some l ->
      exists c, np_argmax row = Ok c /\ l = Z.of_nat c) ->
   out = []).
Proof.
  intros H.
  apply label_errors_idx_Ok in H
    as (mask & idx & sc & rows & maxes & margin
        & Hmask & Hidx & _ & Hrows & _ & _ & Hout).
  assert (Hflag : forall i row l, i ∈ out -> psx !! i = Some row ->
            s !! i = Some (Z.of_nat l) -> np_argmax row <> Ok l).
  { intros i row l Hin Hrow Hl.
    eapply flagged_disagrees; [exact Hmask| |exact Hrow|exact Hl].
    eapply mask_select_seq; [exact Hidx|]. by eapply out_subset_idx. }
  split; [exact Hflag|]. intros Hagree.
  destruct out as [|i out]; [done|]. exfalso.
  assert (Hin : i ∈ i :: out) by apply list_elem_of_here.
  assert (Hi : mask !! i = Some true).
  { eapply mask_select_seq; [exact Hidx|]. by eapply out_subset_idx. }
  apply mask_select_length in Hidx, Hrows. rewrite length_seq in Hidx.
  apply lookup_lt_Some in Hi.
  destruct (lookup_lt_is_Some_2 psx i) as [row Hrow]; [lia|].
  destruct (lookup_lt_is_Some_2 s i) as [l Hl]; [lia|].
  destruct (Hagree i row l Hrow Hl) as (c & Hc & ->).
  by eapply (Hflag i row c).
Qed.

Lemma agreeing_examples_never_flagged_witness :
  (forall i row l, i ∈ [4] -> psx_demo !! i = Some row ->
     s_demo !! i = Some (Z.of_nat l) -> np_argmax row <> Ok l) /\
  ((forall i row l, psx_demo !! i = Some row -> s_demo !! i = Some l ->
      exists c, np_argmax row = Ok c /\ l = Z.of_nat c) ->
   [4] = []).
Proof.
  apply (agreeing_examples_never_flagged 1 2 s_demo psx_demo [[4; 0]; [1; 5]]%Z).
  vm_compute. reflexivity.
Defined.





(** STEP 2 returns on the description's scenario with one example kept per
    class; what it returns is example 4. *)
Lemma label_errors_idx_total_witness :
  exists out, label_errors_idx 1 2 s_demo psx_demo [[4; 0]; [1; 5]]%Z = Ok out.
Proof.
  apply (label_errors_idx_total 1 2 s_demo psx_demo _ [5; 5]%Z).
  - lia.
  - split; [reflexivity|]. split; repeat constructor; lia.
  - reflexivity.
  - simpl. lia.
  - split; [split; [reflexivity|by repeat constructor]|].
    intros k j n Hkj Hcell.
    destruct k as [|[|k]], j as [|[|j]]; try done;
      vm_compute in Hcell; try discriminate;
      injection Hcell as <-; vm_compute; discriminate.
Defined.

Example label_errors_demo :
  label_errors_idx 1 2 s_demo psx_demo [[4; 0]; [1; 5]]%Z = Ok [4].
Proof. vm_compute. reflexivity. Qed.

(** ** Properties of the calibrated joint *)



(** ** Properties of the floor *)

(** C4, the floor, fails on the code.  Six examples of each of two classes
    share one row, [0.9, 0.1]; the minimum per class is 5.  Whatever prune
    count from 1 to 6 the floor adjustment leaves for true class 0 and noisy
    label 1, the six examples with label 1 tie at the cut and are all
    returned as label errors, so none of them is left, although the class
    has more than 5 examples.  The notebook run from end to end, with the
    floor adjustment of the description, returns the same six. *)
Theorem floor_broken_by_ties :
  (5 < label_count s_flat 1)%Z /\
  Forall (fun b =>
            exists out,
              label_errors_idx 5 2 s_flat psx_flat [[6; b]; [0; 5]]%Z = Ok out /\
              unpruned s_flat out 1 = 0)
    [1; 2; 3; 4; 5; 6]%Z /\
  (exists out,
     find_label_errors 5 s_flat psx_flat = Ok out /\
     unpruned s_flat out 1 = 0).
Proof.
  split; [reflexivity|]. split.
  - repeat constructor; eexists; (split; [vm_compute; reflexivity|]);
      vm_compute; reflexivity.
  - eexists. split; [vm_compute; reflexivity|]. vm_compute. reflexivity.
Qed.

(** ** STEP 1: the rows of the confident joint *)

Lemma row_of_cells (K : nat) (J : matrix) (a : nat) (r : list Z) :
  square K J -> J !! a = Some r -> r = map (cellZ J a) (seq 0 K).
Proof.
  intros [_ Hrows] Hr. rewrite Forall_lookup in Hrows.
  specialize (Hrows a r Hr). simpl in Hrows.
  apply list_eq. intros b. rewrite list_lookup_fmap.
  destruct (r !! b) as [v|] eqn:Eb.
  - apply lookup_lt_Some in Eb as Hb. rewrite lookup_seq_lt by lia. simpl.
    unfold cellZ, cell. by rewrite Hr, Eb.
  - apply lookup_ge_None in Eb. rewrite lookup_seq_ge by lia. done.
Qed.

Lemma sum_count_swap {A B} (f : B -> A -> bool) (g : A -> bool) (bs : list B)
  (l : list A) :
  Forall (fun x => row_sum (map (fun b => if f b x then 1%Z else 0%Z) bs)
                   = if g x then 1%Z else 0%Z) l ->
  row_sum (map (fun b => Z.of_nat (count_if (f b) l)) bs)
  = Z.of_nat (count_if g l).
Proof.
  induction 1 as [|x l Hx _ IH].
  - apply row_sum_zero, Forall_forall. intros v Hv.
    by apply list_elem_of_fmap in Hv as (b & -> & _).
  - assert (E : map (fun b => Z.of_nat (count_if (f b) (x :: l))) bs
              = map (fun b => ((if f b x then 1 else 0)
                               + Z.of_nat (count_if (f b) l))%Z) bs).
    { apply map_ext. intros b. rewrite count_if_cons. destruct (f b x); lia. }
    rewrite E, row_sum_map_add, Hx, IH, count_if_cons. destruct (g x); lia.
Qed.

Lemma target_of_set (K : nat) (thr row : list num) :
  length thr = K -> length row = K ->
  (confident_set thr row = [] /\ confident_target thr row = None) \/
  (confident_set thr row <> [] /\
   exists b, confident_target thr row = Some b /\ b < K).
Proof.
  intros Hthr Hrow. unfold confident_target.
  destruct (confident_set thr row) as [|k [|k' ks]] eqn:E.
  - by left.
  - right. split; [done|]. exists k. split; [done|]. rewrite <- Hthr.
    apply confident_set_bound with (row := row). rewrite E. apply list_elem_of_here.
  - right. split; [done|].
    assert (Hk : k < K).
    { rewrite <- Hthr. apply confident_set_bound with (row := row).
      rewrite E. apply list_elem_of_here. }
    destruct (np_argmax_total row) as (c & -> & Hc); [lia|].
    exists c. split; [done|lia].
Qed.

Lemma counts_for_sum (K : nat) (s : list Z) (thr : list num) (a : nat)
  (ir : nat * list num) :
  length thr = K -> length ir.2 = K ->
  row_sum (map (fun b => if counts_for s thr a b ir then 1%Z else 0%Z) (seq 0 K))
  = if counted s thr a ir then 1%Z else 0%Z.
Proof.
  intros Hthr Hrow. unfold counts_for, counted.
  destruct (target_of_set K thr ir.2 Hthr Hrow) as [[E ->]|(Hne & b0 & -> & Hb0)].
  - rewrite (bool_decide_eq_false_2 (_ /\ confident_set _ _ <> [])) by tauto.
    apply row_sum_zero, Forall_forall. intros v Hv.
    apply list_elem_of_fmap in Hv as (b & -> & _).
    by rewrite bool_decide_eq_false_2 by (intros [_ [=]]).
  - destruct (decide (s !! ir.1 = Some (Z.of_nat a))) as [Hs|Hs].
    + rewrite (bool_decide_eq_true_2 (_ /\ confident_set _ _ <> [])) by done.
      assert (E : map (fun b => if bool_decide (s !! ir.1 = Some (Z.of_nat a)
                                                /\ Some b0 = Some b)
                                then 1%Z else 0%Z) (seq 0 K)
                  = map (fun b => if (b0 =? b)%nat then 1%Z else 0%Z) (seq 0 K)).
      { apply map_ext. intros b. destruct (Nat.eqb_spec b0 b) as [->|Hne'].
        - by rewrite bool_decide_eq_true_2.
        - rewrite bool_decide_eq_false_2; [done|]. intros [_ [= ->]]. done. }
      rewrite E, indicator_sum. by rewrite bool_decide_eq_true_2 by lia.
    + rewrite (bool_decide_eq_false_2 (_ /\ confident_set _ _ <> [])) by tauto.
      apply row_sum_zero, Forall_forall. intros v Hv.
      apply list_elem_of_fmap in Hv as (b & -> & _).
      by rewrite bool_decide_eq_false_2 by tauto.
Qed.

Lemma count_if_mono {A} (f g : A -> bool) (l : list A) :
  (forall x, f x = true -> g x = true) -> count_if f l <= count_if g l.
Proof.
  intros H. induction l as [|x l IH]; [done|]. rewrite !count_if_cons.
  specialize (H x). destruct (f x); [rewrite H by done|destruct (g x)]; lia.
Qed.

Lemma label_count_enumerate {A} (s : list Z) (psx : list A) (a : nat) :
  length s = length psx ->
  Z.of_nat (count_if (fun ir : nat * A =>
                        bool_decide (s !! ir.1 = Some (Z.of_nat a)))
              (enumerate psx))
  = label_count s a.
Proof.
  intros Hlen. unfold label_count. f_equal.
  rewrite count_true_indices, eq_mask_length.
  assert (E : count_if (fun ir : nat * A =>
                          bool_decide (s !! ir.1 = Some (Z.of_nat a)))
                (enumerate psx)
              = count_if (fun i => bool_decide (s !! i = Some (Z.of_nat a)))
                  (map fst (enumerate psx))) by (by rewrite count_if_map).
  rewrite E. unfold enumerate.
  change (map fst (zip (seq 0 (length psx)) psx))
    with ((zip (seq 0 (length psx)) psx).*1).
  rewrite fst_zip by (by rewrite length_seq). rewrite Hlen.
  apply count_if_ext, Forall_forall. intros i _.
  destruct (eq_mask s a !! i) as [[|]|] eqn:Em; simpl.
  - apply bool_decide_eq_true_2. by apply eq_mask_lookup.
  - apply bool_decide_eq_false_2. intros Hs. apply eq_mask_lookup in Hs. congruence.
  - apply bool_decide_eq_false_2. intros Hs. apply eq_mask_lookup in Hs. congruence.
Qed.

Lemma row_sum_le (f g : nat -> Z) (l : list nat) :
  Forall (fun k => (f k <= g k)%Z) l ->
  (row_sum (map f l) <= row_sum (map g l))%Z.
Proof.
  induction 1 as [|k l Hk _ IH]; [done|]. cbn [map]. rewrite !row_sum_cons. lia.
Qed.

Lemma map_lookup_seq {A B} (f : A -> B) (d : A) (l : list A) :
  map f l = map (fun i => f (default d (l !! i))) (seq 0 (length l)).
Proof.
  apply list_eq. intros i. rewrite !list_lookup_fmap.
  destruct (l !! i) as [x|] eqn:E.
  - apply lookup_lt_Some in E as Hi. rewrite lookup_seq_lt by done. simpl.
    by rewrite E.
  - apply lookup_ge_None in E as Hi. by rewrite lookup_seq_ge by lia.
Qed.

Lemma joint_rows (K : nat) (s : list Z) (psx : list (list num)) :
  valid_input K s psx ->
  exists thr J,
    thresholds s psx K = Ok thr /\ confident_joint_K K s psx = Ok J /\
    square K J /\
    forall a r, J !! a = Some r ->
      Forall (fun v => (0 <= v)%Z) r /\
      row_sum r = Z.of_nat (count_if (counted s thr a) (enumerate psx)) /\
      (row_sum r <= label_count s a)%Z.
Proof.
  intros Hv. pose proof Hv as (Hlen & Hs & Hrows).
  destruct (thresholds_total K s psx Hlen) as (thr & Hthr & Hthrlen).
  { eapply Forall_impl; [exact Hrows|]. simpl. lia. }
  destruct (joint_loop_spec K s thr (enumerate psx) (zeros K))
    as (J & HJ & Hsq & Hcell);
    [apply zeros_square|done|by apply valid_enumerate|].
  exists thr, J. unfold confident_joint_K. rewrite Hthr. cbn [bind].
  do 3 (split; [done|]). intros a r Hr.
  assert (Er : r = map (fun b => Z.of_nat
                    (count_if (counts_for s thr a b) (enumerate psx))) (seq 0 K)).
  { rewrite (row_of_cells K J a r Hsq Hr). apply map_ext. intros b.
    rewrite Hcell, zeros_cellZ. lia. }
  assert (Esum : row_sum r
                 = Z.of_nat (count_if (counted s thr a) (enumerate psx))).
  { rewrite Er.
    apply (sum_count_swap (fun b => counts_for s thr a b) (counted s thr a)).
    eapply Forall_impl; [by apply valid_enumerate|].
    intros ir [Hir _]. by apply counts_for_sum. }
  split; [|split; [done|]].
  - rewrite Er. apply Forall_forall. intros v Hv'.
    apply list_elem_of_fmap in Hv' as (b & -> & _). lia.
  - rewrite Esum, <- (label_count_enumerate s psx a Hlen).
    apply inj_le, count_if_mono. intros ir Hc. unfold counted in Hc.
    apply bool_decide_eq_true_1 in Hc as [Hc _].
    by apply bool_decide_eq_true_2.
Qed.

(** ** STEP 2: the selection of a pair grows with its prune count *)

Lemma prune_pair_Ok_intro (s : list Z) (psx : list (list num))
  (psx_k psx_j : list num) (j : nat) (num2prune : Z) (v : num) :
  length psx_k = length psx -> length s = length psx ->
  column psx j = Ok psx_j -> (0 < num2prune)%Z ->
  np_sort (map neg (map fst (List.filter snd
             (zip (zip_with sub psx_k psx_j) (eq_mask s j)))))
    !! Z.to_nat (num2prune - 1) = Some v ->
  prune_pair s psx psx_k j num2prune
  = Ok (zip_with andb (eq_mask s j)
          (map (fun m => ge m (neg v)) (zip_with sub psx_k psx_j))).
Proof.
  intros Hk Hlen Hpj Hpos Hv. unfold prune_pair. rewrite Hpj. cbn [bind].
  apply column_length in Hpj.
  rewrite broadcast2_same by lia. cbn [bind].
  rewrite mask_select_Ok by (rewrite length_zip_with, eq_mask_length; lia).
  cbn [bind].
  set (sel := map fst (List.filter snd
                (zip (zip_with sub psx_k psx_j) (eq_mask s j)))) in *.
  apply lookup_lt_Some in Hv as Hlt. unfold np_sort in Hlt.
  rewrite (Permutation_length (merge_sort_Permutation np_le _)) in Hlt.
  rewrite np_partition_in_bounds by lia. cbn [bind].
  apply index_Ok in Hv.
  replace (py_index (np_sort (map neg sel)) (num2prune - 1)) with (Ok v)
    by (rewrite <- Hv, <- py_index_nonneg; f_equal; lia).
  cbn [bind].
  by rewrite broadcast2_same
    by (rewrite eq_mask_length, length_map, length_zip_with; lia).
Qed.

Lemma StronglySorted_lookup_le {A} (R : relation A) `{!Reflexive R}
  (l : list A) (i j : nat) (x y : A) :
  StronglySorted R l -> l !! i = Some x -> l !! j = Some y -> i <= j -> R x y.
Proof.
  intros Hs. revert i j. induction Hs as [|z l Hs IH Hz]; intros i j Hi Hj Hij;
    [done|].
  destruct i as [|i], j as [|j]; simpl in Hi, Hj; try lia.
  - by simplify_eq.
  - injection Hi as ->. rewrite Forall_forall in Hz.
    apply Hz. by eapply list_elem_of_lookup_2.
  - apply (IH i j); [done|done|lia].
Qed.

Lemma and_mask_true (mask : list bool) (f g : num -> bool) (margin : list num)
  (i : nat) :
  (forall m, f m = true -> g m = true) ->
  zip_with andb mask (map f margin) !! i = Some true ->
  zip_with andb mask (map g margin) !! i = Some true.
Proof.
  intros Hfg. rewrite !lookup_zip_with, !list_lookup_fmap.
  destruct (mask !! i) as [b|]; [|done]. destruct (margin !! i) as [m|]; [|done].
  simpl. intros [= H]. apply andb_true_iff in H as [-> H]. by rewrite (Hfg m H).
Qed.

Lemma np_sort_finite (l : list num) : Forall finite l -> Forall finite (np_sort l).
Proof.
  intros H. unfold np_sort.
  by rewrite (merge_sort_Permutation np_le l).
Qed.

(** ** STEP 1 with [K = len(np.unique(s))] *)

Lemma unique_labels_present (s : list Z) (a : nat) :
  Forall (fun l => (0 <= l < Z.of_nat (length (np_unique s)))%Z) s ->
  a < length (np_unique s) ->
  Z.of_nat a ∈ s.
Proof.
  intros Hs Ha. unfold np_unique in *.
  rewrite (Permutation_length (merge_sort_Permutation Z.le (remove_dups s))) in *.
  assert (Hsub : remove_dups s ⊆+ map Z.of_nat (seq 0 (length (remove_dups s)))).
  { apply NoDup_submseteq; [apply NoDup_remove_dups|].
    intros x Hx. rewrite elem_of_remove_dups in Hx.
    rewrite Forall_forall in Hs. specialize (Hs x Hx).
    apply list_elem_of_fmap. exists (Z.to_nat x). split; [lia|].
    apply elem_of_seq. lia. }
  apply submseteq_length_Permutation in Hsub;
    [|by rewrite length_map, length_seq].
  apply elem_of_remove_dups. rewrite Hsub.
  apply list_elem_of_fmap_2, elem_of_seq. lia.
Qed.

Lemma label_count_pos (s : list Z) (a : nat) :
  Z.of_nat a ∈ s <-> (0 < label_count s a)%Z.
Proof.
  unfold label_count. split.
  - intros Ha. apply list_elem_of_lookup in Ha as [i Hi].
    apply (inj_lt 0), count_true_pos. exists i. by apply eq_mask_lookup.
  - intros H. assert (H' : 0 < count_true (eq_mask s a)) by lia.
    apply count_true_pos in H' as [i Hi]. apply eq_mask_lookup in Hi.
    by eapply list_elem_of_lookup_2.
Qed.

Lemma threshold_finite (s : list Z) (psx : list (list num)) (k : nat) (t : num) :
  length s = length psx -> Forall (fun row => k < length row) psx ->
  Forall (Forall finite) psx -> threshold s psx k = Ok t ->
  finite t <-> Z.of_nat k ∈ s.
Proof.
  intros Hlen Hrows Hfin Ht.
  destruct (threshold_total s psx k Hlen Hrows) as (c & Hc & Hval).
  rewrite Hval in Ht. injection Ht as <-.
  set (sel := map fst (List.filter snd (zip c (eq_mask s k)))).
  assert (Hl : length sel = count_true (eq_mask s k)).
  { apply (mask_select_count c). apply mask_select_Ok.
    rewrite eq_mask_length, Hlen. by eapply column_length. }
  rewrite label_count_pos. unfold label_count. rewrite <- Hl. split.
  - destruct sel; [done|simpl; lia].
  - intros Hpos.
    destruct (np_mean_le_max sel) as (tq & v & -> & _); [|by destruct sel|done].
    apply mask_select_Forall. by eapply column_finite.
Qed.

(** ** Further properties: STEP 0 and the scores *)

(** STEP 0.  With labels among the ten digits and one draw per distinct
    error index, the loop ends with exactly the chosen examples relabelled,
    each to another digit: the asserted count [len(s) - sum(s == y)] is the
    number of error indices, and [actual_label_errors] lists them in
    ascending order. *)
Theorem label_errors_added_as_drawn (y : list Z) (choices : list (nat * nat)) :
  Forall (fun l => (0 <= l < 10)%Z) y ->
  NoDup (map fst choices) ->
  Forall (fun ir => ir.1 < length y /\ ir.2 < 9) choices ->
  exists s errs,
    add_label_errors y choices = Ok s /\
    length s = length y /\
    Forall (fun l => (0 <= l < 10)%Z) s /\
    num_label_errors s y = Z.of_nat (length choices) /\
    actual_label_errors s y = Ok errs /\
    errs ≡ₚ map fst choices /\
    StronglySorted lt errs.
Proof.
  intros Hy Hnd Hch.
  destruct (corrupt_loop_spec y choices y) as (s & Hs & Hlen & Hs10 & Hfinal);
    try done.
  assert (Hmask : length (ne_mask s y) = length y).
  { unfold ne_mask. rewrite length_zip_with. lia. }
  set (errs := map fst (List.filter snd (zip (seq 0 (length y)) (ne_mask s y)))).
  assert (Herrs : actual_label_errors s y = Ok errs).
  { unfold actual_label_errors. apply mask_select_Ok. by rewrite length_seq. }
  assert (Hsorted : StronglySorted lt errs).
  { unfold errs. rewrite <- Hmask at 1. apply selected_sorted. }
  assert (Hperm : errs ≡ₚ map fst choices).
  { apply NoDup_Permutation; [by apply StronglySorted_lt_NoDup|done|].
    intros i. rewrite (mask_select_seq _ _ _ i Herrs), ne_mask_lookup.
    destruct (Hfinal i) as [Hin Hout]. split; [|done].
    intros (a & b & Ha & Hb & Hne).
    destruct (decide (i ∈ map fst choices)) as [|Hni]; [done|].
    rewrite (Hout Hni), Hb in Ha. congruence. }
  exists s, errs. repeat split; try done.
  unfold num_label_errors. pose proof (eq_ne_count s y Hlen) as Hc.
  pose proof (mask_select_count _ _ _ Herrs) as Hn.
  apply Permutation_length in Hperm. rewrite length_map in Hperm. lia.
Qed.

Lemma label_errors_added_as_drawn_witness :
  exists s errs,
    add_label_errors [3; 1; 4; 1; 5]%Z [(2, 0); (0, 8); (4, 5)] = Ok s /\
    length s = length [3; 1; 4; 1; 5]%Z /\
    Forall (fun l => (0 <= l < 10)%Z) s /\
    num_label_errors s [3; 1; 4; 1; 5]%Z
    = Z.of_nat (length [(2, 0); (0, 8); (4, 5)]) /\
    actual_label_errors s [3; 1; 4; 1; 5]%Z = Ok errs /\
    errs ≡ₚ map fst [(2, 0); (0, 8); (4, 5)] /\
    StronglySorted lt errs.
Proof.
  apply (label_errors_added_as_drawn [3; 1; 4; 1; 5]%Z [(2, 0); (0, 8); (4, 5)]).
  - repeat constructor; lia.
  - by apply (bool_decide_unpack _).
  - repeat constructor.
Defined.

(** The scores.  For index lists without repeats the two scores count the
    same examples, the actual errors that were found; each score, when it is
    a number, lies between 0 and 1 (the first divided by the number of
    actual errors, as the assertion of STEP 0 makes [NUM_ERRORS]); the first
    counts all actual errors exactly when every one of them was found; and
    the second divides by zero exactly when no label error was found. *)
Theorem scores_count_common_errors (found actual : list nat) :
  NoDup found -> NoDup actual ->
  hits actual found = hits found actual /\
  (score_actual found actual = ZeroDivisionError <-> found = []) /\
  (forall x, score_actual found actual = Quot x -> (0 <= x <= 1)%Q) /\
  (forall x, score_found found actual (length actual) = Quot x -> (0 <= x <= 1)%Q) /\
  (hits actual found = length actual <-> forall e, e ∈ actual -> e ∈ found).
Proof.
  intros Hf Ha. split; [by apply hits_comm|]. split; [|split; [|split]].
  - unfold score_actual, true_div. destruct found as [|e found]; [done|].
    cbn [length Nat.eqb]. split; discriminate.
  - intros x. apply true_div_unit. apply count_if_le.
  - intros x. apply true_div_unit. apply count_if_le.
  - apply hits_all.
Qed.

Lemma scores_count_common_errors_witness :
  hits [2; 4; 7; 8] [4; 2; 9] = hits [4; 2; 9] [2; 4; 7; 8] /\
  (score_actual [4; 2; 9] [2; 4; 7; 8] = ZeroDivisionError <-> [4; 2; 9] = []) /\
  (forall x, score_actual [4; 2; 9] [2; 4; 7; 8] = Quot x -> (0 <= x <= 1)%Q) /\
  (forall x, score_found [4; 2; 9] [2; 4; 7; 8] (length [2; 4; 7; 8]) = Quot x ->
     (0 <= x <= 1)%Q) /\
  (hits [2; 4; 7; 8] [4; 2; 9] = length [2; 4; 7; 8] <->
   forall e, e ∈ [2; 4; 7; 8] -> e ∈ [4; 2; 9]).
Proof.
  apply (scores_count_common_errors [4; 2; 9] [2; 4; 7; 8]);
    by apply (bool_decide_unpack _).
Defined.

(** ** Further properties: STEP 1 and STEP 2 *)

(** STEP 2, what is returned.  The label errors returned are the positions
    of the final boolean mask, each once and each an index of an example.
    Every one of them has a label [j] with a positive prune count under some
    true class [k <> j] that has more than [MIN] examples; so prune counts
    that are positive on the diagonal only give no label error. *)
Theorem label_errors_are_flagged_once (MIN : Z) (K : nat) (s : list Z)
  (psx : list (list num)) (pcm : matrix) (out : list nat) :
  label_errors_idx MIN K s psx pcm = Ok out ->
  NoDup out /\
  (exists mask, label_errors_mask MIN K s psx pcm = Ok mask /\
     forall i, i ∈ out <-> mask !! i = Some true) /\
  Forall (fun i => i < length s /\ flaggable MIN K s pcm i) out /\
  ((forall k j n, k <> j -> cell pcm k j = Some n -> (n <= 0)%Z) -> out = []).
Proof.
  intros H.
  destruct (label_errors_idx_Permutation MIN K s psx pcm out H)
    as (mask & idx & Hmask & Hidx & Hperm).
  assert (Hin : forall i, i ∈ out <-> mask !! i = Some true).
  { intros i. rewrite Hperm. by apply (mask_select_seq (length s)). }
  assert (Hflag : Forall (fun i => i < length s /\ flaggable MIN K s pcm i) out).
  { apply Forall_forall. intros i Hi. apply Hin in Hi. split.
    - apply mask_select_length in Hidx. rewrite length_seq in Hidx.
      rewrite Hidx. by eapply lookup_lt_Some.
    - by eapply label_errors_mask_flag. }
  split; [|split; [by exists mask|split; [done|]]].
  - rewrite Hperm. apply StronglySorted_lt_NoDup.
    pose proof (mask_select_length _ _ _ Hidx) as Hl. rewrite length_seq in Hl.
    rewrite Hl in Hidx. rewrite mask_select_Ok in Hidx by (by rewrite length_seq).
    injection Hidx as <-. apply selected_sorted.
  - intros Hdiag. destruct out as [|i out]; [done|]. exfalso.
    apply Forall_cons in Hflag as [[_ (j & k & n & _ & _ & Hkj & _ & Hcell & Hn)] _].
    specialize (Hdiag k j n Hkj Hcell). lia.
Qed.

Lemma label_errors_are_flagged_once_witness :
  NoDup [4] /\
  (exists mask, label_errors_mask 1 2 s_demo psx_demo [[4; 0]; [1; 5]]%Z = Ok mask /\
     forall i, i ∈ [4] <-> mask !! i = Some true) /\
  Forall (fun i => i < length s_demo
                   /\ flaggable 1 2 s_demo [[4; 0]; [1; 5]]%Z i) [4] /\
  ((forall k j n, k <> j -> cell [[4; 0]; [1; 5]]%Z k j = Some n -> (n <= 0)%Z) ->
   [4] = []).
Proof.
  apply (label_errors_are_flagged_once 1 2 s_demo psx_demo [[4; 0]; [1; 5]]%Z).
  vm_compute. reflexivity.
Defined.


(** X5. STEP 1 on inputs of the right shape: the confident joint is a K x K
    matrix of non-negative counts; row [a] adds up to the number of examples
    with label [a] whose confident set is not empty, so to at most the
    number of examples with label [a]; and the whole joint adds up to at
    most [len(s)]: every example is counted at most once. *)
Theorem confident_joint_rows_bounded (K : nat) (s : list Z)
  (psx : list (list num)) :
  valid_input K s psx ->
  exists thr J,
    thresholds s psx K = Ok thr /\ confident_joint_K K s psx = Ok J /\
    square K J /\
    (forall a r, J !! a = Some r ->
       Forall (fun v => (0 <= v)%Z) r /\
       row_sum r = Z.of_nat (count_if (counted s thr a) (enumerate psx)) /\
       (row_sum r <= label_count s a)%Z) /\
    (total J <= Z.of_nat (length s))%Z.
Proof.
  intros Hv. destruct (joint_rows K s psx Hv) as (thr & J & Hthr & HJ & Hsq & Hrow).
  exists thr, J. do 4 (split; [done|]). destruct Hv as (_ & Hs & _).
  rewrite <- (label_counts_total K s Hs). unfold total.
  rewrite (map_lookup_seq row_sum [] J). destruct Hsq as [HJlen Hsq].
  rewrite HJlen. apply row_sum_le, Forall_forall. intros a Ha.
  apply elem_of_seq in Ha.
  destruct (lookup_lt_is_Some_2 J a) as [r Hr]; [lia|].
  rewrite Hr. simpl. by apply Hrow.
Qed.

Lemma confident_joint_rows_bounded_witness :
  exists thr J,
    thresholds s_demo psx_demo 2 = Ok thr /\ confident_joint_K 2 s_demo psx_demo = Ok J /\
    square 2 J /\
    (forall a r, J !! a = Some r ->
       Forall (fun v => (0 <= v)%Z) r /\
       row_sum r = Z.of_nat (count_if (counted s_demo thr a) (enumerate psx_demo)) /\
       (row_sum r <= label_count s_demo a)%Z) /\
    (total J <= Z.of_nat (length s_demo))%Z.
Proof.
  apply (confident_joint_rows_bounded 2 s_demo psx_demo).
  split; [reflexivity|]. split; repeat constructor; lia.
Defined.

(** X6. STEP 2, one pair of a true class [k] and a noisy label [j], for the
    prune counts the loop passes on, the positive ones: where the selection
    works for a prune count [n2] it works for every smaller count
    [0 < n1], and what [n1] selects [n2] selects as well, unless the rank
    of [n2] reaches a margin that is NaN, in which case [n2] selects
    nothing.  Without NaN among the probabilities asking to prune more
    never drops an example. *)
Theorem prune_pair_grows_with_count (s : list Z) (psx : list (list num))
  (k j : nat) (psx_k : list num) (n1 n2 : Z) (sel2 : list bool) :
  column psx k = Ok psx_k -> (0 < n1 <= n2)%Z ->
  prune_pair s psx psx_k j n2 = Ok sel2 ->
  exists sel1,
    prune_pair s psx psx_k j n1 = Ok sel1 /\ length sel1 = length sel2 /\
    ((forall i, sel1 !! i = Some true -> sel2 !! i = Some true) \/
     Forall (fun b => b = false) sel2) /\
    (Forall (Forall finite) psx ->
     forall i, sel1 !! i = Some true -> sel2 !! i = Some true).
Proof.
  intros Hcol Hn H2. pose proof (column_length _ _ _ Hcol) as Hk.
  destruct (prune_pair_Ok_inv s psx psx_k j n2 sel2 Hk H2)
    as (psx_j & p2 & v2 & Hpj & Hlen & Hp2 & Hv2 & ->).
  rewrite Hp2 in Hv2 by lia.
  set (margin := zip_with sub psx_k psx_j) in *.
  set (sorted := np_sort (map neg (map fst (List.filter snd
                    (zip margin (eq_mask s j)))))) in *.
  destruct (lookup_lt_is_Some_2 sorted (Z.to_nat (n1 - 1))) as [v1 Hv1].
  { apply lookup_lt_Some in Hv2. lia. }
  exists (zip_with andb (eq_mask s j) (map (fun m => ge m (neg v1)) margin)).
  split; [apply prune_pair_Ok_intro; [done|done|done|lia|done]|].
  split; [by rewrite !length_zip_with, !length_map|].
  assert (Hle : np_le v1 v2).
  { apply (StronglySorted_lookup_le np_le sorted (Z.to_nat (n1 - 1))
             (Z.to_nat (n2 - 1))); [|done|done|lia].
    apply (StronglySorted_merge_sort np_le). }
  assert (Hsub : finite v2 ->
            forall i,
              zip_with andb (eq_mask s j) (map (fun m => ge m (neg v1)) margin) !! i
              = Some true ->
              zip_with andb (eq_mask s j) (map (fun m => ge m (neg v2)) margin) !! i
              = Some true).
  { intros Hf i. apply and_mask_true. intros m Hm.
    apply ge_trans with (neg v1); [done|].
    destruct v2 as [y|]; [|done]. destruct v1 as [x|]; [|done].
    apply np_le_Fin in Hle. cbn [neg]. apply ge_iff. by apply Qopp_le_compat. }
  split.
  - destruct v2 as [y|] eqn:E2; [left; by apply Hsub|right].
    apply Forall_lookup. intros i b Hb.
    apply lookup_zip_with_Some in Hb as (b1 & b2 & -> & _ & Hb2).
    apply list_lookup_fmap_Some in Hb2 as (m & -> & _).
    simpl. rewrite ge_NaN_r. apply andb_false_r.
  - intros Hfin. apply Hsub.
    assert (Hall : Forall finite sorted).
    { apply np_sort_finite. apply Forall_fmap.
      eapply Forall_impl; [apply mask_select_Forall|apply neg_finite].
      unfold margin. apply Forall_lookup. intros i m Hm.
      apply lookup_zip_with_Some in Hm as (a & b & -> & Ha & Hb).
      apply sub_finite.
      - pose proof (column_finite _ _ _ Hfin Hcol) as Hf.
        rewrite Forall_lookup in Hf. by apply (Hf i).
      - pose proof (column_finite _ _ _ Hfin Hpj) as Hf.
        rewrite Forall_lookup in Hf. by apply (Hf i). }
    rewrite Forall_lookup in Hall. by apply (Hall _ _ Hv2).
Qed.

Lemma prune_pair_grows_with_count_witness :
  exists sel1,
    prune_pair s_demo psx_demo (replicate 4 (q 1 10) ++ replicate 6 (q 9 10)) 0 1
    = Ok sel1 /\
    length sel1 = length (replicate 5 true ++ replicate 5 false) /\
    ((forall i, sel1 !! i = Some true ->
        (replicate 5 true ++ replicate 5 false) !! i = Some true) \/
     Forall (fun b => b = false) (replicate 5 true ++ replicate 5 false)) /\
    (Forall (Forall finite) psx_demo ->
     forall i, sel1 !! i = Some true ->
       (replicate 5 true ++ replicate 5 false) !! i = Some true).
Proof.
  apply (prune_pair_grows_with_count s_demo psx_demo 1 0 _ 1 2);
    [reflexivity|lia|reflexivity].
Defined.

(** X7. STEP 1 as the notebook runs it, with [K = len(np.unique(s))]: when
    the labels lie in [0, K) every class has an example; if in addition no
    probability is NaN, every threshold is a number and every row of the
    confident joint counts at least one example, so no row is all zero. *)
Theorem labels_cover_classes (s : list Z) (psx : list (list num)) :
  valid_input (length (np_unique s)) s psx ->
  (forall a, a < length (np_unique s) -> Z.of_nat a ∈ s) /\
  (Forall (Forall finite) psx ->
   exists thr J,
     thresholds s psx (length (np_unique s)) = Ok thr /\
     confident_joint s psx = Ok J /\
     Forall finite thr /\
     Forall (fun r => (1 <= row_sum r)%Z) J).
Proof.
  intros Hv. pose proof Hv as (Hlen & Hs & Hrows).
  assert (Hin : forall a, a < length (np_unique s) -> Z.of_nat a ∈ s)
    by (intros a; by apply unique_labels_present).
  split; [done|]. intros Hfin.
  destruct (joint_rows _ s psx Hv) as (thr & J & Hthr & HJ & Hsq & Hrow).
  exists thr, J. do 2 (split; [done|]). split.
  - apply Forall_lookup. intros k t Hk.
    assert (Hlt : k < length (np_unique s)).
    { apply lookup_lt_Some in Hk. apply mapM_Ok, Forall2_length in Hthr.
      rewrite length_seq in Hthr. lia. }
    destruct (thresholds_lookup _ s psx thr k Hthr Hlt) as (t' & Ht' & Hval).
    assert (t' = t) as -> by congruence.
    apply (threshold_finite s psx k t); [done| |done|done|by apply Hin].
    eapply Forall_impl; [exact Hrows|]. simpl. lia.
  - apply Forall_lookup. intros a r Hr.
    assert (Hlt : a < length (np_unique s)).
    { apply lookup_lt_Some in Hr. destruct Hsq as [<- _]. done. }
    destruct (Hrow a r Hr) as (Hnn & _ & _).
    pose proof (raw_row_sum _ s psx J a r Hv Hfin HJ Hr) as Hz.
    pose proof (proj1 (label_count_pos s a) (Hin a Hlt)) as Hpos.
    assert (0 <= row_sum r)%Z; [|lia].
    clear -Hnn. induction Hnn as [|v r Hv _ IH]; [done|].
    rewrite row_sum_cons. lia.
Qed.

Lemma labels_cover_classes_witness :
  (forall a, a < length (np_unique s_demo) -> Z.of_nat a ∈ s_demo) /\
  exists thr J,
    thresholds s_demo psx_demo (length (np_unique s_demo)) = Ok thr /\
    confident_joint s_demo psx_demo = Ok J /\
    Forall finite thr /\
    Forall (fun r => (1 <= row_sum r)%Z) J.
Proof.
  destruct (labels_cover_classes s_demo psx_demo) as [H1 H2].
  - split; [reflexivity|]. split; vm_compute; repeat constructor; discriminate.
  - split; [exact H1|]. apply H2. vm_compute. repeat constructor.
Defined.
